(** * oust.py: a shallow embedding of the controller manager and game loop

    The program is a Python 2 script (it relies on [dict.items()] and
    [dict.values()] returning lists).  Its numbers are Python floats, which
    are IEEE 754 binary64 values, and unbounded Python integers.  The
    embedding uses Rocq's primitive binary64 floats for the former and [Z]
    for the latter; dictionaries are stdpp finite maps.

    The device driver ([psmove]), the wall clock ([time.time]) and the
    [hcitool] command are outside the program.  What the program reads from
    them is an input of the model (the fields [clock] and [ticks] of the
    state), what it sends to them is recorded in an output trace. *)

From Stdlib Require Import Floats ZArith Lia.
From stdpp Require Import gmap strings list.

Set Warnings "-inexact-float".
Local Open Scope Z_scope.

(** ** Python numbers *)

Inductive exn :=
| KeyError (key : string)
| IndexError
| TypeError
| ValueError
| OverflowError.

(** [int(x)] on a float truncates toward zero; it raises [ValueError] on a
    NaN and [OverflowError] on an infinity. *)
Definition py_int (x : float) : exn + Z :=
  match Prim2SF x with
  | S754_zero _ => inr 0
  | S754_finite s m e => inr (cond_Zopp s (Z.shiftl (Zpos m) e))
  | S754_nan => inl ValueError
  | S754_infinity _ => inl OverflowError
  end.

(** The implicit conversion of an integer operand of a float operation:
    the nearest binary64 value, ties to even.  (CPython raises
    [OverflowError] for an integer beyond the binary64 range, where this
    gives an infinity; the integers of this program are list lengths and
    indices, LED values and the loop index of the win animation.) *)
Definition py_float (z : Z) : float :=
  SF2Prim (binary_normalize prec emax z 0 false).

(** A Python number: an integer or a float.  The arguments [s] and [v]
    of [hsv_to_rgb] are numbers of either kind (the callers pass the
    integer [1] for [v], and the integer [1] or the float [0.9] for [s]),
    and so are the elements of the list it returns. *)
Inductive num :=
| NInt (z : Z)
| NFloat (f : float).

(** A number as an operand of a float operation. *)
Definition float_of_num (x : num) : float :=
  match x with
  | NInt z => py_float z
  | NFloat f => f
  end.

(** [x == 0.0]: an integer is compared by its value. *)
Definition num_is_zero (x : num) : bool :=
  match x with
  | NInt z => z =? 0
  | NFloat f => (f =? 0)%float
  end.

(** [x *= 255]: an integer stays an integer. *)
Definition times_255 (x : num) : num :=
  match x with
  | NInt z => NInt (z * 255)
  | NFloat f => NFloat (f * 255)%float
  end.

Definition int_of_num (x : num) : exn + Z :=
  match x with
  | NInt z => inr z
  | NFloat f => py_int f
  end.

(** What a call of a Python function that has no [return] on some path
    can do: return a value, fall off its end (returning [None]), or raise. *)
Inductive returned (A : Type) :=
| Value (a : A)
| NoValue
| Raise (e : exn).
Arguments Value {A} a.
Arguments NoValue {A}.
Arguments Raise {A} e.

(** ** [hsv_to_rgb] (lines 25-34)

    The hue [h] is a float in both calls ([x*1.0/...]).  In [1.-s],
    [s*f] and [v*(...)] the numbers [s] and [v] are operands of float
    operations; [v*=255] keeps the kind of [v].  [i %= 6] is Python's
    modulo, whose result has the sign of the divisor, as [Z.modulo]. *)
Definition hsv_to_rgb (h : float) (s v : num) : returned (list num) :=
  if num_is_zero s then
    let v := times_255 v in Value [v; v; v]
  else
    let fs := float_of_num s in
    let fv := float_of_num v in
    match py_int (h * 6)%float with
    | inl e => Raise e
    | inr i =>
      let f := (h * 6 - py_float i)%float in
      match py_int (255 * (fv * (1 - fs)))%float with
      | inl e => Raise e
      | inr p =>
        match py_int (255 * (fv * (1 - fs * f)))%float with
        | inl e => Raise e
        | inr q =>
          match py_int (255 * (fv * (1 - fs * (1 - f))))%float with
          | inl e => Raise e
          | inr t =>
            let v := times_255 v in
            let i := i mod 6 in
            if i =? 0 then Value [v; NInt t; NInt p]
            else if i =? 1 then Value [NInt q; v; NInt p]
            else if i =? 2 then Value [NInt p; v; NInt t]
            else if i =? 3 then Value [NInt p; NInt q; v]
            else if i =? 4 then Value [NInt t; NInt p; v]
            else if i =? 5 then Value [v; NInt p; NInt q]
            else NoValue
          end
        end
      end
    end.

(** [[int(x) for x in l]]. *)
Fixpoint int_each (l : list num) : exn + list Z :=
  match l with
  | [] => inr []
  | x :: l' =>
    match int_of_num x with
    | inl e => inl e
    | inr z =>
      match int_each l' with
      | inl e => inl e
      | inr zs => inr (z :: zs)
      end
    end
  end.

(** The inner comprehension of line 42, [int(x)] for each [x] of the list
    [hsv_to_rgb] returns for one [colour]: iterating [None] is a
    [TypeError]. *)
Definition rgb_of_hsv (colour : float * num * num) : exn + list Z :=
  let '(h, s, v) := colour in
  match hsv_to_rgb h s v with
  | Value l => int_each l
  | NoValue => inl TypeError
  | Raise e => inl e
  end.

(** The outer comprehension of line 42 (and of line 177), over [HSV]. *)
Fixpoint rgb_range (hsv : list (float * num * num))
    : exn + list (list Z) :=
  match hsv with
  | [] => inr []
  | colour :: hsv' =>
    match rgb_of_hsv colour with
    | inl e => inl e
    | inr c =>
      match rgb_range hsv' with
      | inl e => inl e
      | inr cs => inr (c :: cs)
      end
    end
  end.

(** [[(x*1.0/n, s, v) for x in range(n)]] with the divisor [d]: the
    palette uses [d = n = len(moves)] and the integers [1], [1], the win
    animation [d = n = 50], the float [0.9] and the integer [1]. *)
Definition hue (x d : Z) : float := (py_float x * 1 / py_float d)%float.

Definition hsv_range (n : nat) (d : Z) (s v : num)
    : list (float * num * num) :=
  (fun x : nat => (hue (Z.of_nat x) d, s, v)) <$> seq 0 n.

(** ** Devices and the environment *)

Inductive Conn := Conn_Bluetooth | Conn_USB | Conn_Unknown.

(** A [psmove.PSMove] object, as far as the program looks at it without
    asking the device: [this] is [false] when [move.this == None]
    (initialisation failed).  [get_serial()] is taken to return a string,
    so the second test of line 75 holds. *)
Record PSMove := {
  this : bool;
  connection_type : Conn;
  get_serial : string
}.

(** What a device answers during one tick: the result of [poll()] and the
    values the getters return after it. *)
Record Reading := {
  poll : bool;
  get_trigger : Z;
  get_buttons : Z;
  get_battery : Z;
  get_accelerometer_frame : float * float * float
}.

(** The environment of one tick of a loop: the devices
    [psmove.count_connected()] enumerates when the tick starts (read by the
    lobby only, line 65), what each device answers, and the devices
    enumerated when the tick re-counts them (lines 136-137 and 239-240). *)
Record Tick := {
  connected : list PSMove;
  sense : PSMove -> Reading;
  connected_after : list PSMove
}.

(** What the program sends out.  A call on a device is recorded with the
    serial of the device: two [PSMove] objects made for one device give
    the same events. *)
Inductive Event :=
| EvPoll (serial : string)
| EvPair (serial : string)
| EvSetLeds (serial : string) (r g b : Z)
| EvSetRumble (serial : string) (rumble : Z)
| EvUpdateLeds (serial : string)
| EvDisconnect (serial : string)
| EvPrint (msg : string)
| EvSleep (secs : float).

(** ** The state: the module's global variables, then the environment
    ([clock]: the values the next calls of [time.time()] return; [ticks]:
    the environment of the next loop iterations) and the output trace. *)
Record State := mkState {
  poll_failures : gmap string Z;
  HSV : list (float * num * num);
  colour_range : list (list Z);
  controller_colours : gmap string (list Z);
  paired_controllers : list string;
  controllers_alive : gmap string PSMove;
  usb_paired_controllers : list string;
  start : bool;
  battery : bool;
  battery_pressed : bool;
  moves : list PSMove;
  move_last_values : gmap string float;
  running : bool;
  clock : list float;
  ticks : list Tick;
  out : list Event
}.

(** Assignment to one global variable (the others keep their value). *)
Definition set_poll_failures
    (f : gmap string Z -> gmap string Z)
    (st : State) : State :=
  mkState (f (poll_failures st)) (HSV st) (colour_range st)
    (controller_colours st) (paired_controllers st) (controllers_alive st)
    (usb_paired_controllers st) (start st) (battery st) (battery_pressed st)
    (moves st) (move_last_values st) (running st) (clock st) (ticks st)
    (out st).

Definition set_HSV
    (f : list (float * num * num) -> list (float * num * num))
    (st : State) : State :=
  mkState (poll_failures st) (f (HSV st)) (colour_range st)
    (controller_colours st) (paired_controllers st) (controllers_alive st)
    (usb_paired_controllers st) (start st) (battery st) (battery_pressed st)
    (moves st) (move_last_values st) (running st) (clock st) (ticks st)
    (out st).

Definition set_colour_range
    (f : list (list Z) -> list (list Z))
    (st : State) : State :=
  mkState (poll_failures st) (HSV st) (f (colour_range st))
    (controller_colours st) (paired_controllers st) (controllers_alive st)
    (usb_paired_controllers st) (start st) (battery st) (battery_pressed st)
    (moves st) (move_last_values st) (running st) (clock st) (ticks st)
    (out st).

Definition set_controller_colours
    (f : gmap string (list Z) -> gmap string (list Z))
    (st : State) : State :=
  mkState (poll_failures st) (HSV st) (colour_range st)
    (f (controller_colours st)) (paired_controllers st) (controllers_alive st)
    (usb_paired_controllers st) (start st) (battery st) (battery_pressed st)
    (moves st) (move_last_values st) (running st) (clock st) (ticks st)
    (out st).

Definition set_paired_controllers
    (f : list string -> list string)
    (st : State) : State :=
  mkState (poll_failures st) (HSV st) (colour_range st)
    (controller_colours st) (f (paired_controllers st)) (controllers_alive st)
    (usb_paired_controllers st) (start st) (battery st) (battery_pressed st)
    (moves st) (move_last_values st) (running st) (clock st) (ticks st)
    (out st).

Definition set_controllers_alive
    (f : gmap string PSMove -> gmap string PSMove)
    (st : State) : State :=
  mkState (poll_failures st) (HSV st) (colour_range st)
    (controller_colours st) (paired_controllers st) (f (controllers_alive st))
    (usb_paired_controllers st) (start st) (battery st) (battery_pressed st)
    (moves st) (move_last_values st) (running st) (clock st) (ticks st)
    (out st).

Definition set_usb_paired_controllers
    (f : list string -> list string)
    (st : State) : State :=
  mkState (poll_failures st) (HSV st) (colour_range st)
    (controller_colours st) (paired_controllers st) (controllers_alive st)
    (f (usb_paired_controllers st)) (start st) (battery st)
    (battery_pressed st) (moves st) (move_last_values st) (running st)
    (clock st) (ticks st) (out st).

Definition set_start (f : bool -> bool) (st : State) : State :=
  mkState (poll_failures st) (HSV st) (colour_range st)
    (controller_colours st) (paired_controllers st) (controllers_alive st)
    (usb_paired_controllers st) (f (start st)) (battery st)
    (battery_pressed st) (moves st) (move_last_values st) (running st)
    (clock st) (ticks st) (out st).

Definition set_battery (f : bool -> bool) (st : State) : State :=
  mkState (poll_failures st) (HSV st) (colour_range st)
    (controller_colours st) (paired_controllers st) (controllers_alive st)
    (usb_paired_controllers st) (start st) (f (battery st))
    (battery_pressed st) (moves st) (move_last_values st) (running st)
    (clock st) (ticks st) (out st).

Definition set_battery_pressed (f : bool -> bool) (st : State) : State :=
  mkState (poll_failures st) (HSV st) (colour_range st)
    (controller_colours st) (paired_controllers st) (controllers_alive st)
    (usb_paired_controllers st) (start st) (battery st)
    (f (battery_pressed st)) (moves st) (move_last_values st) (running st)
    (clock st) (ticks st) (out st).

Definition set_moves (f : list PSMove -> list PSMove) (st : State) : State :=
  mkState (poll_failures st) (HSV st) (colour_range st)
    (controller_colours st) (paired_controllers st) (controllers_alive st)
    (usb_paired_controllers st) (start st) (battery st) (battery_pressed st)
    (f (moves st)) (move_last_values st) (running st) (clock st) (ticks st)
    (out st).

Definition set_move_last_values
    (f : gmap string float -> gmap string float)
    (st : State) : State :=
  mkState (poll_failures st) (HSV st) (colour_range st)
    (controller_colours st) (paired_controllers st) (controllers_alive st)
    (usb_paired_controllers st) (start st) (battery st) (battery_pressed st)
    (moves st) (f (move_last_values st)) (running st) (clock st) (ticks st)
    (out st).

Definition set_running (f : bool -> bool) (st : State) : State :=
  mkState (poll_failures st) (HSV st) (colour_range st)
    (controller_colours st) (paired_controllers st) (controllers_alive st)
    (usb_paired_controllers st) (start st) (battery st) (battery_pressed st)
    (moves st) (move_last_values st) (f (running st)) (clock st) (ticks st)
    (out st).

Definition set_clock (f : list float -> list float) (st : State) : State :=
  mkState (poll_failures st) (HSV st) (colour_range st)
    (controller_colours st) (paired_controllers st) (controllers_alive st)
    (usb_paired_controllers st) (start st) (battery st) (battery_pressed st)
    (moves st) (move_last_values st) (running st) (f (clock st)) (ticks st)
    (out st).

Definition set_ticks (f : list Tick -> list Tick) (st : State) : State :=
  mkState (poll_failures st) (HSV st) (colour_range st)
    (controller_colours st) (paired_controllers st) (controllers_alive st)
    (usb_paired_controllers st) (start st) (battery st) (battery_pressed st)
    (moves st) (move_last_values st) (running st) (clock st) (f (ticks st))
    (out st).

Definition set_out (f : list Event -> list Event) (st : State) : State :=
  mkState (poll_failures st) (HSV st) (colour_range st)
    (controller_colours st) (paired_controllers st) (controllers_alive st)
    (usb_paired_controllers st) (start st) (battery st) (battery_pressed st)
    (moves st) (move_last_values st) (running st) (clock st) (ticks st)
    (f (out st)).

(** ** Results of a run, and sequencing

    [Starved] is not a behaviour of the program: it says that the
    environment given to the model ([clock] or [ticks]) was used up before
    the loop that reads it came to its end. *)
Inductive result (A : Type) :=
| Done (a : A) (st : State)
| Raised (e : exn) (st : State)
| Starved.
Arguments Done {A} a st.
Arguments Raised {A} e st.
Arguments Starved {A}.

Definition M (A : Type) : Type := State -> result A.

Definition ret {A} (a : A) : M A := fun st => Done a st.

Definition bind {A B} (c : M A) (k : A -> M B) : M B := fun st =>
  match c st with
  | Done a st' => k a st'
  | Raised e st' => Raised e st'
  | Starved => Starved
  end.

Definition raise {A} (e : exn) : M A := fun st => Raised e st.

(** A statement that cannot raise. *)
Definition exec (f : State -> State) : M unit := fun st => Done tt (f st).

Notation "x <- c ;; k" := (bind c (fun x => k))
  (at level 100, c at next level, right associativity).
Notation "c ;;; k" := (bind c (fun _ => k))
  (at level 100, right associativity).

(** A [for] loop without [break] over a list. *)
Fixpoint for_each {A} (body : A -> M unit) (l : list A) : M unit :=
  match l with
  | [] => ret tt
  | x :: l' => body x ;;; for_each body l'
  end.

Definition emit (es : list Event) (st : State) : State :=
  set_out (fun o => o ++ es) st.

(** [time.time()]. *)
Definition time_time : M float := fun st =>
  match clock st with
  | [] => Starved
  | t :: later => Done t (set_clock (fun _ => later) st)
  end.

(** [while time.time() < pause_time: body], for a body that does not read
    the clock: [readings] are the clock values the loop condition sees. *)
Fixpoint while_before (pause_time : float) (body : M unit)
    (readings : list float) : M unit := fun st =>
  match readings with
  | [] => Starved
  | t :: later =>
    if (t <? pause_time)%float then
      match body st with
      | Done _ st' => while_before pause_time body later st'
      | Raised e st' => Raised e st'
      | Starved => Starved
      end
    else Done tt (set_clock (fun _ => later) st)
  end.

Definition while_time_before (pause_time : float) (body : M unit) : M unit :=
  fun st => while_before pause_time body (clock st) st.

(** ** Liveness tracker (lines 8-22) *)

Definition disconnect_move (move : PSMove) : State -> State :=
  emit [EvDisconnect (get_serial move)].

(** [poll_failures] is a [defaultdict(int)]: a missing key reads as [0]. *)
Definition failures (pf : gmap string Z) (serial : string) : Z :=
  default 0 (pf !! serial).

Definition poll_move (ok : bool) (move : PSMove) (st : State) : bool * State :=
  let serial := get_serial move in
  let st := emit [EvPoll serial] st in
  if ok then
    (true, set_poll_failures <[serial := 0]> st)
  else
    let st := set_poll_failures
                (fun pf => <[serial := failures pf serial + 1]> pf) st in
    let st :=
      if 1000 <? failures (poll_failures st) serial then
        disconnect_move move
          (emit [EvPrint ("Disconnecting " +:+ serial +:+ " due to poll failure")] st)
      else st in
    (false, st).

(** ** Palette generator (lines 36-43) *)

(** The dictionary comprehension of line 43: a later entry with the same
    key replaces an earlier one. *)
Definition dict_of {V} (l : list (string * V)) : gmap string V :=
  foldl (fun d kv => <[kv.1 := kv.2]> d) ∅ l.

(** [colour_range[i] for i, move in enumerate(moves)]: the two lists have
    the same length when line 43 runs, so [zip] pairs what the indices
    pair. *)
Definition regenerate_colours : M unit := fun st =>
  let n := length (moves st) in
  let st := set_HSV (fun _ => hsv_range n (Z.of_nat n) (NInt 1) (NInt 1)) st in
  match rgb_range (HSV st) with
  | inl e => Raised e st
  | inr cr =>
    let st := set_colour_range (fun _ => cr) st in
    Done tt (set_controller_colours
               (fun _ => dict_of (zip (get_serial <$> moves st) (colour_range st))) st)
  end.

(** ** [sleep_controllers] (lines 46-53) *)

(** The four calls of lines 50-53 on one device. *)
Definition drive_events (leds : Z * Z * Z) (rumble : Z) (othermove : PSMove)
    : list Event :=
  let serial := get_serial othermove in
  let '(r, g, b) := leds in
  [EvPoll serial; EvSetRumble serial rumble; EvSetLeds serial r g b;
   EvUpdateLeds serial].

Definition drive (leds : Z * Z * Z) (rumble : Z) (othermove : PSMove) : M unit :=
  exec (emit (drive_events leds rumble othermove)).

Definition sleep_controllers (sleep : float) (leds : Z * Z * Z) (rumble : Z)
    (moves : list PSMove) : M unit :=
  now <- time_time ;;
  let pause_time := (now + sleep)%float in
  while_time_before pause_time (for_each (drive leds rumble) moves).

(** ** Motion classifier (the tests of lines 214-231) *)

Inductive Verdict := Alive | Warning | Eliminated | NoSample.

Definition change (baseline total : float) : float :=
  PrimFloat.abs (baseline - total)%float.

Definition classify (baseline total : float) : Verdict :=
  if (0.7 <? change baseline total)%float then Eliminated
  else if (0.2 <? change baseline total)%float then Warning
  else Alive.

(** [if serial in move_last_values] (line 214) around the classification. *)
Definition motion_verdict (last : option float) (total : float) : Verdict :=
  match last with
  | None => NoSample
  | Some baseline => classify baseline total
  end.

(** [sum([ax, ay, az])]: Python's [sum] starts from the integer [0]. *)
Definition sample_total (frame : float * float * float) : float :=
  let '(ax, ay, az) := frame in (0 + ax + ay + az)%float.

Section Program.

(** Python 2 gives no order to the items of a dictionary: the order in
    which [controllers_alive.items()] and [.values()] list them is a
    parameter of the model. *)
Variable dict_items : gmap string PSMove -> list (string * PSMove).

Definition dict_values (d : gmap string PSMove) : list PSMove :=
  snd <$> dict_items d.

Definition gets {A} (f : State -> A) : M A := fun st => Done (f st) st.

(** ** The lobby (lines 60-144) *)

Definition battery_leds (level : Z) : Z * Z * Z :=
  if level =? 5 then (0, 255, 0)
  else if level =? 4 then (128, 200, 0)
  else if level =? 3 then (255, 255, 0)
  else (255, 0, 0).

(** Lines 93-130, for a device that answered the poll. *)
Definition lobby_polled (rd : Reading) (move : PSMove) (st : State) : State :=
  let serial := get_serial move in
  let st :=
    if bool_decide (serial ∉ dom (controllers_alive st)) then
      if 100 <? get_trigger rd then set_controllers_alive <[serial := move]> st
      else st
    else st in
  let st :=
    if bool_decide (serial ∈ dom (controllers_alive st))
    then emit [EvSetLeds serial 255 255 255] st
    else emit [EvSetLeds serial 0 0 0] st in
  let st := if get_buttons rd =? 2048 then set_start (fun _ => true) st else st in
  let st :=
    if get_buttons rd =? 32
    then set_battery (fun _ => true) (set_battery_pressed (fun _ => true) st)
    else st in
  let st :=
    if battery st then
      let '(r, g, b) := battery_leds (get_battery rd) in
      emit [EvSetLeds serial r g b] st
    else st in
  let st := emit [EvSetRumble serial 0; EvUpdateLeds serial] st in
  if get_buttons rd =? 256 then disconnect_move move st else st.

(** The body of [for move in moves] after the initialisation test
    (lines 72-130); the two [continue] are the first two branches. *)
Definition lobby_move (rd : Reading) (move : PSMove) (st : State) : State :=
  let serial := get_serial move in
  match connection_type move with
  | Conn_USB =>
    if bool_decide (serial ∉ usb_paired_controllers st) then
      emit [EvPair serial; EvPrint (serial +:+ " connected over USB");
            EvSetLeds serial 255 255 255; EvUpdateLeds serial]
        (set_usb_paired_controllers (fun l => l ++ [serial]) st)
    else
      let '(ok, st) := poll_move (poll rd) move st in
      if ok then lobby_polled rd move st else st
  | Conn_Bluetooth =>
    if bool_decide (serial ∉ paired_controllers st) then
      emit [EvPair serial; EvPrint (serial +:+ "connected over bluetooth");
            EvSetLeds serial 255 255 255; EvUpdateLeds serial]
        (set_paired_controllers (fun l => l ++ [serial]) st)
    else
      let '(ok, st) := poll_move (poll rd) move st in
      if ok then lobby_polled rd move st else st
  | Conn_Unknown =>
    let '(ok, st) := poll_move (poll rd) move st in
    if ok then lobby_polled rd move st else st
  end.

(** [for move in moves] (lines 66-130); the [break] of line 70 leaves the
    loop with [moves = []]. *)
Fixpoint lobby_for (tk : Tick) (l : list PSMove) (st : State) : State :=
  match l with
  | [] => st
  | move :: rest =>
    if this move then lobby_for tk rest (lobby_move (sense tk move) move st)
    else set_moves (fun _ => [])
           (emit [EvPrint "Move initialisation failed, reinitialising"] st)
  end.

(** One iteration of the inner [while True] up to line 137. *)
Definition lobby_tick (tk : Tick) (st : State) : State :=
  let st := set_battery_pressed (fun _ => false) st in
  let st := set_moves (fun _ => connected tk) st in
  let st := lobby_for tk (moves st) st in
  let st :=
    if battery st && negb (battery_pressed st)
    then set_battery (fun _ => false) st else st in
  if bool_decide (length (connected_after tk) ≠ length (moves st))
  then set_moves (fun _ => connected_after tk) st
  else st.

(** The two [break] tests of lines 140-144. *)
Definition lobby_exit (st : State) : bool :=
  let joined := size (controllers_alive st) in
  (Nat.eqb joined (length (moves st)) && Nat.ltb 0 joined)
  || (Nat.leb 2 joined && start st).

Fixpoint lobby_while (env : list Tick) : M unit := fun st =>
  match env with
  | [] => Starved
  | tk :: later =>
    let st := lobby_tick tk (set_ticks (fun _ => later) st) in
    if lobby_exit st then Done tt st else lobby_while later st
  end.

Definition lobby : M unit := fun st =>
  let st := set_start (fun _ => false) st in
  let st := set_battery (fun _ => false) st in
  let st := set_battery_pressed (fun _ => false) st in
  lobby_while (ticks st) st.

(** ** Round start (lines 146-168) *)

(** [controller_colours[move.get_serial()]]. *)
Definition palette_colour (move : PSMove) : M (list Z) := fun st =>
  match controller_colours st !! get_serial move with
  | Some colour => Done colour st
  | None => Raised (KeyError (get_serial move)) st
  end.

(** [move.set_leds( *colour )]: the call takes three arguments. *)
Definition set_leds_star (move : PSMove) (colour : list Z) : M unit :=
  match colour with
  | [r; g; b] => exec (emit [EvSetLeds (get_serial move) r g b])
  | _ => raise TypeError
  end.

Definition intro : M unit :=
  alive <- gets (fun st => dict_values (controllers_alive st)) ;;
  sleep_controllers 0.5 (255, 255, 255) 0 alive ;;;
  sleep_controllers 0.3 (255, 255, 255) 100 alive ;;;
  sleep_controllers 0.75 (50, 0, 0) 0 alive ;;;
  sleep_controllers 0.75 (50, 75, 0) 0 alive ;;;
  sleep_controllers 0.75 (0, 50, 0) 0 alive.

Definition individual_colours : M unit :=
  items <- gets (fun st => dict_items (controllers_alive st)) ;;
  for_each (fun item : string * PSMove =>
              colour <- palette_colour item.2 ;; set_leds_star item.2 colour)
           items.

Definition round_start : M unit :=
  exec (emit [EvPrint "GAME START"]) ;;;
  regenerate_colours ;;;
  intro ;;;
  individual_colours ;;;
  exec (set_move_last_values (fun _ => ∅)) ;;;
  exec (set_running (fun _ => true)).

(** ** The active loop (lines 169-249) *)

(** [del d[key]]. *)
Definition del_alive (serial : string) : M unit := fun st =>
  match controllers_alive st !! serial with
  | Some _ => Done tt (set_controllers_alive (delete serial) st)
  | None => Raised (KeyError serial) st
  end.

(** [[int(v*0.3) for v in colour]] (line 225). *)
Fixpoint scaled (colour : list Z) : exn + list Z :=
  match colour with
  | [] => inr []
  | v :: colour' =>
    match py_int (py_float v * 0.3)%float with
    | inl e => inl e
    | inr z =>
      match scaled colour' with
      | inl e => inl e
      | inr zs => inr (z :: zs)
      end
    end
  end.

(** Lines 184-186 and 199-201 on one device. *)
Definition dark_events (othermove : PSMove) : list Event :=
  let other := get_serial othermove in
  [EvSetLeds other 0 0 0; EvPoll other; EvUpdateLeds other].

Definition buzz_events (othermove : PSMove) : list Event :=
  let other := get_serial othermove in
  [EvSetRumble other 100; EvPoll other; EvUpdateLeds other].

(** One step of the win animation (lines 190-203). *)
Definition win_step (move : PSMove) : M unit :=
  let serial := get_serial move in
  range <- gets colour_range ;;
  match range with
  | [] => raise IndexError
  | first :: others =>
    set_leds_star move first ;;;
    exec (emit [EvSetRumble serial 100; EvPoll serial; EvUpdateLeds serial]) ;;;
    exec (set_colour_range (fun _ => others ++ [first])) ;;;
    roster <- gets moves ;;
    for_each (fun othermove => exec (emit (buzz_events othermove))) roster ;;;
    exec (emit [EvSleep 0.01])
  end.

(** The win animation and reset (lines 173-207); [serial] is the loop
    variable, printed before line 179 assigns it again. *)
Definition win (serial : string) : M unit :=
  exec (emit [EvPrint ("WIN " +:+ serial)]) ;;;
  exec (set_HSV (fun _ => hsv_range 50 50 (NFloat 0.9) (NInt 1))) ;;;
  hsv <- gets HSV ;;
  match rgb_range hsv with
  | inl e => raise e
  | inr range =>
    exec (set_colour_range (fun _ => range)) ;;;
    items <- gets (fun st => dict_items (controllers_alive st)) ;;
    match items with
    | [] => raise IndexError
    | (serial, move) :: _ =>
      now <- time_time ;;
      let pause_time := (now + 3)%float in
      roster <- gets moves ;;
      for_each (fun othermove => exec (emit (dark_events othermove))) roster ;;;
      while_time_before pause_time (win_step move) ;;;
      exec (set_running (fun _ => false)) ;;;
      exec (set_controllers_alive (fun _ => ∅))
    end
  end.

(** What the verdict does to the device and to the contestants
    (lines 216-231). *)
Definition react (verdict : Verdict) (serial : string) (move : PSMove) : M unit :=
  match verdict with
  | Eliminated =>
    exec (emit [EvPrint ("DEAD " +:+ serial);
                EvSetLeds (get_serial move) 0 0 0;
                EvSetRumble (get_serial move) 100]) ;;;
    del_alive serial
  | Warning =>
    colour <- palette_colour move ;;
    match scaled colour with
    | inl e => raise e
    | inr dimmed => set_leds_star move dimmed
    end
  | Alive =>
    colour <- palette_colour move ;;
    set_leds_star move colour ;;;
    exec (emit [EvSetRumble (get_serial move) 0])
  | NoSample => ret tt
  end.

(** "Update each move state" (lines 210-234). *)
Definition update_move (rd : Reading) (serial : string) (move : PSMove) : M unit :=
  fun st =>
  let '(ok, st) := poll_move (poll rd) move st in
  if ok then
    let total := sample_total (get_accelerometer_frame rd) in
    (react (motion_verdict (move_last_values st !! serial) total) serial move ;;;
     exec (emit [EvUpdateLeds (get_serial move)]) ;;;
     exec (set_move_last_values <[serial := total]>)) st
  else Done tt st.

(** [for serial, move in list(controllers_alive.items())] (lines 170-234)
    over the snapshot [items]; the [break] of line 207 ends it. *)
Fixpoint round_for (tk : Tick) (items : list (string * PSMove)) : M unit :=
  fun st =>
  match items with
  | [] => Done tt st
  | (serial, move) :: rest =>
    if Nat.eqb (size (controllers_alive st)) 1 then win serial st
    else (update_move (sense tk move) serial move ;;; round_for tk rest) st
  end.

(** Lines 243-245, over the items the dictionary had at line 243. *)
Definition drop_vanished (available : list string) : M unit :=
  items <- gets (fun st => dict_items (controllers_alive st)) ;;
  for_each (fun item : string * PSMove =>
              if bool_decide (item.1 ∉ available) then del_alive item.1
              else ret tt)
           items.

(** Lines 236-249. *)
Definition reconcile (tk : Tick) : M unit :=
  still <- gets running ;;
  if still then
    roster <- gets moves ;;
    (if bool_decide (length (connected_after tk) ≠ length roster) then
       exec (set_moves (fun _ => connected_after tk)) ;;;
       roster <- gets moves ;;
       drop_vanished (get_serial <$> roster)
     else ret tt) ;;;
    roster <- gets moves ;;
    if Nat.eqb (length roster) 0 then exec (set_running (fun _ => false))
    else ret tt
  else ret tt.

(** One iteration of [while running]. *)
Definition round_pass (tk : Tick) : M unit :=
  items <- gets (fun st => dict_items (controllers_alive st)) ;;
  round_for tk items ;;;
  reconcile tk.

Fixpoint round_while (env : list Tick) : M unit := fun st =>
  if running st then
    match env with
    | [] => Starved
    | tk :: later =>
      match round_pass tk (set_ticks (fun _ => later) st) with
      | Done _ st' => round_while later st'
      | Raised e st' => Raised e st'
      | Starved => Starved
      end
    end
  else Done tt st.

Definition round : M unit :=
  round_start ;;;
  env <- gets ticks ;;
  round_while env.

(** One iteration of the outer [while True]. *)
Definition game : M unit := lobby ;;; round.

End Program.

(** The state when the script starts (lines 11, 36-37, 56-58). *)
Definition initial (clk : list float) (env : list Tick) : State :=
  mkState ∅ [] [] ∅ [] ∅ [] false false false [] ∅ false clk env [].

(** ** Scenarios used by the statements below *)

(** [count p tr]: how many events of the trace [tr] satisfy [p]. *)
Fixpoint count (p : Event -> bool) (tr : list Event) : nat :=
  match tr with
  | [] => 0%nat
  | e :: tr' => ((if p e then 1 else 0) + count p tr')%nat
  end.

Definition is_disconnect (serial : string) (e : Event) : bool :=
  match e with
  | EvDisconnect s => String.eqb s serial
  | _ => false
  end.

(** [n] calls of [poll_move(move)] in a row, each with a failing poll. *)
Fixpoint failed_polls (n : nat) (move : PSMove) (st : State) : State :=
  match n with
  | O => st
  | S n' => failed_polls n' move (poll_move false move st).2
  end.

(** [n] runs of a loop body in a row. *)
Fixpoint times (n : nat) (body : M unit) : M unit :=
  match n with
  | O => ret tt
  | S n' => body ;;; times n' body
  end.

(** What [n] iterations of the loop of [sleep_controllers] send. *)
Definition phase_trace (leds : Z * Z * Z) (rumble : Z) (alive : list PSMove)
    (n : nat) : list Event :=
  concat (replicate n (flat_map (drive_events leds rumble) alive)).

(** A Bluetooth controller, and what a controller can answer in a tick. *)
Definition pad (serial : string) : PSMove :=
  {| this := true; connection_type := Conn_Bluetooth; get_serial := serial |}.

Definition answer (ok : bool) (trigger buttons : Z)
    (frame : float * float * float) : Reading :=
  {| poll := ok; get_trigger := trigger; get_buttons := buttons;
     get_battery := 5; get_accelerometer_frame := frame |}.

Definition still : Reading := answer true 0 0 (0, 0, 0)%float.
Definition pulling : Reading := answer true 200 0 (0, 0, 0)%float.

(** A tick in which the roster does not change; the device [who] answers
    [rd], every other device rests. *)
Definition tick_of (roster : list PSMove) (who : list string) (rd : Reading)
    : Tick :=
  {| connected := roster;
     sense := fun move =>
       if bool_decide (get_serial move ∈ who) then rd else still;
     connected_after := roster |}.

(** The exit condition in the words of the specification: every connected
    device has joined and there is at least one, or at least two have
    joined and the early-start flag is set. *)
Definition everyone_in (st : State) : Prop :=
  moves st <> []
  /\ forall move, move ∈ moves st -> get_serial move ∈ dom (controllers_alive st).

Definition exit_as_specified (st : State) : Prop :=
  everyone_in st \/ (2 <= size (controllers_alive st))%nat /\ start st = true.

(** Two controllers get paired; "A" pulls the trigger while "B" does not;
    then "A" is gone from the enumeration and "B" still has not joined. *)
Definition env_joined_then_gone : list Tick :=
  [tick_of [pad "A"; pad "B"] [] still;
   tick_of [pad "A"; pad "B"] ["A"] pulling;
   tick_of [pad "B"] [] still].

(** Three paired controllers of which two have joined, then the third
    joins too. *)
Definition env_third_joins : list Tick :=
  [tick_of [pad "A"; pad "B"; pad "C"] [] still;
   tick_of [pad "A"; pad "B"; pad "C"] ["A"; "B"] pulling;
   tick_of [pad "A"; pad "B"; pad "C"] ["C"] pulling].

(** The ticks of the lobby, one after the other, without the exit test. *)
Definition lobby_ticks (env : list Tick) (st : State) : State :=
  foldl (fun st tk => lobby_tick tk st) st env.

(** [elapses span clk rest n]: on the clock [clk], a wait that reads the
    time, adds [span] seconds and loops while the time read is before that
    deadline goes through its loop body [n] times and leaves the clock
    [rest]. *)
Definition elapses (span : float) (clk rest : list float) (n : nat) : Prop :=
  exists now before after,
    clk = now :: before ++ after :: rest
    /\ length before = n
    /\ Forall (fun t => (t <? now + span)%float = true) before
    /\ (after <? now + span)%float = false.

(** The 50 colours of the win animation (lines 176-177). *)
Definition rainbow : list (list Z) :=
  Eval vm_compute in
    match rgb_range (hsv_range 50 50 (NFloat 0.9) (NInt 1)) with
    | inr range => range
    | inl _ => []
    end.

(** What step [j] of the win animation sends, and what [n] steps send:
    step [j] shows colour [j mod 50] of the range. *)
Definition led_events (move : PSMove) (colour : list Z) : list Event :=
  match colour with
  | [r; g; b] => [EvSetLeds (get_serial move) r g b]
  | _ => []
  end.

Definition win_step_events (move : PSMove) (roster : list PSMove)
    (colour : list Z) : list Event :=
  led_events move colour
  ++ [EvSetRumble (get_serial move) 100; EvPoll (get_serial move);
      EvUpdateLeds (get_serial move)]
  ++ flat_map buzz_events roster
  ++ [EvSleep 0.01].

Definition win_trace (move : PSMove) (roster : list PSMove)
    (range : list (list Z)) (n : nat) : list Event :=
  flat_map (fun j => win_step_events move roster
                       (default [] (range !! (j mod length range)%nat)))
           (seq 0 n).

(** A clock on which each of the five phases of the round start goes
    through its loop once. *)
Definition clock_five_phases : list float :=
  [0; 0.1; 0.6; 1; 1.1; 1.4; 2; 2.1; 3; 3; 3.1; 4; 4; 4.1; 5]%float.

(** What the five phases send to the devices [alive], with [n1] to [n5]
    loop iterations. *)
Definition intro_trace (alive : list PSMove) (n1 n2 n3 n4 n5 : nat)
    : list Event :=
  phase_trace (255, 255, 255) 0 alive n1
  ++ phase_trace (255, 255, 255) 100 alive n2
  ++ phase_trace (50, 0, 0) 0 alive n3
  ++ phase_trace (50, 75, 0) 0 alive n4
  ++ phase_trace (0, 50, 0) 0 alive n5.

(** The colour range after [n] steps of the win animation (each step moves
    the first colour to the end, line 195), and what the steps send. *)
Fixpoint rotated (n : nat) (range : list (list Z)) : list (list Z) :=
  match n, range with
  | S n', first :: others => rotated n' (others ++ [first])
  | _, _ => range
  end.

Fixpoint win_steps (move : PSMove) (roster : list PSMove)
    (range : list (list Z)) (n : nat) : list Event :=
  match n, range with
  | S n', first :: others =>
    win_step_events move roster first
    ++ win_steps move roster (others ++ [first]) n'
  | _, _ => []
  end.

(** The state the win animation leaves: [serial] is printed, [move] is the
    survivor, [n] steps were shown and the clock is [rest]. *)
Definition after_win (serial : string) (move : PSMove) (rest : list float)
    (n : nat) (st : State) : State :=
  set_controllers_alive (fun _ => ∅)
    (set_running (fun _ => false)
      (set_clock (fun _ => rest)
        (set_colour_range (fun _ => rotated n rainbow)
          (set_HSV (fun _ => hsv_range 50 50 (NFloat 0.9) (NInt 1))
            (emit (EvPrint ("WIN " +:+ serial)
                   :: flat_map dark_events (moves st)
                   ++ win_trace move (moves st) rainbow n) st))))).

(** "Every contestant whose identifier is no longer among the connected
    devices is removed", as a property of the state after a pass. *)
Definition reconciled (tk : Tick) (st : State) : Prop :=
  forall serial, serial ∈ dom (controllers_alive st) ->
                 serial ∈ get_serial <$> connected_after tk.

(** "A" and "B" get paired and both join; in the first pass of the round
    "B" is gone and a controller "D" has appeared, so that the number of
    connected devices is the same. *)
Definition env_both_join : list Tick :=
  [tick_of [pad "A"; pad "B"] [] still;
   tick_of [pad "A"; pad "B"] ["A"; "B"] pulling].

Definition tick_swapped : Tick :=
  {| connected := [pad "A"; pad "D"];
     sense := fun _ => still;
     connected_after := [pad "A"; pad "D"] |}.

(** A running round in which every device of [roster] is a contestant,
    on the clock [clk]. *)
Definition playing (roster : list PSMove) (clk : list float) : State :=
  set_running (fun _ => true)
    (set_controllers_alive
       (fun _ => dict_of ((fun move => (get_serial move, move)) <$> roster))
       (set_moves (fun _ => roster) (initial clk []))).

(** A tick of the round after which only "A" is connected. *)
Definition tick_one_left : Tick :=
  {| connected := [pad "A"];
     sense := fun _ => still;
     connected_after := [pad "A"] |}.

(** A round in which "A" has the baseline [1.0] and the palette colour
    red, and an answer whose sample sums to [1.9]. *)
Definition sampling : State :=
  set_move_last_values (fun _ => {["A" := 1%float]})
    (set_controller_colours (fun _ => {["A" := [255; 0; 0]]})
       (playing [pad "A"; pad "B"] [])).

Definition jolt : Reading := answer true 0 0 (1.9, 0, 0)%float.

(** The palette of the specification ("hue_i = i/N over the contestant
    count"), as a property of the state after the round start: every
    contestant has the colour of one of the hues [i/N], [N] the number of
    contestants. *)
Definition hues_over_contestants (st : State) : Prop :=
  let n := size (controllers_alive st) in
  forall serial, serial ∈ dom (controllers_alive st) ->
    exists (i : nat) colour,
      (i < n)%nat
      /\ controller_colours st !! serial = Some colour
      /\ rgb_of_hsv (hue (Z.of_nat i) (Z.of_nat n), NInt 1, NInt 1)
         = inr colour.

(** Three controllers get paired; "A" and "B" pull the trigger and press
    START (button mask 2048) while "C" does nothing. *)
Definition env_early_start : list Tick :=
  [tick_of [pad "A"; pad "B"; pad "C"] [] still;
   tick_of [pad "A"; pad "B"; pad "C"] ["A"; "B"]
     (answer true 200 2048 (0, 0, 0)%float)].

(** The place of a fully saturated colour on the hue circle (six sectors
    of 255 steps), and a test that the colours of a range follow each
    other on the circle. *)
Definition hue_key (colour : list Z) : Z :=
  match colour with
  | [r; g; b] =>
    if (r =? 255) && (b =? 0) && (g <? 255) then g
    else if (g =? 255) && (b =? 0) then 255 + (255 - r)
    else if (r =? 0) && (g =? 255) then 510 + b
    else if (r =? 0) && (b =? 255) then 765 + (255 - g)
    else if (g =? 0) && (b =? 255) then 1020 + r
    else if (r =? 255) && (g =? 0) then 1275 + (255 - b)
    else -1
  | _ => -1
  end.

Fixpoint increasing (prev : Z) (l : list Z) : bool :=
  match l with
  | [] => true
  | x :: l' => (prev <? x) && increasing x l'
  end.

Definition palette_distinct (n : nat) : bool :=
  match rgb_range (hsv_range n (Z.of_nat n) (NInt 1) (NInt 1)) with
  | inr range => increasing (-1) (hue_key <$> range)
  | inl _ => false
  end.

(** The largest roster size for which the colours are pairwise distinct
    (a roster of 1021 devices has two devices of one colour). *)
Definition palette_bound : nat := 1020.

(** [c] does not touch the palette. *)
Definition keeps_palette {A} (c : M A) : Prop :=
  forall st a st', c st = Done a st' ->
                   controller_colours st' = controller_colours st.

(** Magnitudes of binary64 values: [small K x] says that the value [x] is
    finite and below [2 ^ K] in absolute value ([within] for a primitive
    float, [within_b] as a test). *)
Definition small (K : Z) (x : spec_float) : Prop :=
  match x with
  | S754_zero _ => True
  | S754_finite _ m e => Zpos (digits2_pos m) + e <= K
  | _ => False
  end.

Definition within (K : Z) (x : float) : Prop := small K (Prim2SF x).

Definition within_b (K : Z) (x : float) : bool :=
  match Prim2SF x with
  | S754_zero _ => true
  | S754_finite _ m e => Zpos (digits2_pos m) + e <=? K
  | _ => false
  end.

(** [int(v*0.3)] returns for the LED value [n]. *)
Definition scales (n : nat) : bool :=
  match py_int (py_float (Z.of_nat n) * 0.3)%float with
  | inr _ => true
  | inl _ => false
  end.

(** ** Definitions for the further properties *)

Definition is_pair (serial : string) (e : Event) : bool :=
  match e with
  | EvPair s => String.eqb s serial
  | _ => false
  end.

(** The events of a first sight of a device (lines 76-80 and 86-90). *)
Definition pairing_events (serial msg : string) : list Event :=
  [EvPair serial; EvPrint (serial +:+ msg);
   EvSetLeds serial 255 255 255; EvUpdateLeds serial].

(** [pairs_recorded st]: no serial is twice in a list of paired
    controllers, and the trace holds one [pair()] call for each entry. *)
Definition pairs_recorded (st : State) : Prop :=
  NoDup (paired_controllers st)
  /\ NoDup (usb_paired_controllers st)
  /\ forall serial,
       count (is_pair serial) (out st)
       = ((if bool_decide (serial ∈ paired_controllers st) then 1 else 0)
          + (if bool_decide (serial ∈ usb_paired_controllers st)
             then 1 else 0))%nat.

(** [no_pairing st st']: from [st] to [st'] no controller was paired. *)
Definition no_pairing (st st' : State) : Prop :=
  paired_controllers st' = paired_controllers st
  /\ usb_paired_controllers st' = usb_paired_controllers st
  /\ forall serial,
       count (is_pair serial) (out st') = count (is_pair serial) (out st).

(** [preserves R c]: a run of [c] that returns relates the state before
    to the state after. *)
Definition preserves (R : State -> State -> Prop) {A} (c : M A) : Prop :=
  forall st a st', c st = Done a st' -> R st st'.

(** An event that is not a [pair()] call. *)
Definition not_pair (e : Event) : bool :=
  match e with
  | EvPair _ => false
  | _ => true
  end.

(** [round_footprint st st']: what a round may have done to the state of
    the lobby: contestants removed, nothing else. *)
Definition round_footprint (st st' : State) : Prop :=
  controllers_alive st' ⊆ controllers_alive st
  /\ no_pairing st st'
  /\ start st' = start st
  /\ battery st' = battery st
  /\ battery_pressed st' = battery_pressed st.

(** [joined_by_serial st]: every contestant is stored under the serial of
    its device object, and was paired before it joined if it is connected
    over Bluetooth or USB. *)
Definition joined_by_serial (st : State) : Prop :=
  forall serial move,
    controllers_alive st !! serial = Some move ->
    get_serial move = serial
    /\ (connection_type move = Conn_Bluetooth ->
        serial ∈ paired_controllers st)
    /\ (connection_type move = Conn_USB ->
        serial ∈ usb_paired_controllers st).

(** [is_polled rd move st]: the device pass of the lobby reaches line 93
    for [move] and the poll succeeds. *)
Definition is_polled (rd : Reading) (move : PSMove) (st : State) : bool :=
  poll rd
  && match connection_type move with
     | Conn_USB => bool_decide (get_serial move ∈ usb_paired_controllers st)
     | Conn_Bluetooth => bool_decide (get_serial move ∈ paired_controllers st)
     | Conn_Unknown => true
     end.

(** A paired controller "A" presses START on its own; in the next tick
    "A" and a second paired controller "B" pull the trigger while a third
    controller is connected and has not joined. *)
Definition env_start_first : list Tick :=
  [tick_of [pad "A"; pad "B"; pad "C"] [] still;
   tick_of [pad "A"; pad "B"; pad "C"] ["A"]
     (answer true 0 2048 (0, 0, 0)%float)].

(** A device whose initialisation failed, and a tick in which it is
    enumerated between two controllers. *)
Definition unready (serial : string) : PSMove :=
  {| this := false; connection_type := Conn_Unknown; get_serial := serial |}.

Definition tick_init_failure : Tick :=
  {| connected := [pad "A"; unready "X"; pad "B"];
     sense := fun _ => pulling;
     connected_after := [pad "A"; pad "B"] |}.

(** [pending items st]: the part [items] of the snapshot of line 170 that
    the pass has not reached yet lists contestants of [st], each once. *)
Definition pending (items : list (string * PSMove)) (st : State) : Prop :=
  NoDup items.*1
  /\ forall key move, (key, move) ∈ items ->
                      controllers_alive st !! key = Some move.

(** What [update_move] does for the sample sum of a contestant without a
    stored baseline. *)
Definition first_sample (rd : Reading) (serial : string) (move : PSMove)
    (st : State) : State :=
  if poll rd then
    set_move_last_values
      <[serial := sample_total (get_accelerometer_frame rd)]>
      (emit [EvUpdateLeds (get_serial move)] (poll_move true move st).2)
  else (poll_move false move st).2.

(** [same_roster st st']: the contestants and the roster are the same. *)
Definition same_roster (st st' : State) : Prop :=
  controllers_alive st' = controllers_alive st /\ moves st' = moves st.

(** A tick of a round in which "A" and "B" are connected and both report
    a jolt; the round [sampling] on the clock [clk]; and a tick after
    which a controller "C" is the only connected device. *)
Definition tick_jolted : Tick :=
  {| connected := [pad "A"; pad "B"];
     sense := fun _ => jolt;
     connected_after := [pad "A"; pad "B"] |}.

Definition sampling_on (clk : list float) : State :=
  set_clock (fun _ => clk) sampling.

Definition tick_strangers : Tick :=
  {| connected := [pad "A"; pad "B"];
     sense := fun _ => still;
     connected_after := [pad "C"] |}.

(** [dims n]: [int(v*0.3)] is three tenths of the LED value [n], rounded
    down. *)
Definition dims (n : nat) : bool :=
  match py_int (py_float (Z.of_nat n) * 0.3)%float with
  | inr z => z =? 3 * Z.of_nat n / 10
  | inl _ => false
  end.

(** A fully saturated LED colour: three values from 0 to 255, one of them
    255 and one of them 0. *)
Definition leds_ok (colour : list Z) : bool :=
  match colour with
  | [r; g; b] =>
    forallb (fun v => (0 <=? v) && (v <=? 255)) colour
    && existsb (Z.eqb 255) colour && existsb (Z.eqb 0) colour
  | _ => false
  end.

Definition palette_leds (n : nat) : bool :=
  match rgb_range (hsv_range n (Z.of_nat n) (NInt 1) (NInt 1)) with
  | inr range => forallb leds_ok range
  | inl _ => false
  end.

(** [round_kept st st']: the roster, the contestants, the palette and the
    flag [running] are the same. *)
Definition round_kept (st st' : State) : Prop :=
  moves st' = moves st
  /\ controllers_alive st' = controllers_alive st
  /\ controller_colours st' = controller_colours st
  /\ running st' = running st.

(** A game of one controller: "A" is paired, joins, and is the only
    contestant of the round; the clock goes through the five phases and
    two steps of the win animation. *)
Definition env_solo : list Tick :=
  [tick_of [pad "A"] [] still;
   tick_of [pad "A"] ["A"] pulling;
   tick_of [pad "A"] [] still].

Definition clock_solo : list float :=
  clock_five_phases ++ [6; 7; 8; 10]%float.

(** A saturation or value of the intended domain of [hsv_to_rgb]: a
    float from 0 to 1, or one of the integers 0 and 1. *)
Definition in_unit (x : num) : Prop :=
  match x with
  | NInt z => 0 <= z <= 1
  | NFloat f => (0 <=? f)%float = true /\ (f <=? 1)%float = true
  end.

(** ** A quick evaluation of the palette

    The colours of a palette are computed a second time with the
    primitive conversion of an integer to a float and with the results
    of [int()] guessed from the bits of the float and checked by two
    comparisons; the properties below show that this gives the colours
    of [rgb_range]. *)

Definition zero63 : PrimInt63.int := Eval vm_compute in Uint63.of_Z 0.
Definition one63 : PrimInt63.int := Eval vm_compute in Uint63.of_Z 1.
Definition shift63 : PrimInt63.int := Eval vm_compute in Uint63.of_Z 2154.

(** The float of a small integer. *)
Definition led_float (k : Z) : float := PrimFloat.of_uint63 (Uint63.of_Z k).

(** The [n] low bits of [i]. *)
Fixpoint small_Z (n : nat) (i : PrimInt63.int) : Z :=
  match n with
  | O => 0
  | S n' =>
    let rest := small_Z n' (PrimInt63.lsr i one63) in
    if PrimInt63.eqb (PrimInt63.land i one63) zero63 then Z.double rest
    else Z.succ_double rest
  end.

(** A guess of [int(x)] for a float from 0 to 255: the mantissa, shifted
    by the exponent. *)
Definition guess_int (x : float) : Z :=
  let '(r, se) := PrimFloat.frshiftexp x in
  small_Z 9 (PrimInt63.lsr (PrimFloat.normfr_mantissa r)
               (PrimInt63.sub shift63 se)).

(** [verified_int x] is [Some k] only if [k <= x < k + 1]. *)
Definition verified_int (x : float) : option Z :=
  let k := guess_int x in
  if (0 <=? k) && (k <=? 255)
     && (led_float k <=? x)%float && (x <? led_float (k + 1))%float
  then Some k else None.

(** The colour of the hue [i/n] at saturation 1 and value 1. *)
Definition fast_colour (n i : Z) : option (list Z) :=
  let h6 := (led_float i * 1 / led_float n * 6)%float in
  match verified_int h6 with
  | None => None
  | Some k =>
    let f := (h6 - led_float k)%float in
    match verified_int (255 * (1 * (1 - 1 * f)))%float with
    | None => None
    | Some q =>
      match verified_int (255 * (1 * (1 - 1 * (1 - f))))%float with
      | None => None
      | Some t =>
        let i6 := k mod 6 in
        if i6 =? 0 then Some [255; t; 0]
        else if i6 =? 1 then Some [q; 255; 0]
        else if i6 =? 2 then Some [0; 255; t]
        else if i6 =? 3 then Some [0; q; 255]
        else if i6 =? 4 then Some [t; 0; 255]
        else if i6 =? 5 then Some [255; 0; q]
        else None
      end
    end
  end.

Fixpoint fast_range (n : Z) (todo : nat) (i : Z) : option (list (list Z)) :=
  match todo with
  | O => Some []
  | S todo' =>
    match fast_colour n i with
    | None => None
    | Some colour =>
      match fast_range n todo' (i + 1) with
      | None => None
      | Some colours => Some (colour :: colours)
      end
    end
  end.

(** The two tests of a palette: the colours follow each other on the hue
    circle, and each is a fully saturated LED colour. *)
Definition fast_palette (n : nat) : bool :=
  match fast_range (Z.of_nat n) n 0 with
  | Some range => increasing (-1) (hue_key <$> range) && forallb leds_ok range
  | None => false
  end.

(** The value of a finite float in units of [2 ^ -1074]. *)
Definition weight (m : positive) (e : Z) : Z := Zpos m * 2 ^ (e + 1074).

(** [led_float k] is the integer [k]. *)
Definition exact_float (n : nat) : bool :=
  match Prim2SF (led_float (Z.of_nat n)) with
  | S754_zero false => Nat.eqb n 0
  | S754_finite false m e =>
    (-1074 <=? e) && (weight m e =? Z.of_nat n * 2 ^ 1074)
  | _ => false
  end.

(** * Properties *)

(** ** Comparisons of binary64 values *)

Lemma SFcompare_swap (x y : spec_float) :
  SFcompare y x = CompOpp <$> SFcompare x y.
Proof.
  destruct x as [sx|sx| |sx mx ex], y as [sy|sy| |sy my ey]; simpl;
    try destruct sx; try destruct sy; try reflexivity.
  - rewrite (Z.compare_antisym ey ex). destruct (ey ?= ex); simpl; try reflexivity.
    rewrite (Pos.compare_cont_antisym mx my Eq). reflexivity.
  - rewrite (Z.compare_antisym ey ex). destruct (ey ?= ex); simpl; try reflexivity.
    rewrite (Pos.compare_cont_antisym mx my Eq). simpl.
    destruct (Pos.compare_cont Eq mx my); reflexivity.
Qed.

Lemma SFltb_leb_trans (x y z : spec_float) :
  SFltb x y = true -> SFleb y z = true -> SFltb x z = true.
Proof.
  unfold SFltb, SFleb.
  destruct x as [sx|sx| |sx mx ex], y as [sy|sy| |sy my ey], z as [sz|sz| |sz mz ez];
    simpl; try destruct sx; try destruct sy; try destruct sz; simpl; try congruence;
    change (Pos.compare_cont Eq) with Pos.compare;
    repeat match goal with
    | |- context [Z.compare ?a ?b] => destruct (Z.compare_spec a b)
    | |- context [Pos.compare ?a ?b] => destruct (Pos.compare_spec a b)
    end; simpl; try congruence; try lia.
Qed.

Lemma float_leb_not_gt (x y : float) :
  (x <=? y)%float = true -> (y <? x)%float = false.
Proof.
  rewrite leb_spec, ltb_spec. unfold SFleb, SFltb.
  rewrite (SFcompare_swap (Prim2SF x) (Prim2SF y)).
  destruct (SFcompare (Prim2SF x) (Prim2SF y)) as [[]|]; simpl; congruence.
Qed.

Lemma float_ltb_leb_trans (x y z : float) :
  (x <? y)%float = true -> (y <=? z)%float = true -> (x <? z)%float = true.
Proof. rewrite !ltb_spec, leb_spec. apply SFltb_leb_trans. Qed.

(** ** Motion classifier *)

Lemma update_move_polled rd serial move st :
  poll rd = true ->
  update_move rd serial move st =
    (react (motion_verdict (move_last_values st !! serial)
                           (sample_total (get_accelerometer_frame rd)))
           serial move ;;;
     exec (emit [EvUpdateLeds (get_serial move)]) ;;;
     exec (set_move_last_values
             <[serial := sample_total (get_accelerometer_frame rd)]>))
      (poll_move true move st).2.
Proof. intros Hok. unfold update_move. rewrite Hok. reflexivity. Qed.

(** C1.  The verdict is a function of the stored sample sum [baseline] and
    the new sample sum [total] alone: with [change = |baseline - total|] it
    is [Eliminated] when [change > 0.7], [Warning] when
    [0.2 < change <= 0.7] and [Alive] when [change <= 0.2]; the three
    sample values of the specification give the three verdicts; and in
    every state that stores [baseline] for a device, the active loop reacts
    to a sample that sums to [total] with the verdict
    [classify baseline total], whatever the rest of the state is. *)
Theorem classify_thresholds (baseline total : float) :
  ((0.7 <? change baseline total)%float = true ->
     classify baseline total = Eliminated)
  /\ ((0.2 <? change baseline total)%float = true ->
      (change baseline total <=? 0.7)%float = true ->
     classify baseline total = Warning)
  /\ ((change baseline total <=? 0.2)%float = true ->
     classify baseline total = Alive)
  /\ classify 1.0 1.9 = Eliminated
  /\ classify 1.0 1.25 = Warning
  /\ classify 1.0 1.05 = Alive
  /\ (forall rd serial move st,
        poll rd = true ->
        move_last_values st !! serial = Some baseline ->
        sample_total (get_accelerometer_frame rd) = total ->
        update_move rd serial move st =
          (react (classify baseline total) serial move ;;;
           exec (emit [EvUpdateLeds (get_serial move)]) ;;;
           exec (set_move_last_values <[serial := total]>))
            (poll_move true move st).2).
Proof.
  split; [|split; [|split; [|split; [|split; [|split]]]]].
  - unfold classify. intros ->. reflexivity.
  - unfold classify. intros Hlo Hhi.
    rewrite (float_leb_not_gt _ _ Hhi), Hlo. reflexivity.
  - unfold classify. intros Hle.
    destruct (0.7 <? change baseline total)%float eqn:Hhi.
    + assert (Hbad : (0.7 <? 0.2)%float = true)
        by (eapply float_ltb_leb_trans; eassumption).
      vm_compute in Hbad. discriminate.
    + rewrite (float_leb_not_gt _ _ Hle). reflexivity.
  - vm_compute. reflexivity.
  - vm_compute. reflexivity.
  - vm_compute. reflexivity.
  - intros rd serial move st Hok Hlast Htotal.
    rewrite (update_move_polled _ _ _ _ Hok), Htotal.
    replace (move_last_values (poll_move true move st).2 !! serial)
      with (Some baseline) by (symmetry; exact Hlast).
    reflexivity.
Qed.

Lemma classify_thresholds_witness :
  classify 1.0 1.25 = Warning /\ classify 1.0 1.05 = Alive
  /\ classify 1.0 1.9 = Eliminated.
Proof.
  split; [|split].
  - apply (proj1 (proj2 (classify_thresholds 1.0 1.25))); vm_compute; reflexivity.
  - apply (proj1 (proj2 (proj2 (classify_thresholds 1.0 1.05)))); vm_compute; reflexivity.
  - apply (proj1 (classify_thresholds 1.0 1.9)); vm_compute; reflexivity.
Defined.

(** ** Liveness tracker *)

Lemma count_app p tr1 tr2 : count p (tr1 ++ tr2) = (count p tr1 + count p tr2)%nat.
Proof. induction tr1 as [|e tr1 IH]; simpl; [reflexivity|]. rewrite IH. lia. Qed.

Lemma poll_move_ok move st :
  poll_move true move st =
    (true, set_poll_failures <[get_serial move := 0]>
             (emit [EvPoll (get_serial move)] st)).
Proof. reflexivity. Qed.

Lemma poll_move_failed move st :
  let serial := get_serial move in
  let n := failures (poll_failures st) serial + 1 in
  (poll_move false move st).1 = false
  /\ poll_failures (poll_move false move st).2 = <[serial := n]> (poll_failures st)
  /\ out (poll_move false move st).2 =
       out st ++ EvPoll serial ::
         (if 1000 <? n
          then [EvPrint ("Disconnecting " +:+ serial +:+ " due to poll failure");
                EvDisconnect serial]
          else []).
Proof.
  intros serial n. unfold poll_move. cbv zeta. fold serial.
  assert (Hn : failures (poll_failures (set_poll_failures
                 (fun pf => <[serial := failures pf serial + 1]> pf)
                 (emit [EvPoll serial] st))) serial = n).
  { cbn. unfold failures at 1. rewrite lookup_insert_eq. reflexivity. }
  rewrite Hn. destruct (1000 <? n); cbn; repeat split.
  rewrite <- !app_assoc. reflexivity.
Qed.

Lemma is_disconnect_self serial : is_disconnect serial (EvDisconnect serial) = true.
Proof. simpl. apply String.eqb_refl. Qed.

Lemma failed_polls_disconnects n : forall move st c,
  failures (poll_failures st) (get_serial move) = c -> 0 <= c ->
  count (is_disconnect (get_serial move)) (out (failed_polls n move st)) =
    (count (is_disconnect (get_serial move)) (out st)
     + Z.to_nat (Z.max 0 (c + Z.of_nat n - 1000) - Z.max 0 (c - 1000)))%nat.
Proof.
  induction n as [|n IH]; intros move st c Hc Hpos.
  - cbn [failed_polls]. replace (c + Z.of_nat 0) with c by lia.
    rewrite Z.sub_diag. cbn. lia.
  - cbn [failed_polls].
    destruct (poll_move_failed move st) as (_ & Hpf & Hout). cbv zeta in Hpf, Hout.
    rewrite (IH move _ (c + 1)).
    + rewrite Hout, Hc, count_app. cbn [count is_disconnect].
      destruct (Z.ltb_spec 1000 (c + 1)) as [Hgt|Hle].
      * cbn [count is_disconnect]. rewrite String.eqb_refl. lia.
      * cbn [count]. lia.
    + rewrite Hpf, Hc. unfold failures. rewrite lookup_insert_eq. reflexivity.
    + lia.
Qed.

(** C3.  [poll_move] returns true and sets the device's failure counter
    to zero when the poll succeeds (issuing no disconnect); when the poll
    fails it returns false, adds one to the counter, and issues the
    disconnect exactly when the new counter exceeds 1000.  So a run of [n]
    failed polls that starts from a zero counter issues [n - 1000]
    disconnects: none for 1000 failures, the first at the 1001st. *)
Theorem poll_move_liveness (move : PSMove) (st : State) :
  let serial := get_serial move in
  let disconnects tr := count (is_disconnect serial) tr in
  ((poll_move true move st).1 = true
   /\ failures (poll_failures (poll_move true move st).2) serial = 0
   /\ disconnects (out (poll_move true move st).2) = disconnects (out st))
  /\ ((poll_move false move st).1 = false
      /\ failures (poll_failures (poll_move false move st).2) serial
         = failures (poll_failures st) serial + 1
      /\ (1000 < failures (poll_failures (poll_move false move st).2) serial ->
          disconnects (out (poll_move false move st).2) = S (disconnects (out st)))
      /\ (failures (poll_failures (poll_move false move st).2) serial <= 1000 ->
          disconnects (out (poll_move false move st).2) = disconnects (out st)))
  /\ (failures (poll_failures st) serial = 0 ->
      (forall n, disconnects (out (failed_polls n move st))
                 = (disconnects (out st) + (n - 1000))%nat)
      /\ disconnects (out (failed_polls 1000 move st)) = disconnects (out st)
      /\ disconnects (out (failed_polls 1001 move st)) = S (disconnects (out st))
      /\ disconnects (out (failed_polls 1001 move st))
         = S (disconnects (out (failed_polls 1000 move st)))).
Proof.
  intros serial disconnects. subst disconnects. cbv beta.
  split; [|split].
  - rewrite poll_move_ok. cbn [fst snd]. split; [reflexivity|]. split.
    + unfold failures. cbn. rewrite lookup_insert_eq. reflexivity.
    + cbn. rewrite count_app. cbn. lia.
  - destruct (poll_move_failed move st) as (Hr & Hpf & Hout). cbv zeta in Hpf, Hout.
    fold serial in Hpf, Hout.
    assert (Hn : failures (poll_failures (poll_move false move st).2) serial
                 = failures (poll_failures st) serial + 1).
    { rewrite Hpf. unfold failures at 1. rewrite lookup_insert_eq. reflexivity. }
    split; [exact Hr|]. split; [exact Hn|]. rewrite Hn, Hout, count_app.
    split; intros Hcmp.
    + apply Z.ltb_lt in Hcmp. rewrite Hcmp. cbn [count is_disconnect].
      unfold serial. rewrite String.eqb_refl. lia.
    + apply Z.ltb_ge in Hcmp. rewrite Hcmp. cbn [count is_disconnect]. lia.
  - intros Hzero.
    assert (Hrun : forall n,
      count (is_disconnect serial) (out (failed_polls n move st))
      = (count (is_disconnect serial) (out st) + (n - 1000))%nat).
    { intros n. unfold serial.
      rewrite (failed_polls_disconnects n move st 0 Hzero) by lia. lia. }
    split; [exact Hrun|]. rewrite !Hrun. lia.
Qed.

Lemma poll_move_liveness_witness :
  count (is_disconnect "A")
    (out (failed_polls 1001 {| this := true; connection_type := Conn_Bluetooth;
                               get_serial := "A" |} (initial [] []))) = 1%nat.
Proof.
  apply (proj1 (proj2 (proj2 (proj2 (proj2
    (poll_move_liveness {| this := true; connection_type := Conn_Bluetooth;
                           get_serial := "A" |} (initial [] []))) eq_refl)))).
Defined.

(** ** Motion baseline *)

Lemma scales_led_values : forallb scales (seq 0 256) = true.
Proof. vm_compute. reflexivity. Qed.

Lemma scale_led (v : Z) :
  0 <= v <= 255 -> exists z, py_int (py_float v * 0.3)%float = inr z.
Proof.
  intros Hv.
  pose proof (proj1 (forallb_forall scales (seq 0 256)) scales_led_values
                (Z.to_nat v)) as Hs.
  unfold scales in Hs. rewrite Z2Nat.id in Hs by lia.
  destruct (py_int (py_float v * 0.3)%float) as [e|z].
  - discriminate Hs. apply in_seq. lia.
  - exists z. reflexivity.
Qed.

Lemma scaled_led_colour (r g b : Z) :
  0 <= r <= 255 -> 0 <= g <= 255 -> 0 <= b <= 255 ->
  exists r' g' b', scaled [r; g; b] = inr [r'; g'; b'].
Proof.
  intros Hr Hg Hb.
  destruct (scale_led r Hr) as [r' Er], (scale_led g Hg) as [g' Eg],
    (scale_led b Hb) as [b' Eb].
  exists r', g', b'. cbn [scaled]. rewrite Er, Eg, Eb. reflexivity.
Qed.

(** Whatever the verdict, [react] returns for a contestant whose palette
    colour is an LED triple, and leaves the baselines alone. *)
Lemma react_returns verdict serial move st r g b :
  controller_colours st !! get_serial move = Some [r; g; b] ->
  0 <= r <= 255 -> 0 <= g <= 255 -> 0 <= b <= 255 ->
  is_Some (controllers_alive st !! serial) ->
  exists st', react verdict serial move st = Done tt st'
              /\ move_last_values st' = move_last_values st.
Proof.
  intros Hpal Hr Hg Hb [m Hm].
  destruct verdict; unfold react, bind, exec, ret, palette_colour, del_alive.
  - rewrite Hpal. cbn. eexists. split; reflexivity.
  - rewrite Hpal.
    destruct (scaled_led_colour r g b Hr Hg Hb) as (r' & g' & b' & Hs).
    rewrite Hs. cbn. eexists. split; reflexivity.
  - cbn. rewrite Hm. eexists. split; reflexivity.
  - eexists. split; reflexivity.
Qed.

(** C2.  Whenever [update_move] obtains a sample (the poll succeeds), it
    stores the sample sum as the device's baseline, whatever the verdict
    (here for a contestant that has an LED triple as palette colour, as
    every contestant has once the round has started); so the next verdict
    compares against this sample.  Without a stored baseline the verdict
    is [NoSample]: nothing but the poll and [update_leds] is sent to the
    device, the contestants stay, and the sample sum becomes the
    baseline.  When the poll fails the baselines stay as they are. *)
Theorem baseline_overwritten (rd : Reading) (serial : string) (move : PSMove)
    (st : State) :
  let total := sample_total (get_accelerometer_frame rd) in
  (poll rd = true ->
   (forall r g b,
      controller_colours st !! get_serial move = Some [r; g; b] ->
      0 <= r <= 255 -> 0 <= g <= 255 -> 0 <= b <= 255 ->
      is_Some (controllers_alive st !! serial) ->
      exists st',
        update_move rd serial move st = Done tt st'
        /\ move_last_values st' = <[serial := total]> (move_last_values st)
        /\ forall next,
             motion_verdict (move_last_values st' !! serial) next
             = classify total next)
   /\ (move_last_values st !! serial = None ->
       motion_verdict (move_last_values st !! serial) total = NoSample
       /\ exists st',
            update_move rd serial move st = Done tt st'
            /\ out st' = out st ++ [EvPoll (get_serial move);
                                    EvUpdateLeds (get_serial move)]
            /\ controllers_alive st' = controllers_alive st
            /\ move_last_values st' = <[serial := total]> (move_last_values st)))
  /\ (poll rd = false ->
      exists st',
        update_move rd serial move st = Done tt st'
        /\ move_last_values st' = move_last_values st).
Proof.
  intros total. split.
  - intros Hok. split.
    + intros r g b Hpal Hr Hg Hb Halive.
      rewrite (update_move_polled _ _ _ _ Hok). fold total.
      destruct (react_returns (motion_verdict (move_last_values st !! serial) total)
                  serial move (poll_move true move st).2 r g b)
        as (st1 & Hreact & Hlast); try assumption.
      unfold bind at 1. rewrite Hreact. unfold bind, exec. eexists.
      split; [reflexivity|]. cbn. rewrite Hlast. cbn. split; [reflexivity|].
      intros next. rewrite lookup_insert_eq. reflexivity.
    + intros Hnone. rewrite Hnone. split; [reflexivity|].
      rewrite (update_move_polled _ _ _ _ Hok), Hnone. fold total.
      unfold bind, exec, react, motion_verdict, ret. eexists.
      split; [reflexivity|]. cbn. rewrite <- app_assoc. repeat split.
  - intros Hfail. unfold update_move. rewrite Hfail.
    destruct (poll_move_failed move st) as (Hr & _ & _).
    assert (Hlast : move_last_values (poll_move false move st).2
                    = move_last_values st).
    { unfold poll_move. cbv zeta. destruct (1000 <? _); reflexivity. }
    destruct (poll_move false move st) as [ok st1]. cbn in Hr, Hlast. subst ok.
    exists st1. split; [reflexivity|exact Hlast].
Qed.

(** ** The lobby *)

Lemma poll_move_alive ok move st :
  controllers_alive (poll_move ok move st).2 = controllers_alive st.
Proof.
  unfold poll_move. cbv zeta. destruct ok; [reflexivity|].
  destruct (1000 <? _); reflexivity.
Qed.

Lemma poll_move_result ok move st : (poll_move ok move st).1 = ok.
Proof. unfold poll_move. cbv zeta. destruct ok; reflexivity. Qed.

Lemma lobby_polled_alive rd move st :
  controllers_alive (lobby_polled rd move st) =
    if bool_decide (get_serial move ∉ dom (controllers_alive st)) then
      if 100 <? get_trigger rd
      then <[get_serial move := move]> (controllers_alive st)
      else controllers_alive st
    else controllers_alive st.
Proof.
  unfold lobby_polled, disconnect_move. cbv zeta.
  repeat match goal with
         | |- context [if ?c then _ else _] => destruct c; cbn
         | |- context [let '(_, _) := ?p in _] => destruct p as [[? ?] ?]; cbn
         end; reflexivity.
Qed.

Lemma lobby_move_alive rd move st :
  controllers_alive (lobby_move rd move st) = controllers_alive st
  \/ (poll rd = true
      /\ controllers_alive (lobby_move rd move st)
         = controllers_alive (lobby_polled rd move (poll_move true move st).2)).
Proof.
  unfold lobby_move. cbv zeta.
  pose proof (poll_move_result (poll rd) move st) as Hres.
  pose proof (poll_move_alive (poll rd) move st) as Halive.
  destruct (poll_move (poll rd) move st) as [ok st1] eqn:Hp.
  cbn in Hres, Halive. subst ok.
  destruct (connection_type move);
    repeat match goal with
           | |- context [if bool_decide ?P then _ else _] =>
               destruct (bool_decide P); cbn; [left; reflexivity|]
           end;
    (destruct (poll rd) eqn:Hok;
     [right; split; [reflexivity|];
      assert (st1 = (poll_move true move st).2) as ->
        by (rewrite Hp; reflexivity); reflexivity
     |left; exact Halive]).
Qed.

Lemma lobby_move_grows rd move st :
  controllers_alive st ⊆ controllers_alive (lobby_move rd move st).
Proof.
  destruct (lobby_move_alive rd move st) as [->|[_ ->]]; [reflexivity|].
  rewrite lobby_polled_alive, poll_move_alive.
  destruct (bool_decide_reflect (get_serial move ∉ dom (controllers_alive st)))
    as [Hnew|_]; [|reflexivity].
  destruct (100 <? get_trigger rd); [|reflexivity].
  apply insert_subseteq, not_elem_of_dom, Hnew.
Qed.

Lemma lobby_move_joins rd move st serial :
  serial ∈ dom (controllers_alive (lobby_move rd move st)) ->
  serial ∉ dom (controllers_alive st) ->
  serial = get_serial move /\ poll rd = true /\ 100 < get_trigger rd.
Proof.
  destruct (lobby_move_alive rd move st) as [->|[Hok ->]]; [tauto|].
  rewrite lobby_polled_alive, poll_move_alive.
  destruct (bool_decide (get_serial move ∉ dom (controllers_alive st)));
    [|tauto].
  destruct (Z.ltb_spec 100 (get_trigger rd)) as [Htrig|_]; [|tauto].
  rewrite dom_insert_L. intros Hin Hout.
  apply elem_of_union in Hin as [Hin|Hin]; [|tauto].
  apply elem_of_singleton in Hin. auto.
Qed.

Lemma lobby_for_grows tk l : forall st,
  controllers_alive st ⊆ controllers_alive (lobby_for tk l st).
Proof.
  induction l as [|move rest IH]; intros st; cbn [lobby_for]; [reflexivity|].
  destruct (this move); [|reflexivity].
  etransitivity; [apply (lobby_move_grows (sense tk move) move)|apply IH].
Qed.

Lemma lobby_tick_alive tk st :
  controllers_alive (lobby_tick tk st)
  = controllers_alive
      (lobby_for tk (connected tk)
         (set_moves (fun _ => connected tk)
            (set_battery_pressed (fun _ => false) st))).
Proof.
  unfold lobby_tick. cbv zeta. cbn [moves set_moves].
  destruct (bool_decide _); destruct (_ && _); reflexivity.
Qed.

Lemma lobby_tick_grows tk st :
  controllers_alive st ⊆ controllers_alive (lobby_tick tk st).
Proof.
  rewrite lobby_tick_alive.
  exact (lobby_for_grows tk (connected tk)
           (set_moves (fun _ => connected tk)
              (set_battery_pressed (fun _ => false) st))).
Qed.

Lemma lobby_while_grows env : forall st st',
  lobby_while env st = Done tt st' ->
  controllers_alive st ⊆ controllers_alive st'.
Proof.
  induction env as [|tk later IH]; intros st st'; cbn [lobby_while];
    [discriminate|].
  pose proof (lobby_tick_grows tk (set_ticks (fun _ => later) st)) as Hgrow.
  destruct (lobby_exit _).
  - intros [= <-]. exact Hgrow.
  - intros Hrun. etransitivity; [exact Hgrow|exact (IH _ _ Hrun)].
Qed.

(** C10.  In the lobby the joined set only grows: one device pass, one
    tick and the whole lobby loop keep every entry of [controllers_alive]
    (whatever the devices answer: a released trigger, a failed poll, the
    select button, a device missing from the roster), and an identifier
    enters the set only as the serial of a device that answered the poll
    with a trigger above 100. *)
Theorem lobby_joined_monotone (tk : Tick) (st : State) :
  (forall move, controllers_alive st
                ⊆ controllers_alive (lobby_move (sense tk move) move st))
  /\ controllers_alive st ⊆ controllers_alive (lobby_tick tk st)
  /\ (forall env st', lobby_while env st = Done tt st' ->
                      controllers_alive st ⊆ controllers_alive st')
  /\ (forall st', lobby st = Done tt st' ->
                  controllers_alive st ⊆ controllers_alive st')
  /\ (forall move serial,
        serial ∈ dom (controllers_alive (lobby_move (sense tk move) move st)) ->
        serial ∉ dom (controllers_alive st) ->
        serial = get_serial move /\ poll (sense tk move) = true
        /\ 100 < get_trigger (sense tk move)).
Proof.
  split; [|split; [|split; [|split]]].
  - intros move. apply lobby_move_grows.
  - apply lobby_tick_grows.
  - intros env st'. apply lobby_while_grows.
  - intros st' Hrun. unfold lobby in Hrun. cbv zeta in Hrun.
    apply lobby_while_grows in Hrun. exact Hrun.
  - intros move serial. apply lobby_move_joins.
Qed.

(** Where no joined device has left the roster and the serials of the
    roster are distinct, the two tests of lines 140-144 are the exit
    condition of the specification. *)
Lemma lobby_exit_consistent (st : State) :
  NoDup (get_serial <$> moves st) ->
  dom (controllers_alive st) ⊆ list_to_set (get_serial <$> moves st) ->
  lobby_exit st = true <-> exit_as_specified st.
Proof.
  intros Hnodup Hsub. unfold lobby_exit, exit_as_specified, everyone_in.
  cbv zeta.
  rewrite orb_true_iff, !andb_true_iff, Nat.eqb_eq, Nat.ltb_lt, Nat.leb_le.
  pose proof (size_list_to_set (C := gset string) _ Hnodup) as Hsize.
  rewrite length_fmap in Hsize.
  rewrite <- (size_dom (D := gset string) (controllers_alive st)).
  split; (intros [Hall|Hearly]; [left|right; exact Hearly]).
  - destruct Hall as [Heq Hpos].
    assert (Hdom : dom (controllers_alive st)
                   = list_to_set (get_serial <$> moves st)).
    { apply set_subseteq_size_eq; [exact Hsub|]. rewrite Hsize. lia. }
    split.
    + intros Hnil. rewrite Hnil in Heq. cbn in Heq. lia.
    + intros move Hin. rewrite Hdom. apply elem_of_list_to_set.
      apply list_elem_of_fmap. exists move. auto.
  - destruct Hall as [Hne Hin].
    assert (Hdom : dom (controllers_alive st)
                   = list_to_set (get_serial <$> moves st)).
    { apply set_eq. intros serial. split; [apply Hsub|].
      rewrite elem_of_list_to_set. intros Hs.
      apply list_elem_of_fmap in Hs as (move & -> & Hm). auto. }
    rewrite Hdom, Hsize. split; [reflexivity|].
    destruct (moves st); [congruence|cbn; lia].
Qed.

Lemma joined_then_gone_state :
  exists st,
    lobby (initial [] env_joined_then_gone) = Done tt st
    /\ moves st = [pad "B"]
    /\ controllers_alive st = {["A" := pad "A"]}
    /\ start st = false.
Proof.
  eexists. split; [vm_compute; reflexivity|].
  split; [reflexivity|]. split; [vm_compute; reflexivity|reflexivity].
Qed.

Lemma third_joins_state :
  exists st,
    lobby_ticks env_third_joins (initial [] []) = st
    /\ moves st = [pad "A"; pad "B"; pad "C"]
    /\ controllers_alive st
       = <["A" := pad "A"]> (<["B" := pad "B"]> {["C" := pad "C"]})
    /\ start st = false.
Proof.
  eexists. split; [vm_compute; reflexivity|].
  split; [reflexivity|]. split; [vm_compute; reflexivity|reflexivity].
Qed.

(** C5, at the failing input.  "A" joins while "B" is connected and has
    not joined, then "A" leaves the roster: the joined count (1) equals
    the roster size (1), so the lobby exits although the only connected
    device has not joined and the early-start flag is not set.  In the
    other direction, with three joined devices of which one has left the
    roster, every connected device has joined and the tests do not fire.
    With a third connected device that has not joined, the lobby stays
    until it joins. *)
Theorem lobby_exit_counts_devices :
  (exists st,
     lobby (initial [] env_joined_then_gone) = Done tt st
     /\ moves st = [pad "B"]
     /\ controllers_alive st = {["A" := pad "A"]}
     /\ start st = false
     /\ lobby_exit st = true
     /\ ~ exit_as_specified st)
  /\ (let st := set_moves (fun _ => [pad "A"; pad "B"])
                  (lobby_ticks env_third_joins (initial [] [])) in
      dom (controllers_alive st) = {["A"; "B"; "C"]}
      /\ start st = false
      /\ lobby_exit st = false
      /\ exit_as_specified st)
  /\ (lobby_exit (lobby_ticks (take 2 env_third_joins) (initial [] [])) = false
      /\ lobby_exit (lobby_ticks env_third_joins (initial [] [])) = true).
Proof.
  split; [|split].
  - destruct joined_then_gone_state as (st & Hrun & Hmoves & Halive & Hstart).
    exists st. repeat (split; [assumption|]). split.
    + unfold lobby_exit. rewrite Hmoves, Halive, map_size_singleton. reflexivity.
    + unfold exit_as_specified, everyone_in.
      rewrite Hmoves, Halive, map_size_singleton, dom_singleton_L.
      intros [[_ Hall]|[Htwo _]]; [|lia].
      specialize (Hall (pad "B") (list_elem_of_here _ _)).
      apply elem_of_singleton in Hall. discriminate Hall.
  - destruct third_joins_state as (st3 & -> & _ & Halive & Hstart).
    cbv zeta. cbn [controllers_alive start set_moves].
    assert (Hdom : dom (controllers_alive st3) = ({["A"; "B"; "C"]} : gset string)).
    { rewrite Halive, !dom_insert_L, dom_singleton_L. set_solver. }
    split; [exact Hdom|]. split; [exact Hstart|]. split.
    + unfold lobby_exit. cbn [controllers_alive start moves set_moves].
      rewrite Halive, Hstart. vm_compute. reflexivity.
    + left. split; [discriminate|]. cbn [moves controllers_alive set_moves].
      rewrite Hdom. clear Halive Hstart Hdom. intros move Hin.
      apply elem_of_cons in Hin as [->|Hin]; [set_solver|].
      apply elem_of_cons in Hin as [->|Hin]; [set_solver|].
      inversion Hin.
  - split; vm_compute; reflexivity.
Qed.

(** ** Sequencing, traces and timed loops *)

Lemma emit_emit es1 es2 st : emit es2 (emit es1 st) = emit (es1 ++ es2) st.
Proof. unfold emit, set_out. cbn. rewrite <- app_assoc. reflexivity. Qed.

Lemma emit_nil st : emit [] st = st.
Proof. destruct st. unfold emit, set_out. cbn. rewrite app_nil_r. reflexivity. Qed.

Lemma clock_emit_twice c es c' es' st :
  set_clock (fun _ => c') (emit es' (set_clock (fun _ => c) (emit es st)))
  = set_clock (fun _ => c') (emit (es ++ es') st).
Proof.
  destruct st. unfold emit, set_out, set_clock. cbn.
  rewrite <- app_assoc. reflexivity.
Qed.

Lemma for_each_emit {A} (f : A -> list Event) (l : list A) : forall st,
  for_each (fun x => exec (emit (f x))) l st = Done tt (emit (flat_map f l) st).
Proof.
  induction l as [|x l IH]; intros st; cbn [for_each flat_map].
  - rewrite emit_nil. reflexivity.
  - unfold bind, exec. rewrite IH, emit_emit. reflexivity.
Qed.

Lemma times_emit (body : M unit) (es : list Event) :
  (forall st, body st = Done tt (emit es st)) ->
  forall n st, times n body st = Done tt (emit (concat (replicate n es)) st).
Proof.
  intros Hbody. induction n as [|n IH]; intros st; cbn [times replicate concat].
  - rewrite emit_nil. reflexivity.
  - unfold bind. rewrite Hbody, IH, emit_emit. reflexivity.
Qed.

Lemma while_before_times pause_time body before after rest : forall st,
  Forall (fun t => (t <? pause_time)%float = true) before ->
  (after <? pause_time)%float = false ->
  while_before pause_time body (before ++ after :: rest) st
  = (times (length before) body ;;; exec (set_clock (fun _ => rest))) st.
Proof.
  induction before as [|t before IH]; intros st Hbefore Hafter.
  - cbn. rewrite Hafter. reflexivity.
  - apply Forall_cons in Hbefore as [Ht Hbefore].
    cbn [app while_before length times]. rewrite Ht.
    unfold bind at 1 2. destruct (body st) as [[] st1|e st1|]; try reflexivity.
    rewrite (IH st1 Hbefore Hafter). reflexivity.
Qed.

Lemma timed_loop span body now before after rest st :
  clock st = now :: before ++ after :: rest ->
  Forall (fun t => (t <? now + span)%float = true) before ->
  (after <? now + span)%float = false ->
  (now <- time_time ;; while_time_before (now + span)%float body) st
  = (times (length before) body ;;; exec (set_clock (fun _ => rest)))
      (set_clock (fun _ => before ++ after :: rest) st).
Proof.
  intros Hclock Hbefore Hafter.
  unfold bind at 1, time_time. rewrite Hclock.
  unfold while_time_before. cbn [clock set_clock].
  apply while_before_times; assumption.
Qed.

Lemma sleep_controllers_runs sleep leds rumble alive clk rest n st :
  clock st = clk ->
  elapses sleep clk rest n ->
  sleep_controllers sleep leds rumble alive st
  = Done tt (set_clock (fun _ => rest)
               (emit (phase_trace leds rumble alive n) st)).
Proof.
  intros <- (now & before & after & Hclock & <- & Hbefore & Hafter).
  unfold sleep_controllers.
  rewrite (timed_loop _ _ _ _ _ _ _ Hclock Hbefore Hafter).
  unfold bind, exec.
  rewrite (times_emit _ (flat_map (drive_events leds rumble) alive)).
  - reflexivity.
  - intros st1. apply (for_each_emit (drive_events leds rumble)).
Qed.

Section DictOrder.

Variable dict_items : gmap string PSMove -> list (string * PSMove).

(** The five phases of the round start, on any clock on which they end. *)
Lemma intro_runs st c1 c2 c3 c4 c5 n1 n2 n3 n4 n5 :
  elapses 0.5 (clock st) c1 n1 -> elapses 0.3 c1 c2 n2 ->
  elapses 0.75 c2 c3 n3 -> elapses 0.75 c3 c4 n4 -> elapses 0.75 c4 c5 n5 ->
  let alive := dict_values dict_items (controllers_alive st) in
  intro dict_items st
  = Done tt (set_clock (fun _ => c5)
               (emit (intro_trace alive n1 n2 n3 n4 n5) st)).
Proof.
  intros H1 H2 H3 H4 H5 alive. unfold intro, bind, gets. fold alive.
  rewrite (sleep_controllers_runs _ _ _ _ _ c1 n1 st eq_refl H1).
  rewrite (sleep_controllers_runs _ _ _ _ c1 c2 n2); [|reflexivity|assumption].
  rewrite (sleep_controllers_runs _ _ _ _ c2 c3 n3); [|reflexivity|assumption].
  rewrite (sleep_controllers_runs _ _ _ _ c3 c4 n4); [|reflexivity|assumption].
  rewrite (sleep_controllers_runs _ _ _ _ c4 c5 n5); [|reflexivity|assumption].
  rewrite !clock_emit_twice. unfold intro_trace.
  rewrite <- ?app_assoc. reflexivity.
Qed.

(** Lines 163-164 for contestants that all have an LED triple as palette
    colour. *)
Lemma colours_set (items : list (string * PSMove)) : forall st,
  (forall item, item ∈ items ->
     exists r g b, controller_colours st !! get_serial item.2 = Some [r; g; b]) ->
  for_each (fun item : string * PSMove =>
              colour <- palette_colour item.2 ;; set_leds_star item.2 colour)
           items st
  = Done tt (emit (flat_map (fun item : string * PSMove =>
                     led_events item.2
                       (default [] (controller_colours st !! get_serial item.2)))
                     items) st).
Proof.
  induction items as [|item items IH]; intros st Hall; cbn [for_each flat_map].
  - rewrite emit_nil. reflexivity.
  - destruct (Hall item (list_elem_of_here _ _)) as (r & g & b & Hpal).
    unfold bind at 1 2, palette_colour. rewrite Hpal. cbn [set_leds_star default].
    unfold exec. rewrite IH.
    + rewrite emit_emit. reflexivity.
    + intros item' Hin. apply Hall. apply list_elem_of_further, Hin.
Qed.

(** Lines 163-164 when the first contestant has no palette colour. *)
Lemma colours_unassigned (item : string * PSMove) items st :
  controller_colours st !! get_serial item.2 = None ->
  for_each (fun item : string * PSMove =>
              colour <- palette_colour item.2 ;; set_leds_star item.2 colour)
           (item :: items) st
  = Raised (KeyError (get_serial item.2)) st.
Proof.
  intros Hnone. cbn [for_each]. unfold bind, palette_colour.
  rewrite Hnone. reflexivity.
Qed.

(** Lines 149-164 for contestants with assigned colours: the five phases,
    then each contestant's palette colour. *)
Lemma intro_then_colours st c1 c2 c3 c4 c5 n1 n2 n3 n4 n5 :
  elapses 0.5 (clock st) c1 n1 -> elapses 0.3 c1 c2 n2 ->
  elapses 0.75 c2 c3 n3 -> elapses 0.75 c3 c4 n4 -> elapses 0.75 c4 c5 n5 ->
  (forall item, item ∈ dict_items (controllers_alive st) ->
     exists r g b, controller_colours st !! get_serial item.2 = Some [r; g; b]) ->
  (intro dict_items ;;; individual_colours dict_items) st
  = Done tt (set_clock (fun _ => c5)
       (emit (intro_trace (dict_values dict_items (controllers_alive st))
                          n1 n2 n3 n4 n5
              ++ flat_map (fun item : string * PSMove =>
                   led_events item.2
                     (default [] (controller_colours st !! get_serial item.2)))
                   (dict_items (controllers_alive st))) st)).
Proof.
  intros H1 H2 H3 H4 H5 Hall. unfold bind at 1.
  rewrite (intro_runs st c1 c2 c3 c4 c5 n1 n2 n3 n4 n5 H1 H2 H3 H4 H5).
  unfold individual_colours, bind, gets.
  change (controllers_alive (set_clock _ (emit _ st))) with (controllers_alive st).
  rewrite colours_set by exact Hall.
  change (controller_colours (set_clock _ (emit _ st))) with (controller_colours st).
  f_equal. generalize (intro_trace (dict_values dict_items (controllers_alive st))
                         n1 n2 n3 n4 n5).
  intros es. generalize (flat_map (fun item : string * PSMove =>
                   led_events item.2
                     (default [] (controller_colours st !! get_serial item.2)))
                   (dict_items (controllers_alive st))).
  intros es'. destruct st. unfold emit, set_out, set_clock. cbn.
  rewrite <- app_assoc. reflexivity.
Qed.

End DictOrder.

(** C8, at the failing input.  "A" joins while "B" is connected and has
    not joined, then "A" leaves the roster and the lobby exits with "A" as
    the only contestant.  The round start builds the palette from the
    roster (only "B" gets a colour), drives "A" through the five phases
    in order, and then the look-up of the colour of "A" at line 164
    raises [KeyError]: no contestant is set to a palette colour. *)
Theorem round_start_unassigned_colour :
  exists st0 st,
    lobby (initial clock_five_phases env_joined_then_gone) = Done tt st0
    /\ controllers_alive st0 = {["A" := pad "A"]}
    /\ moves st0 = [pad "B"]
    /\ game map_to_list (initial clock_five_phases env_joined_then_gone)
       = Raised (KeyError "A") st
    /\ controller_colours st = {["B" := [255; 0; 0]]}
    /\ out st = out st0 ++ EvPrint "GAME START"
                          :: intro_trace [pad "A"] 1 1 1 1 1.
Proof.
  eexists. eexists.
  split; [vm_compute; reflexivity|].
  split; [vm_compute; reflexivity|].
  split; [reflexivity|].
  split; [vm_compute; reflexivity|].
  split; vm_compute; reflexivity.
Qed.

(** ** The win animation *)

Lemma rainbow_range :
  rgb_range (hsv_range 50 50 (NFloat 0.9) (NInt 1)) = inr rainbow.
Proof. vm_compute. reflexivity. Qed.

Lemma rainbow_triples : Forall (fun colour : list Z => length colour = 3%nat) rainbow.
Proof. repeat constructor. Qed.

Lemma emit_around_range es1 es2 f st :
  emit es2 (set_colour_range f (emit es1 st))
  = set_colour_range f (emit (es1 ++ es2) st).
Proof.
  destruct st. unfold emit, set_out, set_colour_range. cbn.
  rewrite <- app_assoc. reflexivity.
Qed.

Lemma range_twice (range range' : list (list Z)) es es' st :
  set_colour_range (fun _ => range') (emit es'
    (set_colour_range (fun _ => range) (emit es st)))
  = set_colour_range (fun _ => range') (emit (es ++ es') st).
Proof.
  destruct st. unfold emit, set_out, set_colour_range. cbn.
  rewrite <- app_assoc. reflexivity.
Qed.

Lemma win_step_runs move first others st :
  colour_range st = first :: others ->
  length first = 3%nat ->
  win_step move st
  = Done tt (set_colour_range (fun _ => others ++ [first])
               (emit (win_step_events move (moves st) first) st)).
Proof.
  intros Hrange Hlen.
  destruct first as [|r [|g [|b [|]]]]; try discriminate Hlen.
  unfold win_step, bind at 1, gets. rewrite Hrange.
  unfold bind, set_leds_star, exec, gets.
  change (moves (set_colour_range _ (emit _ (emit _ st)))) with (moves st).
  rewrite (for_each_emit buzz_events). f_equal.
  rewrite emit_emit, emit_emit, emit_around_range, <- !app_assoc.
  reflexivity.
Qed.

Lemma win_steps_run move n : forall range st,
  colour_range st = range ->
  Forall (fun colour : list Z => length colour = 3%nat) range ->
  range <> [] ->
  times n (win_step move) st
  = Done tt (set_colour_range (fun _ => rotated n range)
               (emit (win_steps move (moves st) range n) st)).
Proof.
  induction n as [|n IH]; intros range st Hrange Htriples Hne.
  - cbn [times rotated win_steps]. rewrite emit_nil. unfold ret. f_equal.
    destruct st. cbn in Hrange. subst range. reflexivity.
  - destruct range as [|first others]; [congruence|].
    apply Forall_cons in Htriples as [Hfirst Hothers].
    cbn [times rotated win_steps]. unfold bind.
    rewrite (win_step_runs move first others st Hrange Hfirst).
    rewrite (IH (others ++ [first])).
    + f_equal.
      change (moves (set_colour_range _ (emit _ st))) with (moves st).
      apply range_twice.
    + reflexivity.
    + apply Forall_app. split; [exact Hothers|].
      constructor; [exact Hfirst|constructor].
    + destruct others; discriminate.
Qed.

Lemma rotated_lookup (first : list Z) others j :
  (others ++ [first]) !! (j mod S (length others))%nat
  = (first :: others) !! (S j mod S (length others))%nat.
Proof.
  assert (Hi : (j mod S (length others) < S (length others))%nat)
    by (apply Nat.mod_upper_bound; lia).
  replace (S j) with (1 + j)%nat by lia.
  rewrite <- (Nat.Div0.add_mod_idemp_r 1 j).
  set (i := (j mod S (length others))%nat) in *. clearbody i.
  destruct (decide (i = length others)) as [->|Hne].
  - change (1 + length others)%nat with (S (length others)).
    rewrite Nat.Div0.mod_same. cbn.
    rewrite lookup_app_r by lia. rewrite Nat.sub_diag. reflexivity.
  - rewrite Nat.mod_small by lia. cbn.
    rewrite lookup_app_l by lia. reflexivity.
Qed.

Lemma flat_map_seq_shift {B} (f : nat -> list B) n :
  flat_map f (seq 1 n) = flat_map (fun j => f (S j)) (seq 0 n).
Proof.
  rewrite <- seq_shift. induction (seq 0 n) as [|j l IH]; cbn; [reflexivity|].
  rewrite IH. reflexivity.
Qed.

(** Step [j] of the animation shows colour [j mod length range]. *)
Lemma win_steps_cycle move roster n : forall range,
  range <> [] ->
  win_steps move roster range n = win_trace move roster range n.
Proof.
  induction n as [|n IH]; intros range Hne.
  - destruct range; reflexivity.
  - destruct range as [|first others]; [congruence|].
    cbn [win_steps]. rewrite IH by (destruct others; discriminate).
    unfold win_trace.
    rewrite length_app, Nat.add_comm. cbn [length Nat.add].
    change (seq 0 (S n)) with (0%nat :: seq 1 n). cbn [flat_map].
    rewrite Nat.Div0.mod_0_l. cbn [lookup list_lookup default].
    f_equal. rewrite flat_map_seq_shift.
    apply flat_map_ext. intros j. rewrite rotated_lookup. reflexivity.
Qed.

Ltac state_fields st :=
  destruct st as [f1 f2 f3 f4 f5 f6 f7 f8 f9 f10 f11 f12 f13 f14 f15 f16];
  cbv beta iota delta [emit set_out set_colour_range set_HSV set_clock
    set_running set_controllers_alive set_moves set_move_last_values
    set_poll_failures set_ticks poll_failures HSV colour_range
    controller_colours paired_controllers controllers_alive
    usb_paired_controllers start battery battery_pressed moves
    move_last_values running clock ticks out].

Lemma win_state_eq e1 es2 es3 h (r1 r2 : list (list Z)) (c1 rest : list float) st :
  set_controllers_alive (fun _ => ∅)
    (set_running (fun _ => false)
       (set_clock (fun _ => rest)
          (set_colour_range (fun _ => r2)
             (emit es3 (emit es2
                (set_clock (fun _ => c1)
                   (set_colour_range (fun _ => r1)
                      (set_HSV (fun _ => h) (emit [e1] st)))))))))
  = set_controllers_alive (fun _ => ∅)
      (set_running (fun _ => false)
         (set_clock (fun _ => rest)
            (set_colour_range (fun _ => r2)
               (set_HSV (fun _ => h) (emit (e1 :: es2 ++ es3) st))))).
Proof. state_fields st. rewrite <- !app_assoc. reflexivity. Qed.

Lemma alive_unset st : set_controllers_alive (fun _ => controllers_alive st) st = st.
Proof. state_fields st. reflexivity. Qed.

Section Round.

Variable dict_items : gmap string PSMove -> list (string * PSMove).

(** Whatever the order, [items()] lists the entries of the dictionary. *)
Hypothesis items_listed : forall d, dict_items d ≡ₚ map_to_list d.

Lemma items_singleton key move :
  dict_items {[key := move]} = [(key, move)].
Proof.
  apply Permutation_singleton_r. rewrite (items_listed {[key := move]}).
  rewrite map_to_list_singleton. reflexivity.
Qed.

Lemma items_empty : dict_items ∅ = [].
Proof.
  apply Permutation_nil_r. rewrite (items_listed ∅).
  rewrite map_to_list_empty. reflexivity.
Qed.

Lemma items_lookup d key move :
  (key, move) ∈ dict_items d <-> d !! key = Some move.
Proof. rewrite (items_listed d). apply elem_of_map_to_list. Qed.

Lemma items_keys_distinct d : NoDup (dict_items d).*1.
Proof. rewrite (items_listed d). apply NoDup_fst_map_to_list. Qed.

Lemma win_runs serial key move more rest n st :
  dict_items (controllers_alive st) = (key, move) :: more ->
  elapses 3 (clock st) rest n ->
  win dict_items serial st = Done tt (after_win serial move rest n st).
Proof using Type.
  intros Hitems (now & before & after & Hclock & <- & Hbefore & Hafter).
  unfold win. unfold bind at 1, exec at 1. unfold bind at 1, exec at 1.
  unfold bind at 1, gets at 1. cbn [HSV set_HSV].
  rewrite rainbow_range.
  unfold bind at 1, exec at 1. unfold bind at 1, gets at 1.
  cbn [controllers_alive set_colour_range set_HSV emit set_out].
  rewrite Hitems.
  unfold bind at 1, time_time.
  cbn [clock set_colour_range set_HSV emit set_out set_clock].
  rewrite Hclock.
  unfold bind at 1, gets at 1.
  cbn [moves set_colour_range set_HSV emit set_out set_clock].
  unfold bind at 1. rewrite (for_each_emit dark_events).
  unfold bind at 1, while_time_before.
  cbn [clock set_colour_range set_HSV emit set_out set_clock].
  rewrite (while_before_times _ _ _ _ _ _ Hbefore Hafter).
  unfold bind at 1.
  rewrite (win_steps_run move (length before) rainbow);
    [|reflexivity|exact rainbow_triples|discriminate].
  rewrite win_steps_cycle by discriminate.
  unfold exec, bind. f_equal. unfold after_win.
  change (moves (emit _ (set_clock _ (set_colour_range _ (set_HSV _ (emit _ st))))))
    with (moves st).
  apply win_state_eq.
Qed.

Lemma reconcile_stopped tk st :
  running st = false -> reconcile dict_items tk st = Done tt st.
Proof using Type.
  intros Hstop. unfold reconcile, bind, gets. rewrite Hstop. reflexivity.
Qed.

Lemma round_while_stopped env st :
  running st = false -> round_while dict_items env st = Done tt st.
Proof using Type.
  intros Hstop. destruct env; cbn [round_while]; rewrite Hstop; reflexivity.
Qed.

(** Lines 243-245 over items with distinct keys that are in the
    dictionary: the entries whose key is not [available] go. *)
Lemma drop_loop (available : list string) (items : list (string * PSMove)) :
  forall st,
  NoDup items.*1 ->
  (forall key move, (key, move) ∈ items -> controllers_alive st !! key = Some move) ->
  exists d,
    for_each (fun item : string * PSMove =>
                if bool_decide (item.1 ∉ available) then del_alive item.1
                else ret tt) items st
    = Done tt (set_controllers_alive (fun _ => d) st)
    /\ forall key,
         d !! key = if bool_decide (key ∈ items.*1 /\ key ∉ available)
                    then None else controllers_alive st !! key.
Proof using Type.
  induction items as [|[k v] items IH]; intros st Hnodup Hin.
  - exists (controllers_alive st). cbn [for_each]. unfold ret.
    rewrite alive_unset. split; [reflexivity|]. intros key.
    rewrite bool_decide_eq_false_2; [reflexivity|].
    intros [Hk _]. inversion Hk.
  - cbn [fmap list_fmap fst] in Hnodup. apply NoDup_cons in Hnodup as [Hk Hnodup].
    cbn [for_each fst]. unfold bind.
    destruct (bool_decide_reflect (k ∉ available)) as [Hgone|Hhere].
    + unfold del_alive. rewrite (Hin k v (list_elem_of_here _ _)).
      destruct (IH (set_controllers_alive (delete k) st) Hnodup) as (d & Hrun & Hd).
      { intros key move Hitem. cbn [controllers_alive set_controllers_alive].
        rewrite lookup_delete_ne.
        - apply Hin. apply list_elem_of_further, Hitem.
        - intros ->. apply Hk. apply list_elem_of_fmap. exists (key, move). auto. }
      exists d. split; [exact Hrun|]. intros key. rewrite Hd.
      cbn [controllers_alive set_controllers_alive fmap list_fmap fst].
      destruct (decide (key = k)) as [->|Hne].
      * rewrite lookup_delete_eq.
        rewrite (bool_decide_eq_true_2 (k ∈ k :: items.*1 ∧ k ∉ available))
          by (split; [apply list_elem_of_here|exact Hgone]).
        destruct (bool_decide _); reflexivity.
      * rewrite lookup_delete_ne by congruence.
        rewrite (bool_decide_ext (key ∈ k :: items.*1 ∧ key ∉ available)
                                 (key ∈ items.*1 ∧ key ∉ available)).
        -- reflexivity.
        -- rewrite elem_of_cons. tauto.
    + unfold ret.
      destruct (IH st Hnodup) as (d & Hrun & Hd).
      { intros key move Hitem. apply Hin. apply list_elem_of_further, Hitem. }
      exists d. split; [exact Hrun|]. intros key. rewrite Hd.
      cbn [fmap list_fmap fst].
      rewrite (bool_decide_ext (key ∈ k :: items.*1 ∧ key ∉ available)
                               (key ∈ items.*1 ∧ key ∉ available)).
      * reflexivity.
      * rewrite elem_of_cons. split; [|tauto].
        intros [[->|Hmem] Hout]; [|tauto].
        exfalso. apply Hhere. exact Hout.
Qed.

Lemma drop_vanished_filters (available : list string) st :
  drop_vanished dict_items available st
  = Done tt (set_controllers_alive
               (fun _ => filter (fun kv : string * PSMove => kv.1 ∈ available)
                           (controllers_alive st)) st).
Proof.
  unfold drop_vanished, bind, gets.
  destruct (drop_loop available (dict_items (controllers_alive st)) st)
    as (d & Hrun & Hd).
  - apply items_keys_distinct.
  - intros key move. apply items_lookup.
  - rewrite Hrun. f_equal. f_equal.
    assert (Heq : d = filter (fun kv : string * PSMove => kv.1 ∈ available)
                        (controllers_alive st)); [|rewrite Heq; reflexivity].
    apply map_eq. intros key. rewrite Hd.
    destruct (controllers_alive st !! key) as [move|] eqn:Hlook.
    + case_bool_decide as Hcase.
      * symmetry. apply map_lookup_filter_None. right.
        intros move' _. cbn. tauto.
      * symmetry. apply map_lookup_filter_Some. split; [exact Hlook|]. cbn.
        destruct (decide (key ∈ available)); [assumption|].
        exfalso. apply Hcase. split; [|assumption].
        apply list_elem_of_fmap. exists (key, move). split; [reflexivity|].
        apply items_lookup, Hlook.
    + assert (Hnone : filter (fun kv : string * PSMove => kv.1 ∈ available)
                        (controllers_alive st) !! key = None)
        by (apply map_lookup_filter_None; left; exact Hlook).
      rewrite Hnone. case_bool_decide; reflexivity.
Qed.

Lemma reconcile_changed tk st :
  running st = true ->
  length (connected_after tk) <> length (moves st) ->
  reconcile dict_items tk st
  = Done tt
      (let st1 :=
         set_controllers_alive
           (fun _ => filter (fun kv : string * PSMove =>
                               kv.1 ∈ get_serial <$> connected_after tk)
                       (controllers_alive st))
           (set_moves (fun _ => connected_after tk) st) in
       if Nat.eqb (length (connected_after tk)) 0
       then set_running (fun _ => false) st1 else st1).
Proof.
  intros Hrun Hcount. unfold reconcile. unfold bind at 1, gets at 1.
  rewrite Hrun. unfold bind at 1, gets at 1.
  rewrite bool_decide_eq_true_2 by exact Hcount.
  unfold bind at 1. unfold bind at 1, exec at 1. unfold bind at 1, gets at 1.
  cbn [moves set_moves]. rewrite drop_vanished_filters.
  unfold bind, gets. cbn [moves set_moves set_controllers_alive controllers_alive].
  destruct (Nat.eqb (length (connected_after tk)) 0); reflexivity.
Qed.

Lemma reconcile_same tk st :
  running st = true ->
  length (connected_after tk) = length (moves st) ->
  reconcile dict_items tk st
  = Done tt (if Nat.eqb (length (moves st)) 0
             then set_running (fun _ => false) st else st).
Proof using Type.
  intros Hrun Hcount. unfold reconcile. unfold bind at 1, gets at 1.
  rewrite Hrun. unfold bind at 1, gets at 1.
  rewrite bool_decide_eq_false_2 by (intros Hne; apply Hne, Hcount).
  unfold bind, gets, ret.
  destruct (Nat.eqb (length (moves st)) 0); reflexivity.
Qed.

(** A pass that starts with one contestant is the win animation. *)
Lemma pass_with_one tk st key move rest n :
  controllers_alive st = {[key := move]} ->
  elapses 3 (clock st) rest n ->
  round_pass dict_items tk st = Done tt (after_win key move rest n st).
Proof.
  intros Halive Hclock. unfold round_pass. unfold bind at 1, gets at 1.
  rewrite Halive, items_singleton. unfold bind. cbn [round_for].
  rewrite Halive, map_size_singleton. cbn [Nat.eqb].
  rewrite (win_runs key key move [] rest n st).
  - apply reconcile_stopped. reflexivity.
  - rewrite Halive. apply items_singleton.
  - exact Hclock.
Qed.

(** Once reconciliation has removed every contestant while devices stay
    connected, the round goes on without end: each pass does nothing, as
    long as the number of connected devices stays what it is. *)
Lemma round_without_contestants env : forall st,
  controllers_alive st = ∅ -> running st = true -> moves st <> [] ->
  Forall (fun tk => length (connected_after tk) = length (moves st)) env ->
  round_while dict_items env st = Starved.
Proof.
  induction env as [|tk later IH]; intros st Halive Hrun Hmoves Hcount;
    cbn [round_while]; rewrite Hrun; [reflexivity|].
  apply Forall_cons in Hcount as [Hsame Hcount].
  assert (Hpass : round_pass dict_items tk (set_ticks (fun _ => later) st)
                  = Done tt (set_ticks (fun _ => later) st)).
  { unfold round_pass. unfold bind at 1, gets at 1.
    cbn [controllers_alive set_ticks]. rewrite Halive, items_empty.
    unfold bind. cbn [round_for].
    rewrite reconcile_same by assumption. cbn [moves set_ticks].
    destruct (moves st); [congruence|reflexivity]. }
  rewrite Hpass. apply IH; assumption.
Qed.

(** C6, as amended.  While the round is running, the code after the
    per-contestant pass compares the number of connected devices with the
    roster size.  When they differ, the roster becomes the connected
    devices and exactly the contestants whose identifier is among them
    stay; if no device is connected, the round ends with the contestant
    set empty.  When the count is the same, roster and contestants stay
    as they are (also a contestant that is no longer connected), and the
    round goes on unless the roster is empty.  A pass that starts with
    exactly one contestant runs the win animation and ends the round with
    the contestant set empty. *)
Theorem reconcile_on_count_change (tk : Tick) (st : State) :
  running st = true ->
  (length (connected_after tk) <> length (moves st) ->
   exists st',
     reconcile dict_items tk st = Done tt st'
     /\ moves st' = connected_after tk
     /\ controllers_alive st'
        = filter (fun kv : string * PSMove =>
                    kv.1 ∈ get_serial <$> connected_after tk)
            (controllers_alive st)
     /\ reconciled tk st'
     /\ (connected_after tk = [] ->
         running st' = false /\ controllers_alive st' = ∅)
     /\ (connected_after tk <> [] -> running st' = true))
  /\ (length (connected_after tk) = length (moves st) ->
      exists st',
        reconcile dict_items tk st = Done tt st'
        /\ moves st' = moves st
        /\ controllers_alive st' = controllers_alive st
        /\ (running st' = false <-> moves st = []))
  /\ (forall key move rest n,
        controllers_alive st = {[key := move]} ->
        elapses 3 (clock st) rest n ->
        exists st',
          round_pass dict_items tk st = Done tt st'
          /\ running st' = false
          /\ controllers_alive st' = ∅
          /\ forall env, round_while dict_items env st' = Done tt st').
Proof.
  intros Hrun. split; [|split].
  - intros Hcount. rewrite (reconcile_changed tk st Hrun Hcount). cbv zeta.
    assert (Hkept : forall d : gmap string PSMove,
              forall serial,
                serial ∈ dom (filter (fun kv : string * PSMove =>
                                        kv.1 ∈ get_serial <$> connected_after tk) d) ->
                serial ∈ get_serial <$> connected_after tk).
    { intros d serial Hin. apply elem_of_dom in Hin as [m Hin].
      apply map_lookup_filter_Some in Hin as [_ Hin]. exact Hin. }
    destruct (Nat.eqb (length (connected_after tk)) 0) eqn:Hzero.
    + apply Nat.eqb_eq, nil_length_inv in Hzero.
      eexists. split; [reflexivity|]. split; [reflexivity|].
      split; [reflexivity|]. split; [exact (Hkept _)|]. split; [|congruence].
      intros _. split; [reflexivity|].
      cbn [controllers_alive set_controllers_alive set_running].
      apply map_eq. intros key. rewrite lookup_empty.
      apply map_lookup_filter_None. right. intros m _ Hin.
      rewrite Hzero in Hin. inversion Hin.
    + apply Nat.eqb_neq in Hzero.
      eexists. split; [reflexivity|]. split; [reflexivity|].
      split; [reflexivity|]. split; [exact (Hkept _)|]. split.
      * intros Hnil. rewrite Hnil in Hzero. cbn in Hzero. congruence.
      * intros _. exact Hrun.
  - intros Hcount. rewrite (reconcile_same tk st Hrun Hcount).
    eexists. split; [reflexivity|].
    destruct (moves st) as [|m ms] eqn:Hmoves; cbn [length Nat.eqb].
    + cbn [moves controllers_alive running set_running].
      rewrite Hmoves. repeat split.
    + rewrite Hmoves, Hrun. repeat split; discriminate.
  - intros key move rest n Halive Hclock.
    rewrite (pass_with_one tk st key move rest n Halive Hclock).
    eexists. split; [reflexivity|]. split; [reflexivity|].
    split; [reflexivity|]. intros env. apply round_while_stopped. reflexivity.
Qed.



End Round.

Lemma reconcile_on_count_change_witness :
  exists st',
    reconcile map_to_list tick_one_left (playing [pad "A"; pad "B"] [])
    = Done tt st'
    /\ moves st' = [pad "A"]
    /\ reconciled tick_one_left st'
    /\ running st' = true.
Proof.
  destruct (proj1 (reconcile_on_count_change map_to_list
                     (fun d => Permutation_refl _) tick_one_left
                     (playing [pad "A"; pad "B"] []) eq_refl))
    as (st' & Hrun & Hmoves & _ & Hrec & _ & Hstill).
  - intros Hcount. vm_compute in Hcount. discriminate Hcount.
  - exists st'. split; [exact Hrun|]. split; [exact Hmoves|].
    split; [exact Hrec|]. apply Hstill. discriminate.
Defined.


(** C6 as stated fails: both contestants are polled, the number of
    connected devices has not changed, so nothing is re-enumerated and "B"
    stays a contestant of the running round although it is not among the
    connected devices. *)
Lemma pass_keeps_vanished_contestant :
  exists st,
    (lobby ;;; round_start map_to_list ;;; round_pass map_to_list tick_swapped)
      (initial clock_five_phases env_both_join) = Done tt st
    /\ running st = true
    /\ ~ reconciled tick_swapped st.
Proof.
  assert (Hrun : exists st,
    (lobby ;;; round_start map_to_list ;;; round_pass map_to_list tick_swapped)
      (initial clock_five_phases env_both_join) = Done tt st
    /\ running st = true
    /\ controllers_alive st = <["A" := pad "A"]> {["B" := pad "B"]}).
  { eexists. split; [vm_compute; reflexivity|].
    split; [reflexivity|vm_compute; reflexivity]. }
  destruct Hrun as (st & Hrun & Hstill & Halive).
  exists st. split; [exact Hrun|]. split; [exact Hstill|].
  clear Hrun. intros Hrec. specialize (Hrec "B").
  rewrite Halive, dom_insert_L, dom_singleton_L in Hrec.
  assert (Hin : "B" ∈ get_serial <$> connected_after tick_swapped)
    by (apply Hrec; set_solver).
  clear Hrec Halive.
  change (get_serial <$> connected_after tick_swapped) with ["A"; "D"] in Hin.
  apply elem_of_cons in Hin as [Hin|Hin]; [discriminate|].
  apply elem_of_cons in Hin as [Hin|Hin]; [discriminate|inversion Hin].
Qed.

Lemma baseline_overwritten_witness :
  exists st',
    update_move jolt "A" (pad "A") sampling = Done tt st'
    /\ move_last_values st'
       = <["A" := sample_total (get_accelerometer_frame jolt)]>
           (move_last_values sampling).
Proof.
  destruct (proj1 (proj1 (baseline_overwritten jolt "A" (pad "A") sampling)
                     eq_refl) 255 0 0)
    as (st' & Hrun & Hlast & _).
  - vm_compute. reflexivity.
  - lia.
  - lia.
  - lia.
  - exists (pad "A"). vm_compute. reflexivity.
  - exists st'. split; assumption.
Defined.

Lemma lobby_joined_monotone_witness :
  exists st',
    lobby (initial [] env_joined_then_gone) = Done tt st'
    /\ controllers_alive (initial [] env_joined_then_gone)
       ⊆ controllers_alive st'.
Proof.
  eexists. split; [vm_compute; reflexivity|].
  apply (proj1 (proj2 (proj2 (proj2
           (lobby_joined_monotone (tick_of [] [] still)
              (initial [] env_joined_then_gone)))))).
  vm_compute. reflexivity.
Defined.

(** ** The palette *)

Lemma dict_of_other {V} (l : list (string * V)) :
  forall (acc : gmap string V) key,
  key ∉ l.*1 ->
  foldl (fun d kv => <[kv.1 := kv.2]> d) acc l !! key = acc !! key.
Proof.
  induction l as [|[k v] l IH]; intros acc key Hout; cbn [foldl]; [reflexivity|].
  cbn [fmap list_fmap fst] in Hout. apply not_elem_of_cons in Hout as [Hne Hout].
  rewrite IH by exact Hout. cbn [fst snd]. apply lookup_insert_ne. congruence.
Qed.

Lemma dict_of_entry {V} (l : list (string * V)) :
  forall (acc : gmap string V) key value,
  NoDup l.*1 -> (key, value) ∈ l ->
  foldl (fun d kv => <[kv.1 := kv.2]> d) acc l !! key = Some value.
Proof.
  induction l as [|[k v] l IH]; intros acc key value Hnodup Hin; cbn [foldl].
  - inversion Hin.
  - cbn [fmap list_fmap fst] in Hnodup. apply NoDup_cons in Hnodup as [Hk Hnodup].
    apply elem_of_cons in Hin as [[= -> ->]|Hin].
    + rewrite dict_of_other by exact Hk. cbn [fst snd]. apply lookup_insert_eq.
    + apply IH; assumption.
Qed.

Lemma dict_of_zip {V} (keys : list string) (values : list V) i key :
  NoDup keys -> length keys = length values ->
  keys !! i = Some key ->
  dict_of (zip keys values) !! key = values !! i.
Proof.
  intros Hnodup Hlen Hkey.
  destruct (values !! i) as [value|] eqn:Hvalue.
  - apply dict_of_entry.
    + rewrite fst_zip by lia. exact Hnodup.
    + apply list_elem_of_lookup. exists i.
      rewrite lookup_zip_with, Hkey. cbn. rewrite Hvalue. reflexivity.
  - apply lookup_ge_None in Hvalue. apply lookup_lt_Some in Hkey. lia.
Qed.

Lemma dict_of_dom {V} (l : list (string * V)) :
  dom (dict_of l) = list_to_set l.*1.
Proof.
  unfold dict_of. apply set_eq. intros key.
  rewrite elem_of_dom, elem_of_list_to_set. split.
  - intros Hsome. destruct (decide (key ∈ l.*1)) as [|Hout]; [assumption|].
    rewrite dict_of_other, lookup_empty in Hsome by exact Hout.
    destruct Hsome as [? [=]].
  - revert key. generalize (∅ : gmap string V).
    induction l as [|[k v] l IH]; intros acc key Hin; [inversion Hin|].
    cbn [foldl fst snd]. cbn [fmap list_fmap fst] in Hin.
    destruct (decide (key ∈ l.*1)) as [Hl|Hl]; [apply IH, Hl|].
    apply elem_of_cons in Hin as [->|Hin]; [|contradiction].
    rewrite dict_of_other by exact Hl. rewrite lookup_insert_eq. eauto.
Qed.

Lemma rgb_range_lookup (hsv : list (float * num * num)) : forall range,
  rgb_range hsv = inr range ->
  length range = length hsv
  /\ forall i colour, range !! i = Some colour ->
       exists c, hsv !! i = Some c /\ rgb_of_hsv c = inr colour.
Proof.
  induction hsv as [|c hsv IH]; intros range; cbn [rgb_range].
  - intros [= <-]. split; [reflexivity|]. intros i colour Hi. inversion Hi.
  - destruct (rgb_of_hsv c) as [e|first] eqn:Hc; [discriminate|].
    destruct (rgb_range hsv) as [e|others]; [discriminate|].
    intros [= <-]. destruct (IH others eq_refl) as [Hlen Hall].
    split; [cbn; congruence|].
    intros [|i] colour Hi.
    + injection Hi as <-. exists c. split; [reflexivity|exact Hc].
    + apply Hall. exact Hi.
Qed.

Lemma increasing_distinct l : forall prev,
  increasing prev l = true -> NoDup l /\ Forall (fun x => prev < x) l.
Proof.
  induction l as [|x l IH]; intros prev; cbn [increasing].
  - intros _. split; constructor.
  - intros Hinc. apply andb_true_iff in Hinc as [Hlt Hinc].
    apply Z.ltb_lt in Hlt. destruct (IH x Hinc) as [Hnodup Hall].
    split.
    + constructor; [|exact Hnodup]. intros Hin.
      rewrite Forall_forall in Hall. specialize (Hall x Hin). lia.
    + constructor; [exact Hlt|]. eapply Forall_impl; [exact Hall|].
      cbn. intros y Hy. lia.
Qed.

(** *** The quick evaluation gives the colours of the program *)

Lemma digits2_size p : digits2_pos p = Pos.size p.
Proof. induction p; cbn; congruence. Qed.

Lemma Zdigits2_log2 m : 0 < m -> Zdigits2 m = Z.log2 m + 1.
Proof.
  destruct m as [|p|p]; try lia. intros _. cbn [Zdigits2].
  rewrite digits2_size. destruct p; cbn; lia.
Qed.

Lemma pos_lt_pow2 p : Zpos p < 2 ^ Zpos (digits2_pos p).
Proof.
  pose proof (Z.log2_spec (Zpos p) ltac:(lia)) as Hs.
  pose proof (Zdigits2_log2 (Zpos p) ltac:(lia)) as Hd. cbn [Zdigits2] in Hd.
  rewrite Hd. unfold Z.succ in Hs. lia.
Qed.

Lemma valid_digits s m e :
  valid_binary (S754_finite s m e) = true -> Zpos (digits2_pos m) <= 53.
Proof.
  cbn [SpecFloat.valid_binary]. unfold bounded, canonical_mantissa.
  intros H. apply andb_true_iff in H as [H _]. apply Z.eqb_eq in H.
  unfold fexp, SpecFloat.emin, prec, emax in H. lia.
Qed.

Lemma led_float_spec k : 0 <= k < 2 ^ 63 -> py_float k = led_float k.
Proof.
  intros Hk. unfold py_float, led_float.
  rewrite <- (SF2Prim_Prim2SF (of_uint63 (Uint63.of_Z k))).
  rewrite of_uint63_spec, Uint63.of_Z_spec.
  rewrite Z.mod_small by exact Hk. reflexivity.
Qed.

Lemma truncated_weight m e :
  -1074 <= e -> Z.shiftl (Zpos m) e = weight m e / 2 ^ 1074.
Proof.
  intros He. unfold weight. destruct (Z.le_gt_cases 0 e) as [Hpos|Hneg].
  - rewrite Z.shiftl_mul_pow2 by exact Hpos.
    rewrite Z.pow_add_r by lia. rewrite Z.mul_assoc.
    symmetry. apply Z.div_mul. apply Z.pow_nonzero; lia.
  - replace e with (- (- e)) at 1 by lia.
    rewrite Z.shiftl_opp_r, Z.shiftr_div_pow2 by lia.
    replace (2 ^ 1074) with (2 ^ (- e) * 2 ^ (e + 1074)).
    + symmetry. apply Z.div_mul_cancel_r; apply Z.pow_nonzero; lia.
    + rewrite <- Z.pow_add_r by lia. f_equal. lia.
Qed.

Lemma canonical_finite s m e :
  valid_binary (S754_finite s m e) = true ->
  -1074 <= e
  /\ Zpos m < 2 ^ 53
  /\ (-1074 < e -> 2 ^ 52 <= Zpos m).
Proof.
  intros Hvalid. pose proof (valid_digits s m e Hvalid) as Hd.
  cbn [SpecFloat.valid_binary] in Hvalid.
  unfold bounded, canonical_mantissa in Hvalid.
  apply andb_true_iff in Hvalid as [Hc _]. apply Z.eqb_eq in Hc.
  unfold fexp, SpecFloat.emin, prec, emax in Hc.
  pose proof (pos_lt_pow2 m) as Hlt.
  pose proof (Zdigits2_log2 (Zpos m) ltac:(lia)) as Hlog.
  cbn [Zdigits2] in Hlog.
  pose proof (Z.log2_spec (Zpos m) ltac:(lia)) as [Hlow _].
  split; [lia|]. split.
  - eapply Z.lt_le_trans; [exact Hlt|].
    apply Z.pow_le_mono_r; lia.
  - intros He. assert (Hfull : Zpos (digits2_pos m) = 53) by lia.
    rewrite Hfull in Hlog. replace 52 with (Z.log2 (Zpos m)) by lia.
    exact Hlow.
Qed.

Lemma weight_lt_exponent m1 e1 m2 e2 :
  valid_binary (S754_finite false m1 e1) = true ->
  valid_binary (S754_finite false m2 e2) = true ->
  e1 < e2 -> weight m1 e1 < weight m2 e2.
Proof.
  intros H1 H2 He.
  destruct (canonical_finite _ _ _ H1) as (He1 & Hm1 & _).
  destruct (canonical_finite _ _ _ H2) as (_ & _ & Hm2).
  specialize (Hm2 ltac:(lia)). unfold weight.
  assert (Hp1 : 0 < 2 ^ (e1 + 1074)) by (apply Z.pow_pos_nonneg; lia).
  apply Z.lt_le_trans with (2 ^ 53 * 2 ^ (e1 + 1074)).
  - apply Z.mul_lt_mono_pos_r; assumption.
  - apply Z.le_trans with (2 ^ 52 * 2 ^ (e2 + 1074)).
    + rewrite <- !Z.pow_add_r by lia. apply Z.pow_le_mono_r; lia.
    + apply Z.mul_le_mono_nonneg_r; [|exact Hm2].
      apply Z.pow_nonneg. lia.
Qed.

Lemma compare_weight m1 e1 m2 e2 c :
  valid_binary (S754_finite false m1 e1) = true ->
  valid_binary (S754_finite false m2 e2) = true ->
  SFcompare (S754_finite false m1 e1) (S754_finite false m2 e2) = Some c ->
  (weight m1 e1 ?= weight m2 e2) = c.
Proof.
  intros H1 H2. cbn [SFcompare].
  destruct (canonical_finite _ _ _ H1) as (He1 & _ & _).
  destruct (Z.compare_spec e1 e2) as [Heq|Hlt|Hgt]; intros [= <-].
  - subst e2. change (Pos.compare_cont Eq m1 m2) with (Zpos m1 ?= Zpos m2).
    unfold weight.
    assert (Hp : 0 < 2 ^ (e1 + 1074)) by (apply Z.pow_pos_nonneg; lia).
    destruct (Z.compare_spec (Zpos m1) (Zpos m2)) as [Hm|Hm|Hm].
    + rewrite Hm. apply Z.compare_refl.
    + apply Z.compare_lt_iff. apply Z.mul_lt_mono_pos_r; assumption.
    + apply Z.compare_gt_iff. apply Z.mul_lt_mono_pos_r; assumption.
  - apply Z.compare_lt_iff. apply weight_lt_exponent; assumption.
  - apply Z.compare_gt_iff. apply weight_lt_exponent; assumption.
Qed.

Lemma exact_floats : forallb exact_float (seq 0 257) = true.
Proof. vm_compute. reflexivity. Qed.

Lemma led_float_weight k :
  0 <= k <= 256 ->
  match Prim2SF (led_float k) with
  | S754_zero false => k = 0
  | S754_finite false m e => weight m e = k * 2 ^ 1074
  | _ => False
  end.
Proof.
  intros Hk.
  pose proof (proj1 (forallb_forall exact_float (seq 0 257)) exact_floats
                (Z.to_nat k)) as Ht.
  unfold exact_float in Ht. rewrite Z2Nat.id in Ht by lia.
  specialize (Ht ltac:(apply in_seq; lia)).
  destruct (Prim2SF (led_float k)) as [[|]|[|]| |[|] m e]; try discriminate.
  - apply Nat.eqb_eq in Ht. lia.
  - apply andb_true_iff in Ht as [_ Ht]. apply Z.eqb_eq, Ht.
Qed.

Lemma py_int_between (x : float) (k : Z) :
  0 <= k <= 255 ->
  (led_float k <=? x)%float = true ->
  (x <? led_float (k + 1))%float = true ->
  py_int x = inr k.
Proof.
  intros Hk. rewrite leb_spec, ltb_spec. unfold py_int.
  pose proof (Prim2SF_valid x) as Hx.
  pose proof (Prim2SF_valid (led_float k)) as Hlow.
  pose proof (Prim2SF_valid (led_float (k + 1))) as Hhigh.
  pose proof (led_float_weight k ltac:(lia)) as Wlow.
  pose proof (led_float_weight (k + 1) ltac:(lia)) as Whigh.
  destruct (Prim2SF (led_float (k + 1))) as [[|]|[|]| |[|] m2 e2];
    try contradiction; [lia|].
  destruct (Prim2SF x) as [sx|sx| |sx m e].
  - intros Hle _.
    destruct (Prim2SF (led_float k)) as [[|]|[|]| |[|] m1 e1];
      try contradiction; [subst k; reflexivity|].
    unfold SFleb in Hle. cbn [SFcompare] in Hle. discriminate.
  - intros Hle Hlt. exfalso. destruct sx.
    + destruct (Prim2SF (led_float k)) as [[|]|[|]| |[|] m1 e1];
        try contradiction; unfold SFleb in Hle; cbn [SFcompare] in Hle;
        discriminate.
    + unfold SFltb in Hlt. cbn [SFcompare] in Hlt. discriminate.
  - intros Hle _. exfalso. unfold SFleb in Hle.
    destruct (Prim2SF (led_float k)); cbn [SFcompare] in Hle; discriminate.
  - intros Hle Hlt. destruct sx.
    + exfalso.
      destruct (Prim2SF (led_float k)) as [[|]|[|]| |[|] m1 e1];
        try contradiction; unfold SFleb in Hle; cbn [SFcompare] in Hle;
        discriminate.
    + destruct (canonical_finite _ _ _ Hx) as (He & _ & _).
      cbn [cond_Zopp]. rewrite (truncated_weight m e He). f_equal.
      assert (Hp : 0 < 2 ^ 1074) by (apply Z.pow_pos_nonneg; lia).
      assert (Hbelow : weight m e < (k + 1) * 2 ^ 1074).
      { rewrite <- Whigh. apply Z.compare_lt_iff.
        apply compare_weight; [assumption|assumption|].
        unfold SFltb in Hlt.
        destruct (SFcompare (S754_finite false m e)
                    (S754_finite false m2 e2)) as [[| |]|];
          try discriminate. reflexivity. }
      assert (Habove : k * 2 ^ 1074 <= weight m e).
      { destruct (Prim2SF (led_float k)) as [[|]|[|]| |[|] m1 e1];
          try contradiction.
        - subst k. unfold weight.
          apply Z.mul_nonneg_nonneg; [lia|apply Z.pow_nonneg; lia].
        - rewrite <- Wlow. apply Z.compare_ge_iff.
          rewrite Z.compare_antisym.
          unfold SFleb in Hle.
          destruct (SFcompare (S754_finite false m1 e1)
                      (S754_finite false m e)) as [c|] eqn:Hc;
            [|discriminate].
          rewrite (compare_weight m1 e1 m e c Hlow Hx Hc).
          destruct c; try discriminate; cbn; discriminate. }
      symmetry. apply Z.div_unique with (weight m e - k * 2 ^ 1074); lia.
Qed.

Lemma verified_int_spec x k :
  verified_int x = Some k -> py_int x = inr k /\ 0 <= k <= 255.
Proof.
  unfold verified_int. cbv zeta.
  destruct (0 <=? guess_int x) eqn:H0; [|discriminate].
  destruct (guess_int x <=? 255) eqn:H255; [|discriminate].
  destruct (led_float (guess_int x) <=? x)%float eqn:Hle; [|discriminate].
  destruct (x <? led_float (guess_int x + 1))%float eqn:Hlt; [|discriminate].
  cbn [andb]. intros [= <-].
  apply Z.leb_le in H0, H255.
  split; [|lia]. apply py_int_between; [lia|assumption|assumption].
Qed.

Lemma fast_colour_spec n i colour :
  0 <= i < 2 ^ 63 -> 0 <= n < 2 ^ 63 ->
  fast_colour n i = Some colour ->
  rgb_of_hsv (hue i n, NInt 1, NInt 1) = inr colour.
Proof.
  intros Hi Hn. unfold fast_colour, rgb_of_hsv, hsv_to_rgb, hue.
  cbn [num_is_zero float_of_num times_255].
  change (1 =? 0) with false. cbv iota zeta.
  change (py_float 1) with 1%float.
  rewrite (led_float_spec i Hi), (led_float_spec n Hn).
  set (h6 := (led_float i * 1 / led_float n * 6)%float).
  destruct (verified_int h6) as [k|] eqn:Hk; [|discriminate].
  apply verified_int_spec in Hk as [-> Hk].
  rewrite (led_float_spec k) by lia.
  set (f := (h6 - led_float k)%float).
  change (py_int (255 * (1 * (1 - 1)))%float) with (@inr exn Z 0).
  cbv iota.
  destruct (verified_int (255 * (1 * (1 - 1 * f)))%float) as [q|] eqn:Hq;
    [|discriminate].
  apply verified_int_spec in Hq as [-> _].
  destruct (verified_int (255 * (1 * (1 - 1 * (1 - f))))%float) as [t|]
    eqn:Ht; [|discriminate].
  apply verified_int_spec in Ht as [-> _].
  change (1 * 255) with 255.
  repeat match goal with
         | |- context [if ?c then _ else _] => destruct c
         end;
    intros Hc; inversion Hc; reflexivity.
Qed.

Lemma fast_range_spec n todo : forall i range,
  0 <= Z.of_nat i + Z.of_nat todo < 2 ^ 63 -> 0 <= n < 2 ^ 63 ->
  fast_range n todo (Z.of_nat i) = Some range ->
  rgb_range ((fun x : nat => (hue (Z.of_nat x) n, NInt 1, NInt 1))
               <$> seq i todo)
  = inr range.
Proof.
  induction todo as [|todo IH]; intros i range Hi Hn; cbn [fast_range].
  - intros [= <-]. reflexivity.
  - destruct (fast_colour n (Z.of_nat i)) as [colour|] eqn:Hc;
      [|discriminate].
    replace (Z.of_nat i + 1) with (Z.of_nat (S i)) by lia.
    destruct (fast_range n todo (Z.of_nat (S i))) as [colours|] eqn:Hr;
      [|discriminate].
    intros [= <-]. cbn [seq]. rewrite fmap_cons. cbn [rgb_range].
    rewrite (fast_colour_spec n (Z.of_nat i) colour ltac:(lia) Hn Hc).
    rewrite (IH (S i) colours ltac:(lia) Hn Hr). reflexivity.
Qed.

Lemma fast_palette_spec n :
  (Z.of_nat n < 2 ^ 62) ->
  fast_palette n = true ->
  exists range,
    rgb_range (hsv_range n (Z.of_nat n) (NInt 1) (NInt 1)) = inr range
    /\ increasing (-1) (hue_key <$> range) = true
    /\ forallb leds_ok range = true.
Proof.
  intros Hn. unfold fast_palette.
  destruct (fast_range (Z.of_nat n) n 0) as [range|] eqn:Hr; [|discriminate].
  intros [Hinc Hleds]%andb_true_iff. exists range.
  split; [|split; assumption].
  apply (fast_range_spec (Z.of_nat n) n 0%nat range); [lia|lia|exact Hr].
Qed.

Lemma fast_checked : forallb fast_palette (seq 0 (S palette_bound)) = true.
Proof. vm_cast_no_check (eq_refl true). Qed.

Lemma fast_palette_range n :
  (n <= palette_bound)%nat ->
  exists range,
    rgb_range (hsv_range n (Z.of_nat n) (NInt 1) (NInt 1)) = inr range
    /\ increasing (-1) (hue_key <$> range) = true
    /\ forallb leds_ok range = true.
Proof.
  intros Hn. apply fast_palette_spec.
  - unfold palette_bound in Hn. lia.
  - apply (proj1 (forallb_forall fast_palette (seq 0 (S palette_bound)))
             fast_checked).
    apply in_seq. lia.
Qed.

Lemma palette_checked : forallb palette_distinct (seq 0 (S palette_bound)) = true.
Proof.
  apply forallb_forall. intros n Hn. apply in_seq in Hn.
  unfold palette_distinct.
  destruct (fast_palette_range n ltac:(lia)) as (range & -> & Hinc & _).
  exact Hinc.
Qed.

Lemma palette_range n :
  (n <= palette_bound)%nat ->
  exists range,
    rgb_range (hsv_range n (Z.of_nat n) (NInt 1) (NInt 1)) = inr range
    /\ length range = n
    /\ NoDup range.
Proof.
  intros Hn.
  pose proof (proj1 (forallb_forall palette_distinct (seq 0 (S palette_bound)))
                palette_checked n) as Hcheck.
  unfold palette_distinct in Hcheck.
  destruct (rgb_range (hsv_range n (Z.of_nat n) (NInt 1) (NInt 1)))
    as [e|range] eqn:Hrange.
  - discriminate Hcheck. apply in_seq. lia.
  - exists range. split; [reflexivity|].
    destruct (rgb_range_lookup _ _ Hrange) as [Hlen _].
    split.
    + rewrite Hlen. unfold hsv_range. rewrite length_fmap, length_seq. reflexivity.
    + assert (Hinc : increasing (-1) (hue_key <$> range) = true)
        by (apply Hcheck, in_seq; lia).
      apply increasing_distinct in Hinc as [Hnodup _].
      eapply NoDup_fmap_1. exact Hnodup.
Qed.

(** *** The palette is written by [regenerate_colours] only *)

Create HintDb palette discriminated.

Lemma keeps_ret {A} (a : A) : keeps_palette (ret a).
Proof. intros st a' st' Hrun. inversion Hrun. reflexivity. Qed.

Lemma keeps_gets {A} (f : State -> A) : keeps_palette (gets f).
Proof. intros st a st' Hrun. inversion Hrun. reflexivity. Qed.

Lemma keeps_raise {A} (e : exn) : keeps_palette (raise (A := A) e).
Proof. intros st a st' [=]. Qed.

Lemma keeps_exec (f : State -> State) :
  (forall st, controller_colours (f st) = controller_colours st) ->
  keeps_palette (exec f).
Proof. intros Hf st a st' Hrun. inversion Hrun. apply Hf. Qed.

Lemma keeps_bind {A B} (c : M A) (k : A -> M B) :
  keeps_palette c -> (forall a, keeps_palette (k a)) -> keeps_palette (bind c k).
Proof.
  intros Hc Hk st b st'. unfold bind.
  destruct (c st) as [a st1|e st1|] eqn:Hrun; try discriminate.
  intros Hrest. rewrite (Hk a st1 b st' Hrest). exact (Hc st a st1 Hrun).
Qed.

Lemma keeps_for_each {A} (body : A -> M unit) (l : list A) :
  (forall x, keeps_palette (body x)) -> keeps_palette (for_each body l).
Proof.
  intros Hbody. induction l as [|x l IH]; cbn [for_each].
  - apply keeps_ret.
  - apply keeps_bind; [apply Hbody|intros _; exact IH].
Qed.

Lemma keeps_time_time : keeps_palette time_time.
Proof.
  intros st a st'. unfold time_time. destruct (clock st); [discriminate|].
  intros Hrun. inversion Hrun. reflexivity.
Qed.

Lemma keeps_while_before pause_time body readings :
  keeps_palette body -> keeps_palette (while_before pause_time body readings).
Proof.
  intros Hbody. induction readings as [|t later IH]; intros st a st';
    cbn [while_before]; [discriminate|].
  destruct (t <? pause_time)%float.
  - destruct (body st) as [[] st1|e st1|] eqn:Hrun; try discriminate.
    intros Hrest. rewrite (IH st1 a st' Hrest). exact (Hbody st tt st1 Hrun).
  - intros Hrun. inversion Hrun. reflexivity.
Qed.

Lemma keeps_while_time pause_time body :
  keeps_palette body -> keeps_palette (while_time_before pause_time body).
Proof. intros Hbody st a st'. apply keeps_while_before, Hbody. Qed.

#[local] Hint Resolve keeps_ret keeps_gets keeps_raise keeps_time_time : palette.
#[local] Hint Extern 1 (keeps_palette (exec _)) =>
  apply keeps_exec; intros; reflexivity : palette.
#[local] Hint Extern 2 (keeps_palette (bind _ _)) =>
  apply keeps_bind; [|intros ?] : palette.
#[local] Hint Extern 2 (keeps_palette (for_each _ _)) =>
  apply keeps_for_each; intros ? : palette.
#[local] Hint Extern 2 (keeps_palette (while_time_before _ _)) =>
  apply keeps_while_time : palette.
#[local] Hint Extern 3 (keeps_palette (match ?x with _ => _ end)) =>
  destruct x : palette.

Lemma keeps_set_leds_star move colour : keeps_palette (set_leds_star move colour).
Proof.
  unfold set_leds_star.
  destruct colour as [|r [|g [|b [|]]]]; auto with palette.
Qed.
#[local] Hint Resolve keeps_set_leds_star : palette.

Lemma keeps_palette_colour move : keeps_palette (palette_colour move).
Proof.
  intros st a st'. unfold palette_colour.
  destruct (controller_colours st !! get_serial move); [|discriminate].
  intros Hrun. inversion Hrun. reflexivity.
Qed.

Lemma keeps_del_alive serial : keeps_palette (del_alive serial).
Proof.
  intros st a st'. unfold del_alive.
  destruct (controllers_alive st !! serial); [|discriminate].
  intros Hrun. inversion Hrun. reflexivity.
Qed.
#[local] Hint Resolve keeps_palette_colour keeps_del_alive : palette.

Lemma keeps_sleep_controllers sleep leds rumble alive :
  keeps_palette (sleep_controllers sleep leds rumble alive).
Proof. unfold sleep_controllers, drive. auto 10 with palette. Qed.
#[local] Hint Resolve keeps_sleep_controllers : palette.

Lemma keeps_react verdict serial move : keeps_palette (react verdict serial move).
Proof. unfold react. destruct verdict; auto 10 with palette. Qed.

Lemma poll_move_palette ok move st :
  controller_colours (poll_move ok move st).2 = controller_colours st.
Proof.
  unfold poll_move. cbv zeta. destruct ok; [reflexivity|].
  destruct (1000 <? _); reflexivity.
Qed.

Lemma keeps_update_move rd serial move : keeps_palette (update_move rd serial move).
Proof.
  intros st a st'. unfold update_move.
  pose proof (poll_move_palette (poll rd) move st) as Hpoll.
  destruct (poll_move (poll rd) move st) as [ok st1]. cbn [snd] in Hpoll.
  destruct ok.
  - intros Hrun. rewrite <- Hpoll. revert Hrun.
    apply (keeps_bind (react _ serial move)); [apply keeps_react|].
    intros _. auto 10 with palette.
  - intros Hrun. inversion Hrun. subst. exact Hpoll.
Qed.
#[local] Hint Resolve keeps_react keeps_update_move : palette.

Section PaletteKept.

Variable dict_items : gmap string PSMove -> list (string * PSMove).

Lemma keeps_win serial : keeps_palette (win dict_items serial).
Proof.
  unfold win, win_step.
  apply keeps_bind; [auto with palette|intros _].
  apply keeps_bind; [auto with palette|intros _].
  apply keeps_bind; [auto with palette|intros hsv].
  destruct (rgb_range hsv); [auto with palette|].
  apply keeps_bind; [auto with palette|intros _].
  apply keeps_bind; [auto with palette|intros items].
  destruct items as [|[key move] more]; [auto with palette|].
  apply keeps_bind; [auto with palette|intros now].
  apply keeps_bind; [auto with palette|intros roster].
  apply keeps_bind; [auto with palette|intros _].
  apply keeps_bind; [|intros _; auto 10 with palette].
  apply keeps_while_time.
  apply keeps_bind; [auto with palette|intros range].
  destruct range; auto 20 with palette.
Qed.

Lemma keeps_round_for tk items : keeps_palette (round_for dict_items tk items).
Proof.
  induction items as [|[serial move] rest IH]; intros st a st'; cbn [round_for].
  - intros Hrun. inversion Hrun. reflexivity.
  - destruct (Nat.eqb (size (controllers_alive st)) 1).
    + apply keeps_win.
    + apply (keeps_bind (update_move (sense tk move) serial move));
        [apply keeps_update_move|intros _; exact IH].
Qed.

Lemma keeps_reconcile tk : keeps_palette (reconcile dict_items tk).
Proof.
  unfold reconcile, drop_vanished.
  apply keeps_bind; [auto with palette|intros still].
  destruct still; [|auto with palette].
  apply keeps_bind; [auto with palette|intros roster].
  apply keeps_bind.
  - destruct (bool_decide _); [|auto with palette].
    apply keeps_bind; [auto with palette|intros _].
    apply keeps_bind; [auto with palette|intros roster'].
    apply keeps_bind; [auto with palette|intros items].
    apply keeps_for_each. intros item.
    destruct (bool_decide _); auto with palette.
  - intros _. apply keeps_bind; [auto with palette|intros roster'].
    destruct (Nat.eqb _ 0); auto with palette.
Qed.

Lemma keeps_round_pass tk : keeps_palette (round_pass dict_items tk).
Proof.
  unfold round_pass.
  apply keeps_bind; [auto with palette|intros items].
  apply keeps_bind; [apply keeps_round_for|intros _; apply keeps_reconcile].
Qed.

Lemma keeps_round_while env : keeps_palette (round_while dict_items env).
Proof.
  induction env as [|tk later IH]; intros st a st'; cbn [round_while].
  - destruct (running st); [discriminate|]. intros Hrun. inversion Hrun. reflexivity.
  - destruct (running st); [|intros Hrun; inversion Hrun; reflexivity].
    destruct (round_pass dict_items tk (set_ticks (fun _ => later) st))
      as [[] st1|e st1|] eqn:Hpass; try discriminate.
    intros Hrest. rewrite (IH st1 a st' Hrest).
    exact (keeps_round_pass tk _ _ _ Hpass).
Qed.

Lemma keeps_intro : keeps_palette (intro dict_items).
Proof. unfold intro. auto 20 with palette. Qed.

Lemma keeps_individual_colours : keeps_palette (individual_colours dict_items).
Proof. unfold individual_colours. auto 20 with palette. Qed.

End PaletteKept.

Lemma regenerate_palette st range :
  rgb_range (hsv_range (length (moves st)) (Z.of_nat (length (moves st)))
       (NInt 1) (NInt 1))
  = inr range ->
  regenerate_colours st
  = Done tt
      (set_controller_colours
         (fun _ => dict_of (zip (get_serial <$> moves st) range))
         (set_colour_range (fun _ => range)
            (set_HSV (fun _ => hsv_range (length (moves st))
                                 (Z.of_nat (length (moves st)))
       (NInt 1) (NInt 1)) st))).
Proof.
  intros Hrange. unfold regenerate_colours. cbv zeta. cbn [HSV set_HSV].
  rewrite Hrange. reflexivity.
Qed.

Lemma round_start_palette dict_items st st2 range :
  rgb_range (hsv_range (length (moves st)) (Z.of_nat (length (moves st)))
       (NInt 1) (NInt 1))
  = inr range ->
  round_start dict_items st = Done tt st2 ->
  controller_colours st2 = dict_of (zip (get_serial <$> moves st) range).
Proof.
  intros Hrange. unfold round_start. unfold bind at 1, exec at 1.
  unfold bind at 1.
  rewrite (regenerate_palette (emit [EvPrint "GAME START"] st) range Hrange).
  intros Hrest.
  apply (keeps_bind (intro dict_items)) in Hrest.
  - exact Hrest.
  - apply keeps_intro.
  - intros _. apply keeps_bind; [apply keeps_individual_colours|intros _].
    auto with palette.
Qed.

(** C4, as amended.  The palette is made from the roster [moves], not from
    the contestants: for a roster of [n] devices with distinct serials
    ([n] up to [palette_bound], that is 1020), [regenerate_colours] gives
    the device at roster index [i] the colour of hue [i/n] (saturation and
    value 1), the colours of different roster devices differ, and no other
    device has a colour.  The contestants are left as they are, and a
    contestant has a colour exactly when its device is on the roster; when
    the contestants are exactly the devices of the roster, every contestant
    has the colour of a hue [i/N] for the number [N] of contestants.
    [round_start] leaves this palette in the state, and the active loop
    never changes it. *)
Theorem palette_over_roster (st : State) :
  NoDup (get_serial <$> moves st) ->
  (length (moves st) <= palette_bound)%nat ->
  let n := Z.of_nat (length (moves st)) in
  exists st',
    regenerate_colours st = Done tt st'
    /\ dom (controller_colours st') = list_to_set (get_serial <$> moves st)
    /\ (forall (i : nat) move,
          moves st !! i = Some move ->
          exists colour,
            controller_colours st' !! get_serial move = Some colour
            /\ rgb_of_hsv (hue (Z.of_nat i) n, NInt 1, NInt 1) = inr colour)
    /\ (forall (i j : nat) mi mj,
          i <> j -> moves st !! i = Some mi -> moves st !! j = Some mj ->
          controller_colours st' !! get_serial mi
          <> controller_colours st' !! get_serial mj)
    /\ controllers_alive st' = controllers_alive st
    /\ (forall serial,
          serial ∈ dom (controllers_alive st') ->
          is_Some (controller_colours st' !! serial)
          <-> serial ∈ get_serial <$> moves st)
    /\ (dom (controllers_alive st) = list_to_set (get_serial <$> moves st) ->
        hues_over_contestants st')
    /\ (forall dict_items st2,
          round_start dict_items st = Done tt st2 ->
          controller_colours st2 = controller_colours st')
    /\ (forall dict_items env st1 st2,
          round_while dict_items env st1 = Done tt st2 ->
          controller_colours st2 = controller_colours st1).
Proof.
  intros Hnodup Hbound n.
  destruct (palette_range (length (moves st)) Hbound)
    as (range & Hrange & Hlen & Hdistinct).
  destruct (rgb_range_lookup _ _ Hrange) as [_ Hcolours].
  assert (Hlens : length (get_serial <$> moves st) = length range)
    by (rewrite length_fmap; congruence).
  assert (Hentry : forall (i : nat) move,
            moves st !! i = Some move ->
            dict_of (zip (get_serial <$> moves st) range) !! get_serial move
            = range !! i).
  { intros i move Hi. apply dict_of_zip; [exact Hnodup|exact Hlens|].
    rewrite list_lookup_fmap, Hi. reflexivity. }
  assert (Hhue : forall (i : nat) move,
            moves st !! i = Some move ->
            exists colour,
              dict_of (zip (get_serial <$> moves st) range) !! get_serial move
              = Some colour
              /\ rgb_of_hsv (hue (Z.of_nat i) n, NInt 1, NInt 1) = inr colour).
  { intros i move Hi. rewrite (Hentry i move Hi).
    assert (Hlt : (i < length range)%nat)
      by (apply lookup_lt_Some in Hi; lia).
    destruct (lookup_lt_is_Some_2 range i Hlt) as [colour Hcolour].
    exists colour. split; [exact Hcolour|].
    destruct (Hcolours i colour Hcolour) as (c & Hc & Hrgb).
    unfold hsv_range in Hc. rewrite list_lookup_fmap in Hc.
    rewrite lookup_seq_lt in Hc by lia. cbn in Hc. injection Hc as <-.
    exact Hrgb. }
  assert (Hdom : dom (dict_of (zip (get_serial <$> moves st) range))
                 = list_to_set (get_serial <$> moves st))
    by (rewrite dict_of_dom, fst_zip by lia; reflexivity).
  rewrite (regenerate_palette st range Hrange).
  eexists. split; [reflexivity|].
  cbn [controller_colours set_controller_colours controllers_alive
       set_colour_range set_HSV].
  split; [exact Hdom|]. split; [exact Hhue|]. split; [|split; [|split; [|split; [|split]]]].
  - intros i j mi mj Hne Hi Hj.
    rewrite (Hentry i mi Hi), (Hentry j mj Hj). intros Heq.
    assert (Hlt : (i < length range)%nat)
      by (apply lookup_lt_Some in Hi; lia).
    destruct (lookup_lt_is_Some_2 range i Hlt) as [colour Hcolour].
    apply Hne. eapply NoDup_lookup; [exact Hdistinct|exact Hcolour|].
    rewrite <- Heq. exact Hcolour.
  - reflexivity.
  - intros serial _. rewrite <- elem_of_dom, Hdom.
    apply elem_of_list_to_set.
  - intros Hsame. unfold hues_over_contestants.
    cbn [controller_colours set_controller_colours controllers_alive
         set_colour_range set_HSV].
    assert (Hsize : size (controllers_alive st) = length (moves st)).
    { rewrite <- size_dom, Hsame, size_list_to_set by exact Hnodup.
      apply length_fmap. }
    rewrite Hsize. cbv zeta. intros serial Hin.
    rewrite Hsame in Hin. apply elem_of_list_to_set in Hin.
    apply list_elem_of_fmap in Hin as (move & -> & Hin).
    apply list_elem_of_lookup in Hin as [i Hi].
    destruct (Hhue i move Hi) as (colour & Hcolour & Hrgb).
    exists i, colour. split; [apply lookup_lt_Some in Hi; exact Hi|].
    split; [exact Hcolour|exact Hrgb].
  - intros dict_items st2 Hstart.
    exact (round_start_palette dict_items st st2 range Hrange Hstart).
  - intros dict_items env st1 st2. apply keeps_round_while.
Qed.

Lemma palette_over_roster_witness :
  exists st',
    regenerate_colours (playing [pad "A"; pad "B"; pad "C"] []) = Done tt st'
    /\ dom (controller_colours st') = {["A"; "B"; "C"]}.
Proof.
  destruct (palette_over_roster (playing [pad "A"; pad "B"; pad "C"] []))
    as (st' & Hrun & Hdom & _).
  - change (NoDup ["A"; "B"; "C"]).
    apply (bool_decide_unpack (NoDup ["A"; "B"; "C"])). vm_compute. exact I.
  - apply Nat.leb_le. vm_compute. reflexivity.
  - exists st'. split; [exact Hrun|]. rewrite Hdom.
    change (list_to_set ["A"; "B"; "C"] = ({["A"; "B"; "C"]} : gset string)).
    set_solver.
Defined.

(** C4 as stated fails: with "A" and "B" joined, "C" connected and START
    pressed, the round starts with two contestants and a palette over the
    three connected devices: "B" has the colour of hue 1/3, which is
    neither the colour of hue 0/2 nor that of hue 1/2. *)
Lemma palette_not_over_contestants :
  exists st,
    (lobby ;;; round_start map_to_list)
      (initial clock_five_phases env_early_start) = Done tt st
    /\ size (controllers_alive st) = 2%nat
    /\ ~ hues_over_contestants st.
Proof.
  assert (Hrun : exists st,
    (lobby ;;; round_start map_to_list)
      (initial clock_five_phases env_early_start) = Done tt st
    /\ controllers_alive st = <["A" := pad "A"]> {["B" := pad "B"]}
    /\ controller_colours st !! "B" = Some [0; 255; 0]).
  { eexists. split; [vm_compute; reflexivity|].
    split; vm_compute; reflexivity. }
  destruct Hrun as (st & Hrun & Halive & Hpal).
  assert (Hsize : size (controllers_alive st) = 2%nat)
    by (rewrite Halive; vm_compute; reflexivity).
  exists st. split; [exact Hrun|]. split; [exact Hsize|].
  clear Hrun. unfold hues_over_contestants. rewrite Hsize. cbv zeta.
  intros Hhues. destruct (Hhues "B") as (i & colour & Hi & Hcolour & Hrgb).
  { rewrite Halive, dom_insert_L, dom_singleton_L. set_solver. }
  rewrite Hpal in Hcolour. injection Hcolour as <-.
  clear Hhues Halive Hpal Hsize.
  destruct i as [|[|i]]; [| |lia]; vm_compute in Hrgb; discriminate Hrgb.
Qed.

(** Beyond the bound the colours repeat: a roster of 1021 devices gives
    the devices at indices 340 and 341 the same colour. *)
Lemma palette_repeats_at_1021 :
  exists range,
    rgb_range (hsv_range 1021 1021 (NInt 1) (NInt 1)) = inr range
    /\ range !! 340%nat = Some [0; 255; 0]
    /\ range !! 341%nat = Some [0; 255; 0].
Proof.
  eexists. split; [vm_compute; reflexivity|]. split; reflexivity.
Qed.

(** ** Magnitudes of binary64 results *)

Lemma Zdigits2_nonneg m : 0 <= Zdigits2 m.
Proof. destruct m; cbn; lia. Qed.

Lemma Zdigits2_shiftr m n :
  0 <= m -> 0 <= n -> Zdigits2 (Z.shiftr m n) <= Z.max 0 (Zdigits2 m - n).
Proof.
  intros Hm Hn. destruct (Z.eq_dec m 0) as [->|Hne].
  - rewrite Z.shiftr_0_l. cbn. lia.
  - pose proof (proj2 (Z.shiftr_nonneg m n) Hm) as Hs.
    destruct (Z.eq_dec (Z.shiftr m n) 0) as [->|Hne'].
    + cbn. lia.
    + rewrite !Zdigits2_log2 by lia. rewrite Z.log2_shiftr by lia.
      destruct (Z.lt_ge_cases (Z.log2 m) n) as [Hlt|Hge].
      * exfalso. apply Hne'. apply Z.shiftr_eq_0; lia.
      * lia.
Qed.

Lemma Zdigits2_le_succ m : 0 <= m -> Zdigits2 (m + 1) <= Zdigits2 m + 1.
Proof.
  intros Hm. destruct (Z.eq_dec m 0) as [->|Hne]; [cbv; discriminate|].
  rewrite !Zdigits2_log2 by lia.
  pose proof (Z.log2_succ_le m). unfold Z.succ in *. lia.
Qed.

Lemma Zdigits2_mono a b : 0 <= a <= b -> Zdigits2 a <= Zdigits2 b.
Proof.
  intros H. destruct (Z.eq_dec a 0) as [->|Hne].
  - apply Zdigits2_nonneg.
  - rewrite !Zdigits2_log2 by lia. pose proof (Z.log2_le_mono a b). lia.
Qed.

Lemma shr_1_m r : 0 <= shr_m r -> shr_m (shr_1 r) = Z.shiftr (shr_m r) 1.
Proof.
  destruct r as [m rb sb]. cbn [shr_m]. intros Hm.
  rewrite <- Z.div2_spec.
  destruct m as [|[p|p|]|p]; cbn; try reflexivity; lia.
Qed.

Lemma iter_shr_m p : forall r,
  0 <= shr_m r -> shr_m (SpecFloat.iter_pos shr_1 p r) = Z.shiftr (shr_m r) (Zpos p).
Proof.
  induction p as [p IH|p IH|]; intros r Hr; cbn [SpecFloat.iter_pos].
  - assert (H1 : 0 <= shr_m (shr_1 r))
      by (rewrite shr_1_m by lia; apply Z.shiftr_nonneg; lia).
    assert (H2 : 0 <= shr_m (SpecFloat.iter_pos shr_1 p (shr_1 r)))
      by (rewrite IH by lia; apply Z.shiftr_nonneg; lia).
    rewrite IH by lia. rewrite IH by lia. rewrite shr_1_m by lia.
    rewrite !Z.shiftr_shiftr by lia. f_equal. lia.
  - assert (H2 : 0 <= shr_m (SpecFloat.iter_pos shr_1 p r))
      by (rewrite IH by lia; apply Z.shiftr_nonneg; lia).
    rewrite IH by lia. rewrite IH by lia.
    rewrite !Z.shiftr_shiftr by lia. f_equal. lia.
  - apply shr_1_m, Hr.
Qed.

Lemma shr_bound m l e n :
  0 <= m ->
  let '(r, e') := shr (shr_record_of_loc m l) e n in
  0 <= shr_m r <= m
  /\ e' = (if 0 <? n then e + n else e)
  /\ Zdigits2 (shr_m r) + e' <= Z.max (Zdigits2 m + e) e'.
Proof.
  intros Hm.
  assert (Hrec : shr_m (shr_record_of_loc m l) = m)
    by (destruct l as [|[]]; reflexivity).
  destruct n as [|p|p]; cbn [shr Z.ltb Z.compare].
  - rewrite Hrec. lia.
  - rewrite iter_shr_m by lia. rewrite Hrec.
    pose proof (Zdigits2_shiftr m (Zpos p) Hm ltac:(lia)).
    pose proof (proj2 (Z.shiftr_nonneg m (Zpos p)) Hm).
    assert (Z.shiftr m (Zpos p) <= m).
    { rewrite Z.shiftr_div_pow2 by lia.
      apply Z.div_le_upper_bound; [lia|].
      pose proof (Z.pow_pos_nonneg 2 (Zpos p)). nia. }
    lia.
  - rewrite Hrec. lia.
Qed.

Lemma round_nearest_even_bounds m l :
  m <= round_nearest_even m l <= m + 1.
Proof.
  unfold round_nearest_even. destruct l as [|[]]; try lia.
  destruct (Z.even m); lia.
Qed.

Lemma round_aux_small sx mx ex lx K :
  0 <= mx -> Zdigits2 mx + ex <= K -> ex <= K -> -1074 <= K <= 971 ->
  small (K + 1) (binary_round_aux prec emax sx mx ex lx).
Proof.
  intros Hm HD He HK. unfold binary_round_aux, shr_fexp.
  pose proof (shr_bound mx lx ex (fexp prec emax (Zdigits2 mx + ex) - ex) Hm) as H1.
  destruct (shr (shr_record_of_loc mx lx) ex _) as [r1 e1].
  destruct H1 as (Hm1 & He1 & Hd1).
  pose proof (round_nearest_even_bounds (shr_m r1) (loc_of_shr_record r1)) as Hr.
  set (m2 := round_nearest_even (shr_m r1) (loc_of_shr_record r1)) in *.
  assert (Hm2 : 0 <= m2) by lia.
  pose proof (shr_bound m2 loc_Exact e1
                (fexp prec emax (Zdigits2 m2 + e1) - e1) Hm2) as H2.
  destruct (shr (shr_record_of_loc m2 loc_Exact) e1 _) as [r2 e2].
  destruct H2 as (Hm3 & He2 & Hd2).
  assert (Hd : Zdigits2 m2 <= Zdigits2 (shr_m r1) + 1).
  { etransitivity; [apply (Zdigits2_mono m2 (shr_m r1 + 1)); lia|].
    apply Zdigits2_le_succ. lia. }
  unfold fexp, SpecFloat.emin, prec, emax in *.
  assert (He1' : e1 <= K) by (destruct (0 <? _) in He1; lia).
  assert (He2' : e2 <= K) by (destruct (0 <? _) in He2; lia).
  destruct (shr_m r2) as [|m|m] eqn:Hm3'.
  - exact I.
  - rewrite (proj2 (Z.leb_le e2 (1024 - 53))) by lia.
    cbn [small]. cbn [Zdigits2] in Hd2. lia.
  - lia.
Qed.

Lemma digits2_mul mx my :
  Zpos (digits2_pos (mx * my)) <= Zpos (digits2_pos mx) + Zpos (digits2_pos my).
Proof.
  change (Zdigits2 (Zpos mx * Zpos my) <= Zdigits2 (Zpos mx) + Zdigits2 (Zpos my)).
  rewrite !Zdigits2_log2 by lia.
  pose proof (Z.log2_mul_above (Zpos mx) (Zpos my)). lia.
Qed.

Lemma mul_small x y a b :
  small a x -> small b y -> -1074 <= a + b <= 971 ->
  small (a + b + 1) (SFmul prec emax x y).
Proof.
  destruct x as [sx|sx| |sx mx ex], y as [sy|sy| |sy my ey];
    cbn [small SFmul]; try tauto.
  intros Hx Hy HK. pose proof (digits2_mul mx my).
  apply round_aux_small; cbn [Zdigits2]; lia.
Qed.

Lemma digits2_iter_xO d : forall mx,
  Zpos (digits2_pos (Pos.iter xO mx d)) = Zpos (digits2_pos mx) + Zpos d.
Proof.
  induction d as [|d IH] using Pos.peano_ind; intros mx.
  - cbn. lia.
  - rewrite Pos.iter_succ. cbn [digits2_pos]. rewrite Pos2Z.inj_succ, IH. lia.
Qed.

Lemma round_small sx mx ex K :
  Zpos (digits2_pos mx) + ex <= K -> -1074 <= K <= 971 ->
  small (K + 1) (binary_round prec emax sx mx ex).
Proof.
  intros HD HK. unfold binary_round, shl_align.
  destruct (fexp prec emax (Zpos (digits2_pos mx) + ex) - ex) as [|d|d] eqn:Hd.
  - apply round_aux_small; cbn [Zdigits2]; lia.
  - apply round_aux_small; cbn [Zdigits2]; lia.
  - pose proof (digits2_iter_xO d mx).
    unfold fexp, SpecFloat.emin, prec, emax in *.
    apply round_aux_small; cbn [Zdigits2]; lia.
Qed.

Lemma normalize_small m e K :
  Zdigits2 m + e <= K -> -1074 <= K <= 971 ->
  small (K + 1) (binary_normalize prec emax m e false).
Proof.
  intros HD HK. destruct m as [|p|p]; cbn [binary_normalize].
  - exact I.
  - apply round_small; assumption.
  - apply round_small; assumption.
Qed.

Lemma Zdigits2_lt_pow2 m k : 0 <= k -> Z.abs m < 2 ^ k -> Zdigits2 m <= k.
Proof.
  intros Hk Hm.
  assert (Hpos : forall p, Zpos p < 2 ^ k -> Zdigits2 (Zpos p) <= k).
  { intros p Hp. rewrite Zdigits2_log2 by lia.
    apply Z.log2_lt_pow2 in Hp; lia. }
  destruct m as [|p|p]; [cbn; lia|apply Hpos, Hm|apply (Hpos p), Hm].
Qed.

(** The mantissa aligned to the exponent [ez <= ex]. *)
Lemma shl_align_bound mx ex ez K :
  ez <= ex -> Zpos (digits2_pos mx) + ex <= K ->
  Zpos (fst (shl_align mx ex ez)) < 2 ^ (K - ez).
Proof.
  intros Hez HD. unfold shl_align.
  destruct (ez - ex) as [|d|d] eqn:Hd; cbn [fst].
  - eapply Z.lt_le_trans; [apply pos_lt_pow2|].
    apply Z.pow_le_mono_r; lia.
  - lia.
  - eapply Z.lt_le_trans; [apply pos_lt_pow2|].
    rewrite digits2_iter_xO. apply Z.pow_le_mono_r; lia.
Qed.

Lemma sub_small x y a b :
  small a x -> small b y -> -1074 <= Z.max a b + 1 <= 971 ->
  small (Z.max a b + 2) (SFsub prec emax x y).
Proof.
  destruct x as [sx|sx| |sx mx ex], y as [sy|sy| |sy my ey];
    cbn [small SFsub]; try tauto.
  - intros _ _ _. destruct sx, sy; exact I.
  - intros _ Hy HK. lia.
  - intros Hx _ HK. lia.
  - intros Hx Hy HK.
    set (ez := Z.min ex ey).
    pose proof (shl_align_bound mx ex ez (Z.max a b) ltac:(lia) ltac:(lia)) as HX.
    pose proof (shl_align_bound my ey ez (Z.max a b) ltac:(lia) ltac:(lia)) as HY.
    replace (Z.max a b + 2) with ((Z.max a b + 1) + 1) by lia.
    apply normalize_small; [|lia].
    assert (Hez : ez <= Z.max a b) by lia.
    assert (Hlt : Z.abs (cond_Zopp sx (Zpos (fst (shl_align mx ex ez)))
                         - cond_Zopp sy (Zpos (fst (shl_align my ey ez))))
                  < 2 ^ (Z.max a b - ez + 1)).
    { rewrite Z.pow_add_r by lia.
      set (X := Zpos (fst (shl_align mx ex ez))) in *.
      set (Y := Zpos (fst (shl_align my ey ez))) in *.
      assert (0 < X /\ 0 < Y) as [? ?] by (unfold X, Y; lia).
      destruct sx, sy; cbn [cond_Zopp]; lia. }
    apply Zdigits2_lt_pow2 in Hlt; lia.
Qed.

Lemma within_b_spec K x : within_b K x = true -> within K x.
Proof.
  unfold within_b, within. destruct (Prim2SF x); cbn [small]; try discriminate.
  - trivial.
  - apply Z.leb_le.
Qed.

Lemma within_mono K K' x : within K x -> K <= K' -> within K' x.
Proof. unfold within. destruct (Prim2SF x); cbn [small]; try tauto. lia. Qed.

Lemma mul_within x y a b :
  within a x -> within b y -> -1074 <= a + b <= 971 ->
  within (a + b + 1) (x * y)%float.
Proof. unfold within. rewrite mul_spec. apply mul_small. Qed.

Lemma sub_within x y a b :
  within a x -> within b y -> -1074 <= Z.max a b + 1 <= 971 ->
  within (Z.max a b + 2) (x - y)%float.
Proof. unfold within. rewrite sub_spec. apply sub_small. Qed.

Lemma py_int_within K x :
  within K x -> 0 <= K -> exists z, py_int x = inr z /\ Z.abs z < 2 ^ K.
Proof.
  unfold within, py_int. destruct (Prim2SF x) as [s|s| |s m e]; cbn [small]; try tauto.
  - intros _ HK. exists 0. split; [reflexivity|]. cbn. apply Z.pow_pos_nonneg; lia.
  - intros Hmag HK. eexists. split; [reflexivity|].
    assert (Habs : Z.abs (cond_Zopp s (Z.shiftl (Zpos m) e)) = Z.shiftl (Zpos m) e).
    { pose proof (proj2 (Z.shiftl_nonneg (Zpos m) e) ltac:(lia)).
      destruct s; cbn [cond_Zopp]; lia. }
    rewrite Habs.
    pose proof (proj2 (Z.shiftl_nonneg (Zpos m) e) ltac:(lia)) as Hnn.
    destruct (Z.eq_dec (Z.shiftl (Zpos m) e) 0) as [->|Hne].
    + apply Z.pow_pos_nonneg; lia.
    + apply Z.log2_lt_pow2; [lia|].
      pose proof (Zdigits2_log2 (Zpos m) ltac:(lia)) as Hd. cbn [Zdigits2] in Hd.
      destruct (Z.le_gt_cases 0 e) as [He|He].
      * rewrite Z.log2_shiftl by lia. lia.
      * rewrite <- (Z.opp_involutive e), Z.shiftl_opp_r in Hne |- *.
        destruct (Z.lt_ge_cases (Z.log2 (Zpos m)) (- e)) as [Hlt|Hge].
        -- exfalso. apply Hne. apply Z.shiftr_eq_0; lia.
        -- rewrite Z.log2_shiftr by lia. lia.
Qed.

Lemma unit_within x :
  (0 <=? x)%float = true -> (x <=? 1)%float = true -> within 1 x.
Proof.
  rewrite !leb_spec. unfold within.
  pose proof (Prim2SF_valid x) as Hvalid.
  change (Prim2SF 0) with (S754_zero false).
  change (Prim2SF 1) with (S754_finite false 4503599627370496 (-52)).
  destruct (Prim2SF x) as [s|s| |s m e]; cbn [small]; try tauto.
  - destruct s; cbn; discriminate.
  - cbn. discriminate.
  - apply valid_digits in Hvalid. unfold SFleb. cbn [SFcompare].
    destruct s; [discriminate|]. intros _.
    destruct (Z.compare_spec e (-52)); try discriminate; lia.
Qed.

Lemma small_integers :
  forallb (fun n => within_b 6 (py_float (Z.of_nat n - 31))) (seq 0 63) = true.
Proof. vm_compute. reflexivity. Qed.

Lemma py_float_within z : Z.abs z < 32 -> within 6 (py_float z).
Proof.
  intros Hz. apply within_b_spec.
  pose proof (proj1 (forallb_forall _ _) small_integers (Z.to_nat (z + 31))) as H.
  cbv beta in H. replace (Z.of_nat (Z.to_nat (z + 31)) - 31) with z in H by lia.
  apply H, in_seq. lia.
Qed.

Lemma mul_within_le x y a b K :
  within a x -> within b y -> a + b + 1 <= K -> -1074 <= a + b <= 971 ->
  within K (x * y)%float.
Proof.
  intros Hx Hy HK Hab. eapply within_mono; [apply (mul_within x y a b)|]; assumption.
Qed.

Lemma sub_within_le x y a b K :
  within a x -> within b y -> a + 2 <= K -> b + 2 <= K ->
  -1075 <= a -> -1075 <= b -> a <= 970 -> b <= 970 ->
  within K (x - y)%float.
Proof.
  intros Hx Hy Ha Hb. intros.
  eapply within_mono; [apply (sub_within x y a b)|]; try assumption; lia.
Qed.

Lemma within_one : within 1 1.
Proof. apply within_b_spec. vm_compute. reflexivity. Qed.

Lemma within_six : within 3 6.
Proof. apply within_b_spec. vm_compute. reflexivity. Qed.

Lemma within_255 : within 8 255.
Proof. apply within_b_spec. vm_compute. reflexivity. Qed.

Lemma in_unit_within x : in_unit x -> within 1 (float_of_num x).
Proof.
  destruct x as [z|f]; cbn [in_unit float_of_num].
  - intros Hz. assert (Hcase : z = 0 \/ z = 1) by lia.
    destruct Hcase as [->| ->]; apply within_b_spec; vm_compute; reflexivity.
  - intros [H0 H1]. apply unit_within; assumption.
Qed.

(** C9.  [hsv_to_rgb] never falls off its end (for any arguments, since
    [i % 6] is one of 0 to 5), and for [h], [s] and [v] between 0 and 1
    (floats, or the integers 0 and 1 for [s] and [v], as the callers
    pass them) it raises nothing either: it returns a list of three
    elements. *)
Theorem hsv_to_rgb_total (h : float) (s v : num) :
  (forall h' s' v', hsv_to_rgb h' s' v' <> NoValue)
  /\ ((0 <=? h)%float = true -> (h <=? 1)%float = true ->
      in_unit s -> in_unit v ->
      exists a b c, hsv_to_rgb h s v = Value [a; b; c]).
Proof.
  split.
  - intros h' s' v'. unfold hsv_to_rgb.
    destruct (num_is_zero s'); [discriminate|]. cbv zeta.
    destruct (py_int (h' * 6)%float) as [e|i]; [discriminate|].
    repeat match goal with
           | |- context [match py_int ?x with _ => _ end] =>
               destruct (py_int x); [discriminate|]
           end.
    pose proof (Z.mod_pos_bound i 6 ltac:(lia)) as Hi.
    repeat match goal with
           | |- context [?a =? ?b] => destruct (Z.eqb_spec a b); [discriminate|]
           end.
    lia.
  - intros Hh0 Hh1 Hs01 Hv01.
    pose proof (unit_within h Hh0 Hh1) as Hh.
    pose proof (in_unit_within s Hs01) as Hs.
    pose proof (in_unit_within v Hv01) as Hv.
    unfold hsv_to_rgb. destruct (num_is_zero s); [eauto|]. cbv zeta.
    generalize dependent (float_of_num s). intros fs Hs.
    generalize dependent (float_of_num v). intros fv Hv.
    assert (Hh6 : within 5 (h * 6)%float)
      by (apply (mul_within_le _ _ 1 3); [assumption|exact within_six|lia|lia]).
    destruct (py_int_within 5 _ Hh6 ltac:(lia)) as (i & -> & Hi).
    assert (Hf : within 8 (h * 6 - py_float i)%float).
    { apply (sub_within_le _ _ 5 6); try lia; [assumption|].
      apply py_float_within. change (2 ^ 5) with 32 in Hi. exact Hi. }
    set (f := (h * 6 - py_float i)%float) in *.
    assert (Hp : within 14 (255 * (fv * (1 - fs)))%float).
    { apply (mul_within_le _ _ 8 5); try lia; [exact within_255|].
      apply (mul_within_le _ _ 1 3); try lia; [assumption|].
      apply (sub_within_le _ _ 1 1); try lia; [exact within_one|assumption]. }
    destruct (py_int_within 14 _ Hp ltac:(lia)) as (p & -> & _).
    assert (Hq : within 23 (255 * (fv * (1 - fs * f)))%float).
    { apply (mul_within_le _ _ 8 14); try lia; [exact within_255|].
      apply (mul_within_le _ _ 1 12); try lia; [assumption|].
      apply (sub_within_le _ _ 1 10); try lia; [exact within_one|].
      apply (mul_within_le _ _ 1 8); try lia; assumption. }
    destruct (py_int_within 23 _ Hq ltac:(lia)) as (q & -> & _).
    assert (Ht : within 25 (255 * (fv * (1 - fs * (1 - f))))%float).
    { apply (mul_within_le _ _ 8 16); try lia; [exact within_255|].
      apply (mul_within_le _ _ 1 14); try lia; [assumption|].
      apply (sub_within_le _ _ 1 12); try lia; [exact within_one|].
      apply (mul_within_le _ _ 1 10); try lia; [assumption|].
      apply (sub_within_le _ _ 1 8); try lia; [exact within_one|assumption]. }
    destruct (py_int_within 25 _ Ht ltac:(lia)) as (t & -> & _).
    pose proof (Z.mod_pos_bound i 6 ltac:(lia)) as Hmod.
    repeat match goal with
           | |- context [?a =? ?b] => destruct (Z.eqb_spec a b); [eauto|]
           end.
    lia.
Qed.

Lemma hsv_to_rgb_total_witness :
  exists a b c, hsv_to_rgb 0.5 (NInt 1) (NInt 1) = Value [a; b; c].
Proof.
  apply (proj2 (hsv_to_rgb_total 0.5 (NInt 1) (NInt 1)));
    try (vm_compute; reflexivity); cbn; lia.
Defined.

(** * Further properties of the code *)

Lemma lobby_move_cases rd move st :
  let serial := get_serial move in
  (connection_type move = Conn_USB
   /\ (serial ∉ usb_paired_controllers st)
   /\ lobby_move rd move st
      = emit (pairing_events serial " connected over USB")
          (set_usb_paired_controllers (fun l => l ++ [serial]) st))
  \/ (connection_type move = Conn_Bluetooth
      /\ (serial ∉ paired_controllers st)
      /\ lobby_move rd move st
         = emit (pairing_events serial "connected over bluetooth")
             (set_paired_controllers (fun l => l ++ [serial]) st))
  \/ ((connection_type move = Conn_USB -> serial ∈ usb_paired_controllers st)
      /\ (connection_type move = Conn_Bluetooth ->
          serial ∈ paired_controllers st)
      /\ lobby_move rd move st
         = if poll rd then lobby_polled rd move (poll_move true move st).2
           else (poll_move false move st).2).
Proof.
  cbv zeta. unfold lobby_move. cbv zeta.
  assert (Hpoll : (let '(ok, st0) := poll_move (poll rd) move st in
                   if ok then lobby_polled rd move st0 else st0)
                  = if poll rd
                    then lobby_polled rd move (poll_move true move st).2
                    else (poll_move false move st).2).
  { pose proof (poll_move_result (poll rd) move st) as Hres.
    destruct (poll rd); destruct (poll_move _ move st) as [ok st1];
      cbn in Hres; subst ok; reflexivity. }
  destruct (connection_type move) eqn:Hconn.
  - destruct (bool_decide_reflect (get_serial move ∉ paired_controllers st))
      as [Hnew|Hold].
    + right; left. auto.
    + right; right. split; [discriminate|]. split; [|exact Hpoll].
      intros _. destruct (decide (get_serial move ∈ paired_controllers st));
        tauto.
  - destruct (bool_decide_reflect
                (get_serial move ∉ usb_paired_controllers st)) as [Hnew|Hold].
    + left. auto.
    + right; right. split; [|split; [discriminate|exact Hpoll]].
      intros _.
      destruct (decide (get_serial move ∈ usb_paired_controllers st)); tauto.
  - right; right. split; [discriminate|]. split; [discriminate|exact Hpoll].
Qed.

(** ** Invariants of the lobby *)

Section LobbyInvariant.

Variable P : State -> Prop.

Hypothesis P_move : forall rd move st, P st -> P (lobby_move rd move st).

Hypothesis P_moves : forall f st, P st -> P (set_moves f st).

Hypothesis P_start : forall f st, P st -> P (set_start f st).

Hypothesis P_battery : forall f st, P st -> P (set_battery f st).

Hypothesis P_pressed : forall f st, P st -> P (set_battery_pressed f st).

Hypothesis P_ticks : forall f st, P st -> P (set_ticks f st).

Hypothesis P_print : forall msg st, P st -> P (emit [EvPrint msg] st).

Lemma invariant_lobby_for tk l : forall st, P st -> P (lobby_for tk l st).
Proof using P_move P_moves P_print.
  induction l as [|move rest IH]; intros st HP; cbn [lobby_for]; [exact HP|].
  destruct (this move); auto.
Qed.

Lemma invariant_lobby_tick tk st : P st -> P (lobby_tick tk st).
Proof using P_move P_moves P_print P_battery P_pressed.
  intros HP. unfold lobby_tick. cbv zeta.
  repeat match goal with
         | |- context [if ?c then _ else _] => destruct c
         end;
    repeat first [apply P_moves | apply P_battery];
    apply invariant_lobby_for; auto.
Qed.

Lemma invariant_lobby_while env : forall st st',
  P st -> lobby_while env st = Done tt st' -> P st'.
Proof using P_move P_moves P_print P_battery P_pressed P_ticks.
  induction env as [|tk later IH]; intros st st' HP; cbn [lobby_while];
    [discriminate|].
  pose proof (invariant_lobby_tick tk _ (P_ticks (fun _ => later) st HP))
    as Hstep.
  destruct (lobby_exit _).
  - intros [= <-]. exact Hstep.
  - apply IH. exact Hstep.
Qed.

Lemma invariant_lobby st st' : P st -> lobby st = Done tt st' -> P st'.
Proof using P_move P_moves P_print P_battery P_pressed P_ticks P_start.
  intros HP. unfold lobby. cbv zeta. apply invariant_lobby_while. auto.
Qed.

End LobbyInvariant.

Lemma no_pairing_refl st : no_pairing st st.
Proof. repeat split. Qed.

Lemma no_pairing_trans st1 st2 st3 :
  no_pairing st1 st2 -> no_pairing st2 st3 -> no_pairing st1 st3.
Proof.
  intros (H1 & H2 & H3) (K1 & K2 & K3).
  split; [congruence|]. split; [congruence|].
  intros serial. rewrite K3. apply H3.
Qed.

Lemma no_pairing_recorded st st' :
  no_pairing st st' -> pairs_recorded st -> pairs_recorded st'.
Proof.
  intros (H1 & H2 & H3) (K1 & K2 & K3). unfold pairs_recorded.
  rewrite H1, H2. repeat split; try assumption.
  intros serial. rewrite H3. apply K3.
Qed.

Lemma poll_move_no_pairing ok move st :
  no_pairing st (poll_move ok move st).2.
Proof.
  unfold poll_move, disconnect_move. cbv zeta.
  destruct ok; [|destruct (1000 <? _)];
    (split; [reflexivity|split; [reflexivity|]]); intros serial; cbn;
    rewrite ?count_app; cbn; lia.
Qed.

Lemma lobby_polled_no_pairing rd move st :
  no_pairing st (lobby_polled rd move st).
Proof.
  unfold lobby_polled, disconnect_move. cbv zeta.
  repeat match goal with
         | |- context [if ?c then _ else _] => destruct c; cbn
         | |- context [let '(_, _) := ?p in _] => destruct p as [[? ?] ?]; cbn
         end;
    (split; [reflexivity|split; [reflexivity|]]); intros serial; cbn;
    rewrite ?count_app; cbn; lia.
Qed.

Lemma count_pairing serial key msg :
  count (is_pair serial) (pairing_events key msg)
  = if bool_decide (serial = key) then 1%nat else 0%nat.
Proof.
  cbn. destruct (String.eqb_spec key serial) as [->|Hne].
  - rewrite bool_decide_eq_true_2 by reflexivity. reflexivity.
  - rewrite bool_decide_eq_false_2 by congruence. reflexivity.
Qed.

Lemma lobby_move_recorded rd move st :
  pairs_recorded st -> pairs_recorded (lobby_move rd move st).
Proof.
  intros Hrec.
  destruct (lobby_move_cases rd move st)
    as [(_ & Hnew & ->)|[(_ & Hnew & ->)|(_ & _ & ->)]].
  - destruct Hrec as (H1 & H2 & H3). unfold pairs_recorded.
    cbn [paired_controllers usb_paired_controllers out emit set_out
         set_usb_paired_controllers].
    split; [exact H1|]. split.
    + apply NoDup_app. split; [exact H2|]. split; [|apply NoDup_singleton].
      intros x Hx Hx'. apply list_elem_of_singleton in Hx'. subst x. tauto.
    + intros serial. rewrite count_app, count_pairing, H3.
      destruct (decide (serial = get_serial move)) as [->|Hne].
      * rewrite (bool_decide_eq_false_2 (_ ∈ usb_paired_controllers st))
          by exact Hnew.
        rewrite (bool_decide_eq_true_2 (get_serial move = _)) by reflexivity.
        rewrite (bool_decide_eq_true_2 (_ ∈ _ ++ _))
          by (apply elem_of_app; right; apply list_elem_of_here).
        lia.
      * rewrite (bool_decide_eq_false_2 (serial = _)) by exact Hne.
        rewrite (bool_decide_ext (serial ∈ usb_paired_controllers st ++ _)
                   (serial ∈ usb_paired_controllers st)).
        { lia. }
        rewrite elem_of_app, list_elem_of_singleton. tauto.
  - destruct Hrec as (H1 & H2 & H3). unfold pairs_recorded.
    cbn [paired_controllers usb_paired_controllers out emit set_out
         set_paired_controllers].
    split; [|split; [exact H2|]].
    + apply NoDup_app. split; [exact H1|]. split; [|apply NoDup_singleton].
      intros x Hx Hx'. apply list_elem_of_singleton in Hx'. subst x. tauto.
    + intros serial. rewrite count_app, count_pairing, H3.
      destruct (decide (serial = get_serial move)) as [->|Hne].
      * rewrite (bool_decide_eq_false_2 (_ ∈ paired_controllers st))
          by exact Hnew.
        rewrite (bool_decide_eq_true_2 (get_serial move = _)) by reflexivity.
        rewrite (bool_decide_eq_true_2 (_ ∈ _ ++ _))
          by (apply elem_of_app; right; apply list_elem_of_here).
        lia.
      * rewrite (bool_decide_eq_false_2 (serial = _)) by exact Hne.
        rewrite (bool_decide_ext (serial ∈ paired_controllers st ++ _)
                   (serial ∈ paired_controllers st)).
        { lia. }
        rewrite elem_of_app, list_elem_of_singleton. tauto.
  - eapply no_pairing_recorded; [|exact Hrec].
    destruct (poll rd).
    + eapply no_pairing_trans; [apply poll_move_no_pairing|].
      apply lobby_polled_no_pairing.
    + apply poll_move_no_pairing.
Qed.

(** ** What a round can change *)

Section RoundFootprint.

Variable R : State -> State -> Prop.

Hypothesis R_refl : forall st, R st st.

Hypothesis R_trans : forall st1 st2 st3, R st1 st2 -> R st2 st3 -> R st1 st3.

Hypothesis R_emit : forall es st,
  forallb not_pair es = true -> R st (emit es st).

Hypothesis R_clock : forall f st, R st (set_clock f st).

Hypothesis R_ticks : forall f st, R st (set_ticks f st).

Hypothesis R_HSV : forall f st, R st (set_HSV f st).

Hypothesis R_range : forall f st, R st (set_colour_range f st).

Hypothesis R_palette : forall f st, R st (set_controller_colours f st).

Hypothesis R_running : forall f st, R st (set_running f st).

Hypothesis R_baseline : forall f st, R st (set_move_last_values f st).

Hypothesis R_failures : forall f st, R st (set_poll_failures f st).

Hypothesis R_moves : forall f st, R st (set_moves f st).

Hypothesis R_delete : forall serial st,
  R st (set_controllers_alive (delete serial) st).

Hypothesis R_clear : forall st, R st (set_controllers_alive (fun _ => ∅) st).

Variable dict_items : gmap string PSMove -> list (string * PSMove).

Lemma preserves_ret {A} (a : A) : preserves R (ret a).
Proof using R_refl. intros st a' st' [= _ <-]. apply R_refl. Qed.

Lemma preserves_gets {A} (f : State -> A) : preserves R (gets f).
Proof using R_refl. intros st a' st' [= _ <-]. apply R_refl. Qed.

Lemma preserves_raise {A} (e : exn) : preserves R (raise (A := A) e).
Proof using Type. intros st a' st'. discriminate. Qed.

Lemma preserves_exec (f : State -> State) :
  (forall st, R st (f st)) -> preserves R (exec f).
Proof using Type. intros Hf st a' st' Hrun. inversion Hrun. apply Hf. Qed.

Lemma preserves_bind {A B} (c : M A) (k : A -> M B) :
  preserves R c -> (forall a, preserves R (k a)) -> preserves R (bind c k).
Proof using R_trans.
  intros Hc Hk st b st'. unfold bind.
  destruct (c st) as [a st1| |] eqn:Hrun; try discriminate.
  intros Hrun'.
  eapply R_trans; [exact (Hc _ _ _ Hrun)|exact (Hk _ _ _ _ Hrun')].
Qed.

Lemma preserves_for_each {A} (body : A -> M unit) (l : list A) :
  (forall x, preserves R (body x)) -> preserves R (for_each body l).
Proof using R_refl R_trans.
  intros Hbody. induction l as [|x l IH]; cbn [for_each].
  - apply preserves_ret.
  - apply preserves_bind; [apply Hbody|intros _; exact IH].
Qed.

Lemma preserves_time_time : preserves R time_time.
Proof using R_clock.
  intros st t st'. unfold time_time.
  destruct (clock st); [discriminate|]. intros [= _ <-]. apply R_clock.
Qed.

Lemma preserves_while_before pause_time body readings :
  preserves R body -> preserves R (while_before pause_time body readings).
Proof using R_clock R_trans.
  intros Hbody. induction readings as [|t later IH]; intros st a st';
    cbn [while_before]; [discriminate|].
  destruct (t <? pause_time)%float.
  - destruct (body st) as [[] st1| |] eqn:Hrun; try discriminate.
    intros Hrun'. eapply R_trans; [exact (Hbody _ _ _ Hrun)|].
    exact (IH _ _ _ Hrun').
  - intros Hrun. inversion Hrun. apply R_clock.
Qed.

Lemma preserves_while_time pause_time body :
  preserves R body -> preserves R (while_time_before pause_time body).
Proof using R_clock R_trans.
  intros Hbody st a st'. unfold while_time_before.
  apply preserves_while_before. exact Hbody.
Qed.

Lemma preserves_emit es :
  forallb not_pair es = true -> preserves R (exec (emit es)).
Proof using R_emit. intros Hes. apply preserves_exec. intros st. auto. Qed.

Lemma preserves_sleep_controllers sleep leds rumble alive :
  preserves R (sleep_controllers sleep leds rumble alive).
Proof using R_refl R_trans R_emit R_clock.
  unfold sleep_controllers. apply preserves_bind; [apply preserves_time_time|].
  intros now. apply preserves_while_time, preserves_for_each.
  intros move. apply preserves_emit. destruct leds as [[r g] b]. reflexivity.
Qed.

Lemma preserves_set_leds_star move colour :
  preserves R (set_leds_star move colour).
Proof using R_emit.
  destruct colour as [|r [|g [|b [|]]]]; cbn [set_leds_star];
    try apply preserves_raise.
  apply preserves_emit. reflexivity.
Qed.

Lemma preserves_palette_colour move : preserves R (palette_colour move).
Proof using R_refl.
  intros st colour st'. unfold palette_colour.
  destruct (_ !! _); [|discriminate]. intros [= _ <-]. apply R_refl.
Qed.

Lemma preserves_del_alive serial : preserves R (del_alive serial).
Proof using R_delete.
  intros st a st'. unfold del_alive.
  destruct (_ !! _); [|discriminate]. intros Hrun. inversion Hrun.
  apply R_delete.
Qed.

Lemma preserves_react verdict serial move :
  preserves R (react verdict serial move).
Proof using R_refl R_trans R_emit R_delete.
  destruct verdict; cbn [react].
  - apply preserves_bind; [apply preserves_palette_colour|]. intros colour.
    apply preserves_bind; [apply preserves_set_leds_star|]. intros _.
    apply preserves_emit. reflexivity.
  - apply preserves_bind; [apply preserves_palette_colour|]. intros colour.
    destruct (scaled colour); [apply preserves_raise|].
    apply preserves_set_leds_star.
  - apply preserves_bind; [apply preserves_emit; reflexivity|]. intros _.
    apply preserves_del_alive.
  - apply preserves_ret.
Qed.

Lemma poll_move_related ok move st : R st (poll_move ok move st).2.
Proof using R_trans R_emit R_failures.
  unfold poll_move, disconnect_move. cbv zeta.
  assert (Hpoll : R st (emit [EvPoll (get_serial move)] st))
    by (apply R_emit; reflexivity).
  destruct ok; cbn [snd].
  - eapply R_trans; [exact Hpoll|apply R_failures].
  - assert (Hfail : forall f,
              R st (set_poll_failures f (emit [EvPoll (get_serial move)] st)))
      by (intros f; eapply R_trans; [exact Hpoll|apply R_failures]).
    destruct (1000 <? _); [|apply Hfail].
    eapply R_trans; [apply Hfail|].
    eapply R_trans; apply R_emit; reflexivity.
Qed.

Lemma preserves_update_move rd serial move :
  preserves R (update_move rd serial move).
Proof using R_refl R_trans R_emit R_failures R_delete R_baseline.
  intros st a st'. unfold update_move.
  pose proof (poll_move_related (poll rd) move st) as Hpoll.
  destruct (poll_move (poll rd) move st) as [ok st1]. cbn [snd] in Hpoll.
  destruct ok.
  - intros Hrun. eapply R_trans; [exact Hpoll|]. revert Hrun.
    apply preserves_bind; [apply preserves_react|]. intros _.
    apply preserves_bind; [apply preserves_emit; reflexivity|]. intros _.
    apply preserves_exec. intros st2. apply R_baseline.
  - intros Hrun. inversion Hrun. subst. exact Hpoll.
Qed.

Lemma preserves_win_step move : preserves R (win_step move).
Proof using R_refl R_trans R_emit R_range.
  unfold win_step. apply preserves_bind; [apply preserves_gets|].
  intros [|first others]; [apply preserves_raise|].
  apply preserves_bind; [apply preserves_set_leds_star|]. intros _.
  apply preserves_bind; [apply preserves_emit; reflexivity|]. intros _.
  apply preserves_bind; [apply preserves_exec; intros st; apply R_range|].
  intros _. apply preserves_bind; [apply preserves_gets|]. intros roster.
  apply preserves_bind.
  - apply preserves_for_each. intros other. apply preserves_emit. reflexivity.
  - intros _. apply preserves_emit. reflexivity.
Qed.

Lemma preserves_win serial : preserves R (win dict_items serial).
Proof using R_refl R_trans R_emit R_range R_HSV R_clock R_running R_clear.
  unfold win. apply preserves_bind; [apply preserves_emit; reflexivity|].
  intros _.
  apply preserves_bind; [apply preserves_exec; intros st; apply R_HSV|].
  intros _. apply preserves_bind; [apply preserves_gets|]. intros hsv.
  destruct (rgb_range hsv); [apply preserves_raise|].
  apply preserves_bind; [apply preserves_exec; intros st; apply R_range|].
  intros _. apply preserves_bind; [apply preserves_gets|].
  intros [|[key move] more]; [apply preserves_raise|].
  apply preserves_bind; [apply preserves_time_time|]. intros now.
  apply preserves_bind; [apply preserves_gets|]. intros roster.
  apply preserves_bind.
  { apply preserves_for_each. intros other. apply preserves_emit.
    reflexivity. }
  intros _. apply preserves_bind.
  { apply preserves_while_time, preserves_win_step. }
  intros _.
  apply preserves_bind; [apply preserves_exec; intros st; apply R_running|].
  intros _. apply preserves_exec. intros st. apply R_clear.
Qed.

Lemma preserves_round_for tk items :
  preserves R (round_for dict_items tk items).
Proof using R_refl R_trans R_emit R_range R_HSV R_clock R_running R_clear
  R_failures R_delete R_baseline.
  induction items as [|[serial move] rest IH]; intros st a st';
    cbn [round_for].
  - intros Hrun. inversion Hrun. apply R_refl.
  - destruct (Nat.eqb _ 1); [apply preserves_win|].
    apply preserves_bind; [apply preserves_update_move|]. intros _. exact IH.
Qed.

Lemma preserves_drop_vanished available :
  preserves R (drop_vanished dict_items available).
Proof using R_refl R_trans R_delete.
  unfold drop_vanished. apply preserves_bind; [apply preserves_gets|].
  intros items. apply preserves_for_each. intros item.
  destruct (bool_decide _); [apply preserves_del_alive|apply preserves_ret].
Qed.

Lemma preserves_reconcile tk : preserves R (reconcile dict_items tk).
Proof using R_refl R_trans R_delete R_moves R_running.
  unfold reconcile. apply preserves_bind; [apply preserves_gets|].
  intros [|]; [|apply preserves_ret].
  apply preserves_bind; [apply preserves_gets|]. intros roster.
  apply preserves_bind.
  - destruct (bool_decide _); [|apply preserves_ret].
    apply preserves_bind; [apply preserves_exec; intros st; apply R_moves|].
    intros _. apply preserves_bind; [apply preserves_gets|]. intros roster'.
    apply preserves_drop_vanished.
  - intros _. apply preserves_bind; [apply preserves_gets|]. intros roster'.
    destruct (Nat.eqb _ 0); [|apply preserves_ret].
    apply preserves_exec. intros st. apply R_running.
Qed.

Lemma preserves_round_pass tk : preserves R (round_pass dict_items tk).
Proof using R_refl R_trans R_emit R_range R_HSV R_clock R_running R_clear
  R_failures R_delete R_baseline R_moves.
  unfold round_pass. apply preserves_bind; [apply preserves_gets|].
  intros items. apply preserves_bind; [apply preserves_round_for|].
  intros _. apply preserves_reconcile.
Qed.

Lemma preserves_round_while env : preserves R (round_while dict_items env).
Proof using R_refl R_trans R_emit R_range R_HSV R_clock R_running R_clear
  R_failures R_delete R_baseline R_moves R_ticks.
  induction env as [|tk later IH]; intros st a st'; cbn [round_while].
  - destruct (running st); [discriminate|]. intros Hrun. inversion Hrun.
    apply R_refl.
  - destruct (running st).
    + destruct (round_pass _ _ _) as [[] st1| |] eqn:Hpass; try discriminate.
      intros Hrun. eapply R_trans; [apply (R_ticks (fun _ => later))|].
      eapply R_trans; [exact (preserves_round_pass _ _ _ _ Hpass)|].
      exact (IH _ _ _ Hrun).
    + intros Hrun. inversion Hrun. apply R_refl.
Qed.

Lemma preserves_regenerate_colours : preserves R regenerate_colours.
Proof using R_trans R_HSV R_range R_palette.
  intros st a st'. unfold regenerate_colours. cbv zeta.
  destruct (rgb_range _); [discriminate|]. intros Hrun. inversion Hrun.
  eapply R_trans; [apply R_HSV|]. eapply R_trans; [apply R_range|].
  apply R_palette.
Qed.

Lemma preserves_intro : preserves R (intro dict_items).
Proof using R_refl R_trans R_emit R_clock.
  unfold intro. apply preserves_bind; [apply preserves_gets|]. intros alive.
  repeat (apply preserves_bind;
          [apply preserves_sleep_controllers|intros _]).
  apply preserves_sleep_controllers.
Qed.

Lemma preserves_individual_colours :
  preserves R (individual_colours dict_items).
Proof using R_refl R_trans R_emit.
  unfold individual_colours.
  apply preserves_bind; [apply preserves_gets|]. intros items.
  apply preserves_for_each. intros item.
  apply preserves_bind; [apply preserves_palette_colour|]. intros colour.
  apply preserves_set_leds_star.
Qed.

Lemma preserves_round_start : preserves R (round_start dict_items).
Proof using R_refl R_trans R_emit R_HSV R_range R_palette R_clock R_baseline
  R_running.
  unfold round_start.
  apply preserves_bind; [apply preserves_emit; reflexivity|]. intros _.
  apply preserves_bind; [apply preserves_regenerate_colours|]. intros _.
  apply preserves_bind; [apply preserves_intro|]. intros _.
  apply preserves_bind; [apply preserves_individual_colours|]. intros _.
  apply preserves_bind; [apply preserves_exec; intros st; apply R_baseline|].
  intros _. apply preserves_exec. intros st. apply R_running.
Qed.

Lemma preserves_round : preserves R (round dict_items).
Proof using R_refl R_trans R_emit R_range R_HSV R_clock R_running R_clear
  R_failures R_delete R_baseline R_moves R_ticks R_palette.
  unfold round. apply preserves_bind; [apply preserves_round_start|].
  intros _. apply preserves_bind; [apply preserves_gets|]. intros env.
  apply preserves_round_while.
Qed.

End RoundFootprint.

Lemma count_not_pair serial es :
  forallb not_pair es = true -> count (is_pair serial) es = 0%nat.
Proof.
  induction es as [|e es IH]; cbn [forallb count]; [reflexivity|].
  intros [He Hes]%andb_prop. rewrite (IH Hes).
  destruct e; cbn in *; try reflexivity. discriminate.
Qed.

Lemma round_footprint_refl st : round_footprint st st.
Proof.
  split; [reflexivity|]. split; [apply no_pairing_refl|]. repeat split.
Qed.

Lemma round_footprint_trans st1 st2 st3 :
  round_footprint st1 st2 -> round_footprint st2 st3 ->
  round_footprint st1 st3.
Proof.
  intros (H1 & H2 & H3 & H4 & H5) (K1 & K2 & K3 & K4 & K5).
  split; [etransitivity; eassumption|].
  split; [eapply no_pairing_trans; eassumption|].
  repeat split; congruence.
Qed.

Lemma round_footprint_emit es st :
  forallb not_pair es = true -> round_footprint st (emit es st).
Proof.
  intros Hes. split; [reflexivity|]. split; [|repeat split].
  split; [reflexivity|]. split; [reflexivity|].
  intros serial. cbn [out emit set_out]. rewrite count_app.
  rewrite (count_not_pair serial es Hes). lia.
Qed.

Lemma round_footprint_delete serial st :
  round_footprint st (set_controllers_alive (delete serial) st).
Proof.
  split; [apply delete_subseteq|].
  split; [exact (no_pairing_refl st)|]. repeat split.
Qed.

Lemma round_footprint_clear st :
  round_footprint st (set_controllers_alive (fun _ => ∅) st).
Proof.
  split; [apply map_empty_subseteq|].
  split; [exact (no_pairing_refl st)|]. repeat split.
Qed.

Lemma round_keeps_footprint dict_items :
  preserves round_footprint (round dict_items).
Proof.
  apply preserves_round;
    first [exact round_footprint_refl | exact round_footprint_trans
          | exact round_footprint_emit | exact round_footprint_delete
          | exact round_footprint_clear
          | intros f st; exact (round_footprint_refl st) ].
Qed.

Lemma lobby_move_joined_by_serial rd move st :
  joined_by_serial st -> joined_by_serial (lobby_move rd move st).
Proof.
  intros Hkey.
  destruct (lobby_move_cases rd move st)
    as [(_ & _ & ->)|[(_ & _ & ->)|(Husb & Hbt & ->)]].
  - intros serial m Hm. destruct (Hkey serial m Hm) as (H1 & H2 & H3).
    split; [exact H1|]. split; [exact H2|]. intros Hc.
    cbn [usb_paired_controllers emit set_out set_usb_paired_controllers].
    apply elem_of_app. left. exact (H3 Hc).
  - intros serial m Hm. destruct (Hkey serial m Hm) as (H1 & H2 & H3).
    split; [exact H1|]. split; [|exact H3]. intros Hc.
    cbn [paired_controllers emit set_out set_paired_controllers].
    apply elem_of_app. left. exact (H2 Hc).
  - destruct (poll rd).
    + intros serial m.
      destruct (lobby_polled_no_pairing rd move (poll_move true move st).2)
        as (-> & -> & _).
      destruct (poll_move_no_pairing true move st) as (-> & -> & _).
      rewrite lobby_polled_alive, poll_move_alive.
      destruct (bool_decide (get_serial move ∉ dom (controllers_alive st)));
        [|apply Hkey].
      destruct (100 <? get_trigger rd); [|apply Hkey].
      destruct (decide (serial = get_serial move)) as [->|Hne].
      * rewrite lookup_insert_eq. intros [= <-]. auto.
      * rewrite lookup_insert_ne by congruence. apply Hkey.
    + intros serial m.
      destruct (poll_move_no_pairing false move st) as (-> & -> & _).
      rewrite poll_move_alive. apply Hkey.
Qed.

Lemma footprint_joined_by_serial st st' :
  round_footprint st st' -> joined_by_serial st -> joined_by_serial st'.
Proof.
  intros (Hsub & (Hp & Hu & _) & _) Hkey serial move Hm.
  rewrite Hp, Hu. apply Hkey.
  exact (lookup_weaken _ _ _ _ Hm Hsub).
Qed.

(** X1.  Every contestant is stored under the serial of its own device
    object (so the look-ups by [move.get_serial()] of lines 164, 225 and
    230 are look-ups by the key [serial]), and a contestant on Bluetooth
    or USB has been paired before it joined.  A lobby tick, the whole
    lobby and a whole lobby-and-round cycle keep this. *)
Theorem contestants_keyed_by_serial
    (dict_items : gmap string PSMove -> list (string * PSMove))
    (st : State) :
  joined_by_serial st ->
  (forall tk, joined_by_serial (lobby_tick tk st))
  /\ (forall st', lobby st = Done tt st' -> joined_by_serial st')
  /\ (forall st', game dict_items st = Done tt st' -> joined_by_serial st').
Proof.
  intros Hkey.
  assert (Hlobby : forall st', lobby st = Done tt st' -> joined_by_serial st').
  { intros st'. apply (invariant_lobby joined_by_serial); try exact Hkey;
      try exact lobby_move_joined_by_serial; intros ? ? H; exact H. }
  split; [|split; [exact Hlobby|]].
  - intros tk. apply (invariant_lobby_tick joined_by_serial); try exact Hkey;
      try exact lobby_move_joined_by_serial; intros ? ? H; exact H.
  - intros st'. unfold game, bind.
    destruct (lobby st) as [[] st1| |] eqn:Hrun; try discriminate.
    intros Hround. apply (footprint_joined_by_serial st1).
    + exact (round_keeps_footprint dict_items _ _ _ Hround).
    + apply Hlobby. reflexivity.
Qed.

Lemma contestants_keyed_by_serial_witness :
  exists st',
    lobby (initial [] env_both_join) = Done tt st'
    /\ joined_by_serial st'.
Proof.
  eexists. split; [vm_compute; reflexivity|].
  apply (proj1 (proj2 (contestants_keyed_by_serial map_to_list
                         (initial [] env_both_join)
                         ltac:(intros serial move Hm; inversion Hm)))).
  vm_compute. reflexivity.
Defined.

Lemma print_recorded msg st :
  pairs_recorded st -> pairs_recorded (emit [EvPrint msg] st).
Proof.
  apply no_pairing_recorded.
  destruct (round_footprint_emit [EvPrint msg] st eq_refl) as (_ & H & _).
  exact H.
Qed.

(** X2.  [pair()] is called at most once for a serial and a transport:
    when the lists of paired controllers hold no serial twice and the
    trace holds one [pair()] call for each of their entries, this is still
    so after a lobby tick, after the lobby, and after a whole lobby and
    round; so no trace has more than two [pair()] calls for one serial
    (one over USB, one over Bluetooth). *)
Theorem controllers_paired_once
    (dict_items : gmap string PSMove -> list (string * PSMove))
    (st : State) :
  pairs_recorded st ->
  (forall tk, pairs_recorded (lobby_tick tk st))
  /\ (forall st', lobby st = Done tt st' -> pairs_recorded st')
  /\ (forall st', game dict_items st = Done tt st' ->
        pairs_recorded st'
        /\ forall serial, (count (is_pair serial) (out st') <= 2)%nat).
Proof.
  intros Hrec.
  assert (Hlobby : forall st', lobby st = Done tt st' -> pairs_recorded st').
  { intros st'. apply (invariant_lobby pairs_recorded); try exact Hrec;
      try exact lobby_move_recorded; try exact print_recorded;
      intros ? ? H; exact H. }
  split; [|split; [exact Hlobby|]].
  - intros tk. apply (invariant_lobby_tick pairs_recorded); try exact Hrec;
      try exact lobby_move_recorded; try exact print_recorded;
      intros ? ? H; exact H.
  - intros st'. unfold game, bind.
    destruct (lobby st) as [[] st1| |] eqn:Hrun; try discriminate.
    intros Hround.
    assert (Hrec' : pairs_recorded st').
    { apply (no_pairing_recorded st1).
      - destruct (round_keeps_footprint dict_items _ _ _ Hround)
          as (_ & H & _). exact H.
      - apply Hlobby. reflexivity. }
    split; [exact Hrec'|]. intros serial.
    destruct Hrec' as (_ & _ & ->).
    destruct (bool_decide _), (bool_decide _); lia.
Qed.

Lemma controllers_paired_once_witness :
  exists st',
    lobby (initial [] env_both_join) = Done tt st'
    /\ pairs_recorded st'.
Proof.
  eexists. split; [vm_compute; reflexivity|].
  apply (proj1 (proj2 (controllers_paired_once map_to_list
                         (initial [] env_both_join)
                         ltac:(repeat split; try apply NoDup_nil_2)))).
  vm_compute. reflexivity.
Defined.

(** X3.  A round removes contestants and does nothing else to what the
    lobby keeps: no pass and no round adds a contestant, pairs a
    controller or changes the START and battery flags. *)
Theorem round_only_removes_contestants
    (dict_items : gmap string PSMove -> list (string * PSMove))
    (st : State) :
  (forall tk st', round_pass dict_items tk st = Done tt st' ->
                  round_footprint st st')
  /\ (forall st', round dict_items st = Done tt st' ->
                  round_footprint st st').
Proof.
  split.
  - intros tk st' Hrun. revert Hrun.
    apply (preserves_round_pass round_footprint);
      first [exact round_footprint_refl | exact round_footprint_trans
            | exact round_footprint_emit | exact round_footprint_delete
            | exact round_footprint_clear
            | intros f st0; exact (round_footprint_refl st0) ].
  - intros st'. apply round_keeps_footprint.
Qed.

Lemma round_only_removes_contestants_witness :
  exists st',
    round_pass map_to_list tick_one_left (playing [pad "A"; pad "B"] [])
    = Done tt st'
    /\ round_footprint (playing [pad "A"; pad "B"] []) st'.
Proof.
  eexists. split; [vm_compute; reflexivity|].
  apply (proj1 (round_only_removes_contestants map_to_list
                  (playing [pad "A"; pad "B"] []))
           tick_one_left).
  vm_compute. reflexivity.
Defined.

(** ** The flags of the lobby *)

Lemma poll_move_flags ok move st :
  start (poll_move ok move st).2 = start st
  /\ battery (poll_move ok move st).2 = battery st
  /\ battery_pressed (poll_move ok move st).2 = battery_pressed st.
Proof.
  unfold poll_move, disconnect_move. cbv zeta.
  destruct ok; [|destruct (1000 <? _)]; repeat split.
Qed.

Lemma lobby_polled_flags rd move st :
  start (lobby_polled rd move st) = (get_buttons rd =? 2048) || start st
  /\ battery (lobby_polled rd move st) = (get_buttons rd =? 32) || battery st
  /\ battery_pressed (lobby_polled rd move st)
     = (get_buttons rd =? 32) || battery_pressed st.
Proof.
  unfold lobby_polled, disconnect_move. cbv zeta.
  destruct (Z.eqb_spec (get_buttons rd) 2048) as [H1|H1];
    destruct (Z.eqb_spec (get_buttons rd) 32) as [H2|H2];
    try (exfalso; lia);
    repeat match goal with
           | |- context [if ?c then _ else _] => destruct c; cbn
           | |- context [let '(_, _) := ?p in _] => destruct p as [[? ?] ?]; cbn
           end; repeat split.
Qed.

Lemma lobby_move_flags rd move st :
  start (lobby_move rd move st)
  = start st || (is_polled rd move st && (get_buttons rd =? 2048))
  /\ battery (lobby_move rd move st)
     = battery st || (is_polled rd move st && (get_buttons rd =? 32))
  /\ battery_pressed (lobby_move rd move st)
     = battery_pressed st || (is_polled rd move st && (get_buttons rd =? 32)).
Proof.
  unfold is_polled.
  destruct (lobby_move_cases rd move st)
    as [(Hc & Hnew & ->)|[(Hc & Hnew & ->)|(Husb & Hbt & ->)]].
  - rewrite Hc, (bool_decide_eq_false_2 _ Hnew), andb_false_r.
    cbn. rewrite !orb_false_r. repeat split.
  - rewrite Hc, (bool_decide_eq_false_2 _ Hnew), andb_false_r.
    cbn. rewrite !orb_false_r. repeat split.
  - assert (Hpaired :
              match connection_type move with
              | Conn_USB =>
                bool_decide (get_serial move ∈ usb_paired_controllers st)
              | Conn_Bluetooth =>
                bool_decide (get_serial move ∈ paired_controllers st)
              | Conn_Unknown => true
              end = true).
    { destruct (connection_type move); [| |reflexivity];
        apply bool_decide_eq_true_2; auto. }
    rewrite Hpaired, andb_true_r.
    destruct (poll rd).
    + destruct (lobby_polled_flags rd move (poll_move true move st).2)
        as (-> & -> & ->).
      destruct (poll_move_flags true move st) as (-> & -> & ->).
      cbn [andb]. repeat split; apply orb_comm.
    + destruct (poll_move_flags false move st) as (-> & -> & ->).
      cbn [andb]. rewrite !orb_false_r. repeat split.
Qed.

Lemma lobby_for_flags_kept tk l : forall st,
  (start st = true -> start (lobby_for tk l st) = true)
  /\ (battery_pressed st = true ->
      battery_pressed (lobby_for tk l st) = true)
  /\ ((battery_pressed st = true -> battery st = true) ->
      battery_pressed (lobby_for tk l st) = true ->
      battery (lobby_for tk l st) = true).
Proof.
  induction l as [|move rest IH]; intros st; cbn [lobby_for]; [tauto|].
  destruct (this move); [|tauto].
  destruct (lobby_move_flags (sense tk move) move st) as (Hs & Hb & Hp).
  destruct (IH (lobby_move (sense tk move) move st)) as (IHs & IHp & IHb).
  split; [|split].
  - intros Hstart. apply IHs. rewrite Hs, Hstart. reflexivity.
  - intros Hpressed. apply IHp. rewrite Hp, Hpressed. reflexivity.
  - intros Hinv. apply IHb. rewrite Hb, Hp.
    intros [H|H]%orb_prop; [rewrite (Hinv H); reflexivity|].
    rewrite H. apply orb_true_r.
Qed.

Lemma lobby_for_flags_set tk l : forall st,
  (start (lobby_for tk l st) = true ->
   start st = true
   \/ exists move, move ∈ l /\ poll (sense tk move) = true
                   /\ get_buttons (sense tk move) = 2048)
  /\ (battery_pressed (lobby_for tk l st) = true ->
      battery_pressed st = true
      \/ exists move, move ∈ l /\ poll (sense tk move) = true
                      /\ get_buttons (sense tk move) = 32).
Proof.
  induction l as [|move rest IH]; intros st; cbn [lobby_for]; [tauto|].
  destruct (this move); [|tauto].
  destruct (lobby_move_flags (sense tk move) move st) as (Hs & _ & Hp).
  destruct (IH (lobby_move (sense tk move) move st)) as [IHs IHp].
  assert (Hpolled : forall b, is_polled (sense tk move) move st && b = true ->
                              poll (sense tk move) = true /\ b = true).
  { unfold is_polled. intros b [[H1 _]%andb_prop H2]%andb_prop. auto. }
  split.
  - intros Hstart. destruct (IHs Hstart) as [H|(m & Hin & Hm)].
    + rewrite Hs in H. apply orb_prop in H as [H|H]; [tauto|].
      apply Hpolled in H as [Hok Hb]. right. exists move.
      split; [apply list_elem_of_here|]. split; [exact Hok|].
      apply Z.eqb_eq, Hb.
    + right. exists m. split; [apply list_elem_of_further, Hin|exact Hm].
  - intros Hpressed. destruct (IHp Hpressed) as [H|(m & Hin & Hm)].
    + rewrite Hp in H. apply orb_prop in H as [H|H]; [tauto|].
      apply Hpolled in H as [Hok Hb]. right. exists move.
      split; [apply list_elem_of_here|]. split; [exact Hok|].
      apply Z.eqb_eq, Hb.
    + right. exists m. split; [apply list_elem_of_further, Hin|exact Hm].
Qed.

Lemma lobby_tick_flags tk st :
  let st1 := lobby_for tk (connected tk)
               (set_moves (fun _ => connected tk)
                  (set_battery_pressed (fun _ => false) st)) in
  start (lobby_tick tk st) = start st1
  /\ battery_pressed (lobby_tick tk st) = battery_pressed st1
  /\ battery (lobby_tick tk st)
     = (if battery st1 && negb (battery_pressed st1) then false
        else battery st1).
Proof.
  unfold lobby_tick. cbv zeta. cbn [moves set_moves].
  destruct (_ && _); destruct (bool_decide _); repeat split.
Qed.

Lemma is_polled_lobby_move rd' other rd move st :
  is_polled rd move st = true ->
  is_polled rd move (lobby_move rd' other st) = true.
Proof.
  unfold is_polled. intros [Hok Hpaired]%andb_prop. rewrite Hok. cbn [andb].
  destruct (lobby_move_cases rd' other st)
    as [(_ & _ & ->)|[(_ & _ & ->)|(_ & _ & ->)]].
  - cbn [usb_paired_controllers paired_controllers emit set_out
         set_usb_paired_controllers].
    destruct (connection_type move); try exact Hpaired.
    apply bool_decide_eq_true_2, elem_of_app. left.
    exact (bool_decide_eq_true_1 _ Hpaired).
  - cbn [usb_paired_controllers paired_controllers emit set_out
         set_paired_controllers].
    destruct (connection_type move); try exact Hpaired.
    apply bool_decide_eq_true_2, elem_of_app. left.
    exact (bool_decide_eq_true_1 _ Hpaired).
  - destruct (poll rd').
    + destruct (lobby_polled_no_pairing rd' other (poll_move true other st).2)
        as (-> & -> & _).
      destruct (poll_move_no_pairing true other st) as (-> & -> & _).
      exact Hpaired.
    + destruct (poll_move_no_pairing false other st) as (-> & -> & _).
      exact Hpaired.
Qed.

Lemma lobby_for_pressed tk l move : forall st,
  Forall (fun m => this m = true) l ->
  move ∈ l ->
  is_polled (sense tk move) move st = true ->
  (get_buttons (sense tk move) = 2048 -> start (lobby_for tk l st) = true)
  /\ (get_buttons (sense tk move) = 32 ->
      battery_pressed (lobby_for tk l st) = true).
Proof.
  induction l as [|m rest IH]; intros st Hthis Hin Hpolled;
    [inversion Hin|].
  apply Forall_cons in Hthis as [Hm Hthis]. cbn [lobby_for]. rewrite Hm.
  destruct (lobby_move_flags (sense tk m) m st) as (Hs & _ & Hp).
  apply elem_of_cons in Hin as [<-|Hin].
  - rewrite Hpolled in Hs, Hp. split; intros Hb; rewrite Hb in *.
    + apply lobby_for_flags_kept. rewrite Hs. apply orb_true_r.
    + apply lobby_for_flags_kept. rewrite Hp. apply orb_true_r.
  - apply IH; [exact Hthis|exact Hin|].
    apply is_polled_lobby_move. exact Hpolled.
Qed.

(** X4.  The START flag is set by a device that answers the poll with the
    button mask 2048 exactly (a paired device, in a pass in which no
    initialisation fails before it), and by nothing else; once set it
    stays set for the rest of the lobby, so that the lobby exits at the
    first tick that ends with two or more joined devices, also when START
    was pressed before they joined. *)
Theorem start_flag_is_remembered (tk : Tick) (st : State) :
  (start st = true -> start (lobby_tick tk st) = true)
  /\ (start (lobby_tick tk st) = true ->
      start st = true
      \/ exists move, move ∈ connected tk /\ poll (sense tk move) = true
                      /\ get_buttons (sense tk move) = 2048)
  /\ (forall move,
        Forall (fun m => this m = true) (connected tk) ->
        move ∈ connected tk ->
        is_polled (sense tk move) move st = true ->
        get_buttons (sense tk move) = 2048 ->
        start (lobby_tick tk st) = true)
  /\ (start st = true ->
      (2 <= size (controllers_alive (lobby_tick tk st)))%nat ->
      lobby_exit (lobby_tick tk st) = true).
Proof.
  destruct (lobby_tick_flags tk st) as (Hstart & _ & _). cbv zeta in Hstart.
  assert (Hkept : start st = true -> start (lobby_tick tk st) = true).
  { intros H. rewrite Hstart. apply lobby_for_flags_kept. exact H. }
  split; [exact Hkept|]. split; [|split].
  - rewrite Hstart.
    exact (proj1 (lobby_for_flags_set tk (connected tk) _)).
  - intros move Hthis Hin Hpolled Hb. rewrite Hstart.
    apply (lobby_for_pressed tk (connected tk) move); assumption.
  - intros H Hsize. unfold lobby_exit. cbv zeta. rewrite (Hkept H).
    rewrite (proj2 (Nat.leb_le _ _) Hsize). apply orb_true_r.
Qed.

Lemma start_flag_is_remembered_witness :
  lobby_exit
    (lobby_tick (tick_of [pad "A"; pad "B"; pad "C"] ["A"; "B"] pulling)
       (lobby_ticks env_start_first (initial [] []))) = true.
Proof.
  apply (proj2 (proj2 (proj2
           (start_flag_is_remembered
              (tick_of [pad "A"; pad "B"; pad "C"] ["A"; "B"] pulling)
              (lobby_ticks env_start_first (initial [] [])))))).
  - vm_compute. reflexivity.
  - vm_compute. lia.
Defined.

(** X5.  At the end of every lobby tick the battery display is on exactly
    when the circle button was seen in this tick: the flag [battery]
    equals [battery_pressed], which is set only by a device that answers
    the poll with the button mask 32 exactly. *)
Theorem battery_display_follows_button (tk : Tick) (st : State) :
  battery (lobby_tick tk st) = battery_pressed (lobby_tick tk st)
  /\ (battery (lobby_tick tk st) = true ->
      exists move, move ∈ connected tk /\ poll (sense tk move) = true
                   /\ get_buttons (sense tk move) = 32)
  /\ (forall move,
        Forall (fun m => this m = true) (connected tk) ->
        move ∈ connected tk ->
        is_polled (sense tk move) move st = true ->
        get_buttons (sense tk move) = 32 ->
        battery (lobby_tick tk st) = true).
Proof.
  destruct (lobby_tick_flags tk st) as (_ & Hp & Hb). cbv zeta in Hp, Hb.
  set (st0 := set_moves (fun _ => connected tk)
                (set_battery_pressed (fun _ => false) st)) in *.
  assert (Hinv : battery_pressed (lobby_for tk (connected tk) st0) = true ->
                 battery (lobby_for tk (connected tk) st0) = true).
  { apply lobby_for_flags_kept. discriminate. }
  assert (Heq : battery (lobby_tick tk st)
                = battery_pressed (lobby_tick tk st)).
  { rewrite Hb, Hp.
    destruct (battery_pressed (lobby_for tk (connected tk) st0)) eqn:Hpressed.
    - rewrite (Hinv eq_refl). reflexivity.
    - destruct (battery (lobby_for tk (connected tk) st0)); reflexivity. }
  split; [exact Heq|]. split.
  - rewrite Heq, Hp. intros Hpressed.
    destruct (proj2 (lobby_for_flags_set tk (connected tk) st0) Hpressed)
      as [H|H]; [discriminate H|exact H].
  - intros move Hthis Hin Hpolled Hbutton. rewrite Heq, Hp.
    apply (lobby_for_pressed tk (connected tk) move); assumption.
Qed.

Lemma battery_display_follows_button_witness :
  battery
    (lobby_tick (tick_of [pad "A"] ["A"] (answer true 0 32 (0, 0, 0)%float))
       (lobby_ticks [tick_of [pad "A"] [] still] (initial [] []))) = true.
Proof.
  apply (proj2 (proj2
           (battery_display_follows_button
              (tick_of [pad "A"] ["A"] (answer true 0 32 (0, 0, 0)%float))
              (lobby_ticks [tick_of [pad "A"] [] still] (initial [] []))))
           (pad "A")).
  - repeat constructor.
  - apply list_elem_of_here.
  - vm_compute. reflexivity.
  - reflexivity.
Defined.

Lemma lobby_move_ticks rd move st : ticks (lobby_move rd move st) = ticks st.
Proof.
  destruct (lobby_move_cases rd move st)
    as [(_ & _ & ->)|[(_ & _ & ->)|(_ & _ & ->)]]; try reflexivity.
  assert (Hpoll : forall ok, ticks (poll_move ok move st).2 = ticks st).
  { intros ok. unfold poll_move, disconnect_move. cbv zeta.
    destruct ok; [|destruct (1000 <? _)]; reflexivity. }
  destruct (poll rd); [|apply Hpoll].
  rewrite <- (Hpoll true). generalize (poll_move true move st).2. intros st1.
  unfold lobby_polled, disconnect_move. cbv zeta.
  repeat match goal with
         | |- context [if ?c then _ else _] => destruct c; cbn
         | |- context [let '(_, _) := ?p in _] => destruct p as [[? ?] ?]; cbn
         end; reflexivity.
Qed.

Lemma lobby_tick_ticks tk st : ticks (lobby_tick tk st) = ticks st.
Proof.
  apply (invariant_lobby_tick (fun st' => ticks st' = ticks st));
    try reflexivity; try (intros ? ? H; exact H).
  intros rd move st0 H. rewrite lobby_move_ticks. exact H.
Qed.

Lemma lobby_tick_roster tk st :
  length (moves (lobby_tick tk st)) = length (connected_after tk).
Proof.
  unfold lobby_tick. cbv zeta.
  match goal with
  | |- context [bool_decide ?P] => destruct (bool_decide_reflect P) as [H|H]
  end.
  - reflexivity.
  - symmetry. apply dec_stable. exact H.
Qed.

Lemma lobby_while_exit env : forall st st',
  lobby_while env st = Done tt st' ->
  lobby_exit st' = true
  /\ exists used tk,
       env = used ++ tk :: ticks st'
       /\ length (moves st') = length (connected_after tk).
Proof.
  induction env as [|tk later IH]; intros st st'; cbn [lobby_while];
    [discriminate|].
  destruct (lobby_exit _) eqn:Hexit.
  - intros Hrun. inversion Hrun as [Hst]. clear Hrun. subst st'.
    split; [exact Hexit|]. exists [], tk.
    rewrite lobby_tick_ticks, lobby_tick_roster. split; reflexivity.
  - intros Hrun. destruct (IH _ _ Hrun) as (Hex & used & tk' & -> & Hlen).
    split; [exact Hex|]. exists (tk :: used), tk'. split; [reflexivity|].
    exact Hlen.
Qed.

(** X6.  The lobby hands over to the round only with at least one
    contestant.  The roster it hands over has as many devices as the
    transport counted in the last tick; unless START was pressed, the
    number of contestants is this count. *)
Theorem lobby_hands_over_contestants (st st' : State) :
  lobby st = Done tt st' ->
  (1 <= size (controllers_alive st'))%nat
  /\ (start st' = false ->
      size (controllers_alive st') = length (moves st'))
  /\ (size (controllers_alive st') <> length (moves st') ->
      (2 <= size (controllers_alive st'))%nat /\ start st' = true)
  /\ exists used tk,
       ticks st = used ++ tk :: ticks st'
       /\ length (moves st') = length (connected_after tk).
Proof.
  unfold lobby. cbv zeta. intros Hrun.
  apply lobby_while_exit in Hrun as (Hexit & Hticks).
  cbn [ticks set_start set_battery set_battery_pressed] in Hticks.
  unfold lobby_exit in Hexit. cbv zeta in Hexit.
  split; [|split; [|split; [|exact Hticks]]].
  - apply orb_prop in Hexit as [[_ H]%andb_prop|[H _]%andb_prop].
    + apply Nat.ltb_lt in H. lia.
    + apply Nat.leb_le in H. lia.
  - intros Hstart. rewrite Hstart, andb_false_r, orb_false_r in Hexit.
    apply andb_prop in Hexit as [H _]. apply Nat.eqb_eq, H.
  - intros Hne. apply orb_prop in Hexit as [[H _]%andb_prop|[H1 H2]%andb_prop].
    + apply Nat.eqb_eq in H. contradiction.
    + split; [apply Nat.leb_le, H1|exact H2].
Qed.

Lemma lobby_hands_over_contestants_witness :
  exists st',
    lobby (initial [] env_early_start) = Done tt st'
    /\ (1 <= size (controllers_alive st'))%nat.
Proof.
  eexists. split; [vm_compute; reflexivity|].
  apply (lobby_hands_over_contestants (initial [] env_early_start)).
  vm_compute. reflexivity.
Defined.

Lemma lobby_for_stops tk before bad after : forall st,
  Forall (fun m => this m = true) before ->
  this bad = false ->
  lobby_for tk (before ++ bad :: after) st
  = set_moves (fun _ => [])
      (emit [EvPrint "Move initialisation failed, reinitialising"]
         (lobby_for tk before st)).
Proof.
  induction before as [|m before IH]; intros st Hthis Hbad.
  - cbn [app lobby_for]. rewrite Hbad. reflexivity.
  - apply Forall_cons in Hthis as [Hm Hthis]. cbn [app lobby_for].
    rewrite Hm. apply IH; assumption.
Qed.

Lemma lobby_tick_fields tk st :
  let st1 := lobby_for tk (connected tk)
               (set_moves (fun _ => connected tk)
                  (set_battery_pressed (fun _ => false) st)) in
  out (lobby_tick tk st) = out st1
  /\ controllers_alive (lobby_tick tk st) = controllers_alive st1
  /\ poll_failures (lobby_tick tk st) = poll_failures st1
  /\ paired_controllers (lobby_tick tk st) = paired_controllers st1
  /\ usb_paired_controllers (lobby_tick tk st) = usb_paired_controllers st1
  /\ moves (lobby_tick tk st)
     = if bool_decide (length (connected_after tk) ≠ length (moves st1))
       then connected_after tk else moves st1.
Proof.
  unfold lobby_tick. cbv zeta. cbn [moves set_moves].
  destruct (_ && _); cbn [moves set_battery]; destruct (bool_decide _);
    repeat split.
Qed.

(** X7.  When the initialisation of a connected device has failed
    ([move.this == None]), the device pass stops there: the devices
    before it in the enumeration have been handled, it and the devices
    after it are not touched in this tick, and the roster the exit test
    sees is the re-enumeration of lines 136-137. *)
Theorem init_failure_abandons_pass (tk : Tick) (st : State)
    (before after : list PSMove) (bad : PSMove) :
  connected tk = before ++ bad :: after ->
  Forall (fun m => this m = true) before ->
  this bad = false ->
  let st1 := lobby_for tk before
               (set_moves (fun _ => connected tk)
                  (set_battery_pressed (fun _ => false) st)) in
  out (lobby_tick tk st)
  = out st1 ++ [EvPrint "Move initialisation failed, reinitialising"]
  /\ controllers_alive (lobby_tick tk st) = controllers_alive st1
  /\ poll_failures (lobby_tick tk st) = poll_failures st1
  /\ paired_controllers (lobby_tick tk st) = paired_controllers st1
  /\ usb_paired_controllers (lobby_tick tk st) = usb_paired_controllers st1
  /\ moves (lobby_tick tk st) = connected_after tk.
Proof.
  intros Hroster Hthis Hbad st1.
  destruct (lobby_tick_fields tk st) as (-> & -> & -> & -> & -> & ->).
  assert (Hfor : forall l st0,
            l = before ++ bad :: after ->
            lobby_for tk l st0
            = set_moves (fun _ => [])
                (emit [EvPrint "Move initialisation failed, reinitialising"]
                   (lobby_for tk before st0)))
    by (intros l st0 ->; apply lobby_for_stops; assumption).
  rewrite (Hfor _ _ Hroster). fold st1.
  cbn [out emit set_out set_moves moves controllers_alive poll_failures
       paired_controllers usb_paired_controllers].
  repeat (split; [reflexivity|]).
  destruct (bool_decide_reflect
              (length (connected_after tk) ≠ length (@nil PSMove)))
    as [_|Hlen]; [reflexivity|].
  apply dec_stable in Hlen. apply nil_length_inv in Hlen. congruence.
Qed.

Lemma init_failure_abandons_pass_witness :
  moves (lobby_tick tick_init_failure (initial [] []))
  = connected_after tick_init_failure.
Proof.
  apply (init_failure_abandons_pass tick_init_failure (initial [] [])
           [pad "A"] [pad "B"] (unready "X")).
  - reflexivity.
  - repeat constructor.
  - reflexivity.
Defined.

(** ** Eliminations *)

Lemma bind_done {A B} (c : M A) (k : A -> M B) st b st' :
  bind c k st = Done b st' ->
  exists a st1, c st = Done a st1 /\ k a st1 = Done b st'.
Proof.
  unfold bind. destruct (c st) as [a st1| |]; try discriminate.
  intros Hrun. exists a, st1. split; [reflexivity|exact Hrun].
Qed.

Lemma react_contestants verdict serial move st st' :
  react verdict serial move st = Done tt st' ->
  (verdict <> Eliminated /\ controllers_alive st' = controllers_alive st)
  \/ (verdict = Eliminated
      /\ is_Some (controllers_alive st !! serial)
      /\ controllers_alive st' = delete serial (controllers_alive st)).
Proof.
  destruct verdict; cbn [react].
  - intros Hrun. left. split; [discriminate|].
    apply bind_done in Hrun as (colour & st1 & Hcolour & Hrun).
    apply bind_done in Hrun as ([] & st2 & Hset & Hrun).
    unfold palette_colour in Hcolour.
    destruct (_ !! _); [|discriminate]. inversion Hcolour. subst st1.
    destruct colour as [|r [|g [|b [|]]]]; cbn [set_leds_star] in Hset;
      try discriminate.
    inversion Hset. subst st2. inversion Hrun. reflexivity.
  - intros Hrun. left. split; [discriminate|].
    apply bind_done in Hrun as (colour & st1 & Hcolour & Hrun).
    unfold palette_colour in Hcolour.
    destruct (_ !! _); [|discriminate]. inversion Hcolour. subst st1.
    destruct (scaled colour) as [e|dimmed]; [discriminate|].
    destruct dimmed as [|r [|g [|b [|]]]]; cbn [set_leds_star] in Hrun;
      try discriminate.
    inversion Hrun. reflexivity.
  - unfold bind, exec, del_alive.
    cbn [controllers_alive emit set_out].
    destruct (controllers_alive st !! serial) eqn:Hin; [|discriminate].
    intros H. inversion H. right. split; [reflexivity|].
    split; [eexists; reflexivity|reflexivity].
  - intros H. inversion H. left. split; [discriminate|reflexivity].
Qed.

Lemma poll_move_round ok move st :
  move_last_values (poll_move ok move st).2 = move_last_values st
  /\ running (poll_move ok move st).2 = running st
  /\ controller_colours (poll_move ok move st).2 = controller_colours st.
Proof.
  unfold poll_move, disconnect_move. cbv zeta.
  destruct ok; [|destruct (1000 <? _)]; repeat split.
Qed.

Lemma update_move_contestants rd serial move st st' :
  update_move rd serial move st = Done tt st' ->
  controllers_alive st' = controllers_alive st
  \/ (controllers_alive st' = delete serial (controllers_alive st)
      /\ is_Some (controllers_alive st !! serial)
      /\ poll rd = true
      /\ exists baseline,
           move_last_values st !! serial = Some baseline
           /\ classify baseline (sample_total (get_accelerometer_frame rd))
              = Eliminated).
Proof.
  destruct (poll rd) eqn:Hok.
  - rewrite (update_move_polled rd serial move st Hok).
    destruct (poll_move_round true move st) as (Hlast & _ & _).
    pose proof (poll_move_alive true move st) as Halive.
    revert Hlast Halive. generalize (poll_move true move st).2. intros st1.
    intros <- <-. unfold bind at 1.
    destruct (react _ serial move st1) as [[] st2| |] eqn:Hreact;
      try discriminate.
    unfold bind, exec. cbn. intros H. inversion H. clear H.
    cbn [controllers_alive set_move_last_values emit set_out].
    destruct (react_contestants _ _ _ _ _ Hreact)
      as [[_ ->]|(Hv & Hin & ->)]; [left; reflexivity|].
    right. split; [reflexivity|]. split; [exact Hin|]. split; [reflexivity|].
    unfold motion_verdict in Hv.
    destruct (move_last_values st1 !! serial) as [baseline|];
      [|discriminate]. exists baseline. auto.
  - unfold update_move.
    pose proof (poll_move_result (poll rd) move st) as Hres.
    pose proof (poll_move_alive (poll rd) move st) as Halive.
    destruct (poll_move (poll rd) move st) as [ok st1]. cbn in Hres, Halive.
    rewrite Hres, Hok. intros H. inversion H. subst. left. exact Halive.
Qed.

Lemma classify_eliminated baseline total :
  classify baseline total = Eliminated <->
  (0.7 <? change baseline total)%float = true.
Proof.
  unfold classify. destruct (0.7 <? change baseline total)%float.
  - tauto.
  - destruct (0.2 <? change baseline total)%float; split; discriminate.
Qed.

Lemma update_move_eliminates rd serial move st baseline :
  poll rd = true ->
  move_last_values st !! serial = Some baseline ->
  (0.7 <? change baseline (sample_total (get_accelerometer_frame rd)))%float
  = true ->
  is_Some (controllers_alive st !! serial) ->
  exists st',
    update_move rd serial move st = Done tt st'
    /\ controllers_alive st' = delete serial (controllers_alive st)
    /\ out st' = out st ++ [EvPoll (get_serial move);
                            EvPrint ("DEAD " +:+ serial);
                            EvSetLeds (get_serial move) 0 0 0;
                            EvSetRumble (get_serial move) 100;
                            EvUpdateLeds (get_serial move)]
    /\ move_last_values st'
       = <[serial := sample_total (get_accelerometer_frame rd)]>
           (move_last_values st)
    /\ clock st' = clock st
    /\ running st' = running st.
Proof.
  intros Hok Hbase Hfar [m Hm].
  rewrite (update_move_polled rd serial move st Hok), poll_move_ok.
  cbn [snd move_last_values set_poll_failures emit set_out].
  rewrite Hbase. cbn [motion_verdict].
  rewrite (proj2 (classify_eliminated _ _) Hfar). cbn [react].
  unfold bind, exec, del_alive.
  cbn [controllers_alive set_poll_failures emit set_out]. rewrite Hm.
  eexists. split; [reflexivity|].
  cbn [controllers_alive out move_last_values set_move_last_values
       emit set_out set_controllers_alive set_poll_failures clock running].
  rewrite <- !app_assoc. repeat split.
Qed.

(** X8.  In the per-contestant update of a pass a contestant is removed
    only by its own motion: when [update_move] changes the contestants,
    it has removed the contestant it was called for, whose poll succeeded
    and whose sample sum is more than 0.7 away from its stored baseline.
    Conversely such a sample removes the contestant, leaves its device
    dark and rumbling, and is stored as the baseline; this needs no
    palette colour. *)
Theorem elimination_needs_own_motion (rd : Reading) (serial : string)
    (move : PSMove) (st : State) :
  let total := sample_total (get_accelerometer_frame rd) in
  (forall st',
     update_move rd serial move st = Done tt st' ->
     controllers_alive st' <> controllers_alive st ->
     controllers_alive st' = delete serial (controllers_alive st)
     /\ poll rd = true
     /\ exists baseline,
          move_last_values st !! serial = Some baseline
          /\ (0.7 <? change baseline total)%float = true)
  /\ (forall baseline,
        poll rd = true ->
        move_last_values st !! serial = Some baseline ->
        (0.7 <? change baseline total)%float = true ->
        is_Some (controllers_alive st !! serial) ->
        exists st',
          update_move rd serial move st = Done tt st'
          /\ controllers_alive st' = delete serial (controllers_alive st)
          /\ out st' = out st ++ [EvPoll (get_serial move);
                                  EvPrint ("DEAD " +:+ serial);
                                  EvSetLeds (get_serial move) 0 0 0;
                                  EvSetRumble (get_serial move) 100;
                                  EvUpdateLeds (get_serial move)]
          /\ move_last_values st' = <[serial := total]> (move_last_values st)).
Proof.
  cbv zeta. split.
  - intros st' Hrun Hchanged.
    destruct (update_move_contestants _ _ _ _ _ Hrun)
      as [Hsame|(Hdel & _ & Hok & baseline & Hbase & Hv)]; [contradiction|].
    split; [exact Hdel|]. split; [exact Hok|]. exists baseline.
    split; [exact Hbase|]. apply classify_eliminated, Hv.
  - intros baseline Hok Hbase Hfar Hin.
    destruct (update_move_eliminates rd serial move st baseline
                Hok Hbase Hfar Hin)
      as (st' & Hrun & Halive & Hout & Hlast & _).
    exists st'. auto.
Qed.

Lemma elimination_needs_own_motion_witness :
  exists st',
    update_move jolt "A" (pad "A") sampling = Done tt st'
    /\ controllers_alive st' = delete "A" (controllers_alive sampling).
Proof.
  destruct (proj2 (elimination_needs_own_motion jolt "A" (pad "A") sampling)
              1%float eq_refl)
    as (st' & Hrun & Halive & _).
  - vm_compute. reflexivity.
  - vm_compute. reflexivity.
  - exists (pad "A"). vm_compute. reflexivity.
  - exists st'. split; assumption.
Defined.

Lemma update_move_first rd serial move st :
  move_last_values st !! serial = None ->
  update_move rd serial move st = Done tt (first_sample rd serial move st).
Proof.
  intros Hnone. unfold first_sample. destruct (poll rd) eqn:Hok.
  - rewrite (update_move_polled rd serial move st Hok), Hnone.
    reflexivity.
  - unfold update_move.
    pose proof (poll_move_result (poll rd) move st) as Hres.
    destruct (poll_move (poll rd) move st) as [ok st1] eqn:Hp.
    cbn in Hres. rewrite Hres, Hok. rewrite <- Hok, Hp. reflexivity.
Qed.

Lemma first_sample_fields rd serial move st :
  controllers_alive (first_sample rd serial move st) = controllers_alive st
  /\ running (first_sample rd serial move st) = running st
  /\ controller_colours (first_sample rd serial move st)
     = controller_colours st
  /\ move_last_values (first_sample rd serial move st)
     = if poll rd
       then <[serial := sample_total (get_accelerometer_frame rd)]>
              (move_last_values st)
       else move_last_values st.
Proof.
  unfold first_sample. destruct (poll rd).
  - cbn [controllers_alive running controller_colours move_last_values
         set_move_last_values emit set_out].
    rewrite poll_move_alive.
    destruct (poll_move_round true move st) as (-> & -> & ->). repeat split.
  - rewrite poll_move_alive.
    destruct (poll_move_round false move st) as (-> & -> & ->). repeat split.
Qed.

Lemma size_one_singleton {V} (d : gmap string V) :
  size d = 1%nat -> exists key value, d = {[key := value]}.
Proof.
  intros Hsize. rewrite <- length_map_to_list in Hsize.
  destruct (map_to_list d) as [|[key value] [|]] eqn:Hlist; try discriminate.
  exists key, value. rewrite <- (list_to_map_to_list d), Hlist.
  cbn [list_to_map foldr]. apply insert_empty.
Qed.

Lemma same_roster_refl st : same_roster st st.
Proof. split; reflexivity. Qed.

Lemma same_roster_trans st1 st2 st3 :
  same_roster st1 st2 -> same_roster st2 st3 -> same_roster st1 st3.
Proof. intros [? ?] [? ?]. split; congruence. Qed.

Section RoundPass.

Variable dict_items : gmap string PSMove -> list (string * PSMove).

Hypothesis items_listed : forall d, dict_items d ≡ₚ map_to_list d.

Lemma pending_snapshot st : pending (dict_items (controllers_alive st)) st.
Proof using items_listed.
  split; [apply items_keys_distinct, items_listed|].
  intros key move. apply items_lookup, items_listed.
Qed.

Lemma pending_update rd serial move rest st st' :
  pending ((serial, move) :: rest) st ->
  update_move rd serial move st = Done tt st' ->
  pending rest st'.
Proof using Type.
  intros [Hnodup Hin] Hrun. cbn [fmap list_fmap fst] in Hnodup.
  apply NoDup_cons in Hnodup as [Hfresh Hnodup].
  split; [exact Hnodup|]. intros key m Hkm.
  assert (Hne : key <> serial).
  { intros ->. apply Hfresh, list_elem_of_fmap. exists (serial, m). auto. }
  specialize (Hin key m (list_elem_of_further _ _ _ Hkm)).
  destruct (update_move_contestants _ _ _ _ _ Hrun) as [->|(-> & _)];
    [exact Hin|].
  rewrite lookup_delete_ne by congruence. exact Hin.
Qed.

Lemma pending_sole serial move rest st :
  pending ((serial, move) :: rest) st ->
  size (controllers_alive st) = 1%nat ->
  controllers_alive st = {[serial := move]} /\ rest = [].
Proof using Type.
  intros [Hnodup Hin] Hsize.
  apply size_one_singleton in Hsize as (k & m & Halive).
  rewrite Halive in Hin.
  assert (Hhead := Hin serial move (list_elem_of_here _ _)).
  apply lookup_singleton_Some in Hhead as [-> ->].
  split; [exact Halive|].
  destruct rest as [|[key' m'] rest]; [reflexivity|exfalso].
  assert (Hnext := Hin key' m'
                     (list_elem_of_further _ _ _ (list_elem_of_here _ _))).
  apply lookup_singleton_Some in Hnext as [-> _].
  cbn [fmap list_fmap fst] in Hnodup. apply NoDup_cons in Hnodup as [H _].
  apply H, list_elem_of_here.
Qed.

Lemma round_for_first tk items : forall st,
  size (controllers_alive st) <> 1%nat ->
  NoDup items.*1 ->
  (forall key move, (key, move) ∈ items ->
                    move_last_values st !! key = None) ->
  exists st',
    round_for dict_items tk items st = Done tt st'
    /\ controllers_alive st' = controllers_alive st
    /\ running st' = running st
    /\ controller_colours st' = controller_colours st
    /\ (forall key, key ∉ items.*1 ->
          move_last_values st' !! key = move_last_values st !! key)
    /\ (forall key move, (key, move) ∈ items ->
          move_last_values st' !! key
          = if poll (sense tk move)
            then Some (sample_total (get_accelerometer_frame (sense tk move)))
            else None).
Proof using Type.
  induction items as [|[serial move] rest IH]; intros st Hsize Hnodup Hnone.
  - exists st. split; [reflexivity|]. repeat split; [].
    intros key move Hin. inversion Hin.
  - cbn [fmap list_fmap fst] in Hnodup.
    apply NoDup_cons in Hnodup as [Hfresh Hnodup].
    cbn [round_for]. rewrite (proj2 (Nat.eqb_neq _ _) Hsize).
    unfold bind at 1.
    rewrite (update_move_first _ serial move st
               (Hnone serial move (list_elem_of_here _ _))).
    destruct (first_sample_fields (sense tk move) serial move st)
      as (Halive & Hrunning & Hpalette & Hlast).
    set (st1 := first_sample (sense tk move) serial move st) in *.
    assert (Hother : forall key, key <> serial ->
              move_last_values st1 !! key = move_last_values st !! key).
    { intros key Hne. rewrite Hlast. destruct (poll (sense tk move));
        [|reflexivity]. apply lookup_insert_ne. congruence. }
    destruct (IH st1) as (st' & Hrun & Ha & Hr & Hp & Hout & Hin).
    + rewrite Halive. exact Hsize.
    + exact Hnodup.
    + intros key m Hkm. rewrite Hother.
      * apply (Hnone key m), list_elem_of_further, Hkm.
      * intros ->. apply Hfresh, list_elem_of_fmap. exists (serial, m). auto.
    + exists st'. split; [exact Hrun|].
      split; [congruence|]. split; [congruence|]. split; [congruence|].
      split.
      * intros key Hkey. apply not_elem_of_cons in Hkey as [Hne Hkey].
        rewrite (Hout key Hkey). apply Hother, Hne.
      * intros key m Hkm. apply elem_of_cons in Hkm as [[= -> ->]|Hkm];
          [|exact (Hin key m Hkm)].
        rewrite (Hout serial Hfresh), Hlast.
        destruct (poll (sense tk move)).
        -- apply lookup_insert_eq.
        -- apply (Hnone serial move), list_elem_of_here.
Qed.

Lemma round_start_state st st' :
  round_start dict_items st = Done tt st' ->
  controllers_alive st' = controllers_alive st
  /\ moves st' = moves st
  /\ move_last_values st' = ∅
  /\ running st' = true.
Proof using Type.
  unfold round_start. intros Hrun.
  apply bind_done in Hrun as ([] & st1 & H1 & Hrun).
  apply bind_done in Hrun as ([] & st2 & H2 & Hrun).
  apply bind_done in Hrun as ([] & st3 & H3 & Hrun).
  apply bind_done in Hrun as ([] & st4 & H4 & Hrun).
  unfold bind, exec in Hrun. inversion Hrun. clear Hrun.
  cbn [controllers_alive move_last_values running moves set_running
       set_move_last_values].
  assert (Hkept : same_roster st st4).
  { inversion H1. subst st1. clear H1.
    apply (same_roster_trans _ st2).
    - apply (same_roster_trans _ (emit [EvPrint "GAME START"] st));
        [exact (same_roster_refl st)|].
      revert H2. apply preserves_regenerate_colours;
        first [exact same_roster_trans
              | intros f s; exact (same_roster_refl s)].
    - apply (same_roster_trans _ st3).
      + revert H3. apply preserves_intro;
          first [exact same_roster_refl | exact same_roster_trans
                | intros f s; exact (same_roster_refl s)
                | intros es s _; exact (same_roster_refl s)].
      + revert H4. apply preserves_individual_colours;
          first [exact same_roster_refl | exact same_roster_trans
                | intros es s _; exact (same_roster_refl s)]. }
  destruct Hkept as [-> ->]. repeat split.
Qed.

(** X9.  The round start leaves no motion baseline, so the first pass of
    a round with two or more contestants removes no one and runs no win
    sequence, whatever the devices report: it ends with the same
    contestants, still running, and has stored the sample sum of every
    contestant whose poll succeeded. *)
Theorem first_pass_eliminates_no_one (tk : Tick) (st0 st : State) :
  round_start dict_items st0 = Done tt st ->
  size (controllers_alive st0) <> 1%nat ->
  exists st',
    round_for dict_items tk (dict_items (controllers_alive st)) st
    = Done tt st'
    /\ controllers_alive st' = controllers_alive st0
    /\ running st' = true
    /\ forall key move,
         controllers_alive st0 !! key = Some move ->
         move_last_values st' !! key
         = if poll (sense tk move)
           then Some (sample_total (get_accelerometer_frame (sense tk move)))
           else None.
Proof using items_listed.
  intros Hstart Hsize.
  apply round_start_state in Hstart as (Halive & _ & Hlast & Hrunning).
  destruct (round_for_first tk (dict_items (controllers_alive st)) st)
    as (st' & Hrun & Ha & Hr & _ & _ & Hin).
  - rewrite Halive. exact Hsize.
  - apply items_keys_distinct, items_listed.
  - intros key move _. rewrite Hlast. apply lookup_empty.
  - exists st'. split; [exact Hrun|]. split; [congruence|].
    split; [congruence|]. intros key move Hkm. apply Hin.
    apply items_lookup; [exact items_listed|]. rewrite Halive. exact Hkm.
Qed.

Lemma while_before_done pause_time body readings : forall st st',
  while_before pause_time body readings st = Done tt st' ->
  exists before after rest,
    readings = before ++ after :: rest
    /\ Forall (fun t => (t <? pause_time)%float = true) before
    /\ (after <? pause_time)%float = false.
Proof using Type.
  induction readings as [|t later IH]; intros st st'; cbn [while_before];
    [discriminate|].
  destruct (t <? pause_time)%float eqn:Ht.
  - destruct (body st) as [[] st1| |]; try discriminate.
    intros Hrun.
    destruct (IH _ _ Hrun) as (before & after & rest & -> & H1 & H2).
    exists (t :: before), after, rest. split; [reflexivity|].
    split; [constructor; assumption|exact H2].
  - intros _. exists [], t, later. split; [reflexivity|].
    split; [constructor|exact Ht].
Qed.

Lemma win_done serial st st' :
  win dict_items serial st = Done tt st' ->
  exists rest n, elapses 3 (clock st) rest n.
Proof using Type.
  unfold win. intros Hrun.
  apply bind_done in Hrun as ([] & st1 & H1 & Hrun). inversion H1. subst st1.
  apply bind_done in Hrun as ([] & st2 & H2 & Hrun). inversion H2. subst st2.
  apply bind_done in Hrun as (hsv & st3 & H3 & Hrun). inversion H3.
  subst st3 hsv. clear H1 H2 H3.
  destruct (rgb_range _); [discriminate|].
  apply bind_done in Hrun as ([] & st4 & H4 & Hrun). inversion H4. subst st4.
  apply bind_done in Hrun as (items & st5 & H5 & Hrun). inversion H5.
  subst st5. clear H4 H5.
  destruct items as [|[key move] more]; [discriminate|].
  apply bind_done in Hrun as (now & st6 & H6 & Hrun).
  unfold time_time in H6.
  cbn [clock set_colour_range set_HSV emit set_out] in H6.
  destruct (clock st) as [|t later] eqn:Hclock; [discriminate|].
  inversion H6. subst now st6. clear H6.
  apply bind_done in Hrun as (roster & st7 & H7 & Hrun). inversion H7.
  subst st7. clear H7.
  apply bind_done in Hrun as ([] & st8 & H8 & Hrun).
  rewrite (for_each_emit dark_events) in H8. inversion H8. subst st8.
  clear H8.
  apply bind_done in Hrun as ([] & st9 & H9 & _).
  unfold while_time_before in H9.
  cbn [clock set_clock set_colour_range set_HSV emit set_out] in H9.
  apply while_before_done in H9 as (before & after & rest & -> & Hb & Ha).
  exists rest, (length before), t, before, after. repeat split; assumption.
Qed.

Lemma update_move_running rd serial move st st' :
  update_move rd serial move st = Done tt st' -> running st' = running st.
Proof using Type.
  apply (preserves_update_move (fun s s' => running s' = running s));
    try reflexivity.
  intros s1 s2 s3 H1 H2. congruence.
Qed.

Lemma round_for_ends tk items : forall st st',
  pending items st ->
  running st = true ->
  round_for dict_items tk items st = Done tt st' ->
  running st' = false ->
  exists serial move st1 rest n,
    (serial, move) ∈ items
    /\ controllers_alive st1 = {[serial := move]}
    /\ elapses 3 (clock st1) rest n
    /\ st' = after_win serial move rest n st1.
Proof using items_listed.
  induction items as [|[serial move] later IH]; intros st st' Hpend Hon;
    cbn [round_for].
  - intros Hrun. inversion Hrun. congruence.
  - destruct (Nat.eqb_spec (size (controllers_alive st)) 1) as [Hone|Hmore].
    + intros Hwin _.
      destruct (pending_sole _ _ _ _ Hpend Hone) as [Halive _].
      destruct (win_done _ _ _ Hwin) as (rest & n & Hclock).
      exists serial, move, st, rest, n.
      split; [apply list_elem_of_here|]. split; [exact Halive|].
      split; [exact Hclock|].
      rewrite (win_runs dict_items serial serial move [] rest n st) in Hwin.
      * inversion Hwin. reflexivity.
      * rewrite Halive. apply items_singleton, items_listed.
      * exact Hclock.
    + intros Hrun Hoff.
      apply bind_done in Hrun as ([] & st1 & Hupdate & Hrun).
      destruct (IH st1 st') as (s & m & st2 & rest & n & Hin & Hrest).
      * exact (pending_update _ _ _ _ _ _ Hpend Hupdate).
      * rewrite (update_move_running _ _ _ _ _ Hupdate). exact Hon.
      * exact Hrun.
      * exact Hoff.
      * exists s, m, st2, rest, n.
        split; [apply list_elem_of_further, Hin|exact Hrest].
Qed.

(** X10.  A pass of the round loop ends the round only by the win sequence
    for the sole remaining contestant: when the per-contestant loop of
    lines 170-234 returns with [running] false, it has reached a state
    with exactly one contestant, which was a contestant under the same
    serial when the pass began, and has run the win sequence that
    announces this serial and shows the rainbow on its device. *)
Theorem pass_ends_round_by_win (tk : Tick) (st st' : State) :
  running st = true ->
  round_for dict_items tk (dict_items (controllers_alive st)) st
  = Done tt st' ->
  running st' = false ->
  exists serial move st1 rest n,
    controllers_alive st !! serial = Some move
    /\ controllers_alive st1 = {[serial := move]}
    /\ elapses 3 (clock st1) rest n
    /\ st' = after_win serial move rest n st1.
Proof using items_listed.
  intros Hon Hrun Hoff.
  destruct (round_for_ends tk _ st st' (pending_snapshot st) Hon Hrun Hoff)
    as (serial & move & st1 & rest & n & Hin & Hrest).
  exists serial, move, st1, rest, n. split; [|exact Hrest].
  apply (items_lookup dict_items items_listed). exact Hin.
Qed.

Lemma win_stops serial st st' :
  win dict_items serial st = Done tt st' -> running st' = false.
Proof using Type.
  unfold win. intros Hrun.
  apply bind_done in Hrun as ([] & st1 & _ & Hrun).
  apply bind_done in Hrun as ([] & st2 & _ & Hrun).
  apply bind_done in Hrun as (hsv & st3 & _ & Hrun).
  destruct (rgb_range hsv); [discriminate|].
  apply bind_done in Hrun as ([] & st4 & _ & Hrun).
  apply bind_done in Hrun as (items & st5 & _ & Hrun).
  destruct items as [|[key move] more]; [discriminate|].
  apply bind_done in Hrun as (now & st6 & _ & Hrun).
  apply bind_done in Hrun as (roster & st7 & _ & Hrun).
  apply bind_done in Hrun as ([] & st8 & _ & Hrun).
  apply bind_done in Hrun as ([] & st9 & _ & Hrun).
  unfold bind, exec in Hrun. inversion Hrun. reflexivity.
Qed.

Lemma round_for_keeps_one tk items : forall st st',
  running st = true ->
  (1 <= size (controllers_alive st))%nat ->
  round_for dict_items tk items st = Done tt st' ->
  running st' = true ->
  (1 <= size (controllers_alive st'))%nat.
Proof using Type.
  induction items as [|[serial move] later IH]; intros st st' Hon Hsize;
    cbn [round_for].
  - intros Hrun _. inversion Hrun. subst. exact Hsize.
  - destruct (Nat.eqb_spec (size (controllers_alive st)) 1) as [Hone|Hmore].
    + intros Hwin Hstill. apply win_stops in Hwin. congruence.
    + intros Hrun. apply bind_done in Hrun as ([] & st1 & Hupdate & Hrun).
      apply (IH st1 st'); [|  |exact Hrun].
      * rewrite (update_move_running _ _ _ _ _ Hupdate). exact Hon.
      * destruct (update_move_contestants _ _ _ _ _ Hupdate)
          as [->|(-> & [m Hm] & _)]; [exact Hsize|].
        rewrite map_size_delete_Some by (exists m; exact Hm). lia.
Qed.

(** X11.  Motion never removes the last contestant: a pass that begins
    with at least one contestant and does not run the win sequence ends
    with at least one contestant.  In particular, when two contestants
    are left and the one the pass reaches first is eliminated, the other
    one wins in the same pass whatever its own sample is. *)
Theorem last_contestant_is_never_eliminated (tk : Tick) (st : State) :
  running st = true ->
  (1 <= size (controllers_alive st))%nat ->
  (forall items st',
     round_for dict_items tk items st = Done tt st' ->
     running st' = true ->
     (1 <= size (controllers_alive st'))%nat)
  /\ (forall serial move other rival baseline rest n,
        serial <> other ->
        controllers_alive st = {[serial := move; other := rival]} ->
        poll (sense tk move) = true ->
        move_last_values st !! serial = Some baseline ->
        (0.7 <? change baseline
                  (sample_total
                     (get_accelerometer_frame (sense tk move))))%float
        = true ->
        elapses 3 (clock st) rest n ->
        exists st1,
          update_move (sense tk move) serial move st = Done tt st1
          /\ controllers_alive st1 = {[other := rival]}
          /\ round_for dict_items tk [(serial, move); (other, rival)] st
             = Done tt (after_win other rival rest n st1)).
Proof using items_listed.
  intros Hon Hsize. split.
  - intros items st'. apply round_for_keeps_one; assumption.
  - intros serial move other rival baseline rest n Hne Halive Hok Hbase Hfar
      Hclock.
    destruct (update_move_eliminates (sense tk move) serial move st baseline
                Hok Hbase Hfar)
      as (st1 & Hrun & Halive1 & _ & _ & Hclock1 & _).
    { rewrite Halive, lookup_insert_eq. eexists. reflexivity. }
    assert (Hleft : controllers_alive st1 = {[other := rival]}).
    { rewrite Halive1, Halive, delete_insert_eq.
      apply delete_singleton_ne. exact Hne. }
    exists st1. split; [exact Hrun|]. split; [exact Hleft|].
    cbn [round_for].
    rewrite Halive, map_size_insert_None, map_size_singleton
      by (apply lookup_singleton_ne; congruence).
    cbn [Nat.eqb]. unfold bind at 1. rewrite Hrun.
    rewrite Hleft, map_size_singleton. cbn [Nat.eqb].
    apply (win_runs dict_items other other rival []).
    + rewrite Hleft. apply items_singleton, items_listed.
    + rewrite Hclock1. exact Hclock.
Qed.

Lemma pass_without_contestants tk st :
  controllers_alive st = ∅ ->
  running st = true ->
  exists st',
    round_pass dict_items tk st = Done tt st'
    /\ controllers_alive st' = ∅
    /\ out st' = out st
    /\ (running st' = false -> moves st' = [])
    /\ (connected_after tk <> [] -> running st' = true).
Proof using items_listed.
  intros Hnone Hon. unfold round_pass, bind at 1, gets at 1.
  rewrite Hnone, (items_empty dict_items items_listed). cbn [round_for].
  unfold bind at 1.
  destruct (decide (length (connected_after tk) = length (moves st)))
    as [Hsame|Hchanged].
  - rewrite (reconcile_same dict_items tk st Hon Hsame).
    eexists. split; [reflexivity|].
    destruct (Nat.eqb_spec (length (moves st)) 0) as [Hzero|Hsome].
    + cbn [controllers_alive out running moves set_running].
      split; [exact Hnone|]. split; [reflexivity|].
      split; [intros _; apply nil_length_inv, Hzero|].
      intros Hdev. destruct (connected_after tk); [congruence|].
      rewrite <- Hsame in Hzero. discriminate Hzero.
    + split; [exact Hnone|]. split; [reflexivity|].
      split; [congruence|]. intros _. exact Hon.
  - rewrite (reconcile_changed dict_items items_listed tk st Hon Hchanged).
    eexists. split; [reflexivity|]. cbv zeta.
    destruct (Nat.eqb_spec (length (connected_after tk)) 0) as [Hzero|Hsome];
      cbn [controllers_alive out running moves set_running
           set_controllers_alive set_moves];
      rewrite Hnone, map_filter_empty.
    + split; [reflexivity|]. split; [reflexivity|].
      split; [intros _; apply nil_length_inv, Hzero|].
      intros Hdev. destruct (connected_after tk); [congruence|].
      discriminate Hzero.
    + split; [reflexivity|]. split; [reflexivity|].
      split; [congruence|]. intros _. exact Hon.
Qed.

Lemma round_while_without_contestants env : forall st st',
  controllers_alive st = ∅ ->
  running st = true ->
  round_while dict_items env st = Done tt st' ->
  moves st' = [] /\ controllers_alive st' = ∅ /\ out st' = out st.
Proof using items_listed.
  induction env as [|tk later IH]; intros st st' Hnone Hon;
    cbn [round_while]; rewrite Hon; [discriminate|].
  destruct (pass_without_contestants tk (set_ticks (fun _ => later) st)
              Hnone Hon)
    as (st1 & -> & Hnone1 & Hout1 & Hoff & _).
  destruct (running st1) eqn:Hon1.
  - intros Hrun. destruct (IH _ _ Hnone1 Hon1 Hrun) as (H1 & H2 & H3).
    split; [exact H1|]. split; [exact H2|]. rewrite H3. exact Hout1.
  - rewrite (round_while_stopped dict_items later st1 Hon1).
    intros Hrun. inversion Hrun. subst st1. auto.
Qed.

(** X12.  When the reconciliation of lines 239-245 removes every
    contestant while devices stay connected, the round goes on with no
    contestant.  From then on every pass returns without sending
    anything to any device and announces no winner; the loop ends only
    with an empty roster, that is, after a re-enumeration that found no
    connected device, and it does not end while the number of connected
    devices stays what it is. *)
Theorem round_without_contestants_is_silent (tk : Tick) (st : State) :
  running st = true ->
  length (connected_after tk) <> length (moves st) ->
  connected_after tk <> [] ->
  (forall serial, serial ∈ dom (controllers_alive st) ->
                  serial ∉ get_serial <$> connected_after tk) ->
  exists st1,
    reconcile dict_items tk st = Done tt st1
    /\ controllers_alive st1 = ∅
    /\ running st1 = true
    /\ moves st1 = connected_after tk
    /\ (forall tk' st2,
          controllers_alive st2 = ∅ -> running st2 = true ->
          exists st3,
            round_pass dict_items tk' st2 = Done tt st3
            /\ controllers_alive st3 = ∅
            /\ out st3 = out st2)
    /\ (forall env st',
          round_while dict_items env st1 = Done tt st' ->
          moves st' = [] /\ controllers_alive st' = ∅ /\ out st' = out st1)
    /\ (forall env,
          Forall (fun tk' => length (connected_after tk')
                             = length (connected_after tk)) env ->
          round_while dict_items env st1 = Starved).
Proof using items_listed.
  intros Hon Hchanged Hdev Hgone.
  rewrite (reconcile_changed dict_items items_listed tk st Hon Hchanged).
  cbv zeta.
  assert (Hsome : Nat.eqb (length (connected_after tk)) 0 = false).
  { destruct (connected_after tk); [congruence|reflexivity]. }
  rewrite Hsome. eexists. split; [reflexivity|].
  assert (Hnone : filter (fun kv : string * PSMove =>
                            kv.1 ∈ get_serial <$> connected_after tk)
                    (controllers_alive st) = ∅).
  { apply map_empty_filter. intros key move Hkm Hin. cbn [fst] in Hin.
    apply (Hgone key); [|exact Hin]. apply elem_of_dom. eexists. exact Hkm. }
  cbn [controllers_alive running moves set_controllers_alive set_moves].
  split; [exact Hnone|]. split; [exact Hon|]. split; [reflexivity|].
  split; [|split].
  - intros tk' st2 Hnone2 Hon2.
    destruct (pass_without_contestants tk' st2 Hnone2 Hon2)
      as (st3 & Hpass & Hnone3 & Hout3 & _).
    exists st3. auto.
  - intros env st'. apply round_while_without_contestants;
      [exact Hnone|exact Hon].
  - intros env Henv.
    apply (round_without_contestants dict_items items_listed);
      [exact Hnone|exact Hon|exact Hdev|exact Henv].
Qed.

End RoundPass.

Lemma first_pass_eliminates_no_one_witness :
  exists st0 st st',
    lobby (initial clock_five_phases env_both_join) = Done tt st0
    /\ round_start map_to_list st0 = Done tt st
    /\ round_for map_to_list tick_jolted
         (map_to_list (controllers_alive st)) st = Done tt st'
    /\ controllers_alive st' = controllers_alive st0.
Proof.
  assert (Hsetup : exists st0 st,
            lobby (initial clock_five_phases env_both_join) = Done tt st0
            /\ round_start map_to_list st0 = Done tt st
            /\ size (controllers_alive st0) = 2%nat).
  { eexists _, _. split; [vm_compute; reflexivity|].
    split; vm_compute; reflexivity. }
  destruct Hsetup as (st0 & st & Hlobby & Hstart & Hsize).
  destruct (first_pass_eliminates_no_one map_to_list
              (fun d => Permutation_refl _) tick_jolted st0 st Hstart)
    as (st' & Hrun & Halive & _).
  - rewrite Hsize. discriminate.
  - exists st0, st, st'. auto.
Defined.

Lemma pass_ends_round_by_win_witness :
  exists st' serial move st1 rest n,
    round_for map_to_list tick_one_left
      (map_to_list (controllers_alive (playing [pad "A"] [0; 1; 2; 5]%float)))
      (playing [pad "A"] [0; 1; 2; 5]%float) = Done tt st'
    /\ controllers_alive st1 = {[serial := move]}
    /\ st' = after_win serial move rest n st1.
Proof.
  assert (Hrun : exists st',
            round_for map_to_list tick_one_left
              (map_to_list
                 (controllers_alive (playing [pad "A"] [0; 1; 2; 5]%float)))
              (playing [pad "A"] [0; 1; 2; 5]%float) = Done tt st'
            /\ running st' = false).
  { eexists. split; [vm_compute; reflexivity|reflexivity]. }
  destruct Hrun as (st' & Hrun & Hoff).
  destruct (pass_ends_round_by_win map_to_list (fun d => Permutation_refl _)
              tick_one_left (playing [pad "A"] [0; 1; 2; 5]%float) st'
              eq_refl Hrun Hoff)
    as (serial & move & st1 & rest & n & _ & Hone & _ & Hwin).
  exists st', serial, move, st1, rest, n. auto.
Defined.

Lemma last_contestant_is_never_eliminated_witness :
  exists st1,
    controllers_alive st1 = {["B" := pad "B"]}
    /\ round_for map_to_list tick_jolted [("A", pad "A"); ("B", pad "B")]
         (sampling_on [0; 1; 2; 5]%float)
       = Done tt (after_win "B" (pad "B") [] 2 st1).
Proof.
  destruct (proj2 (last_contestant_is_never_eliminated map_to_list
                     (fun d => Permutation_refl _) tick_jolted
                     (sampling_on [0; 1; 2; 5]%float) eq_refl
                     ltac:(vm_compute; lia))
              "A" (pad "A") "B" (pad "B") 1%float [] 2%nat)
    as (st1 & _ & Hleft & Hrun).
  - discriminate.
  - vm_compute. reflexivity.
  - reflexivity.
  - vm_compute. reflexivity.
  - vm_compute. reflexivity.
  - exists 0%float, [1; 2]%float, 5%float.
    split; [reflexivity|]. split; [reflexivity|].
    split; [repeat constructor|reflexivity].
  - exists st1. split; assumption.
Defined.

Lemma round_without_contestants_is_silent_witness :
  exists st1,
    reconcile map_to_list tick_strangers (playing [pad "A"; pad "B"] [])
    = Done tt st1
    /\ controllers_alive st1 = ∅
    /\ running st1 = true.
Proof.
  destruct (round_without_contestants_is_silent map_to_list
              (fun d => Permutation_refl _) tick_strangers
              (playing [pad "A"; pad "B"] []) eq_refl)
    as (st1 & Hrun & Hnone & Hon & _).
  - intros Hcount. vm_compute in Hcount. discriminate Hcount.
  - discriminate.
  - intros serial Hin Hc.
    change (get_serial <$> connected_after tick_strangers) with ["C"] in Hc.
    apply list_elem_of_singleton in Hc. subst serial.
    apply elem_of_dom in Hin as [m Hm]. vm_compute in Hm. discriminate Hm.
  - exists st1. auto.
Defined.

(** ** The warning colour *)

Lemma dims_led_values : forallb dims (seq 0 256) = true.
Proof. vm_compute. reflexivity. Qed.

Lemma dim_led (v : Z) :
  0 <= v <= 255 -> py_int (py_float v * 0.3)%float = inr (3 * v / 10).
Proof.
  intros Hv.
  pose proof (proj1 (forallb_forall dims (seq 0 256)) dims_led_values
                (Z.to_nat v)) as Hd.
  unfold dims in Hd. rewrite Z2Nat.id in Hd by lia.
  destruct (py_int (py_float v * 0.3)%float) as [e|z].
  - discriminate Hd. apply in_seq. lia.
  - f_equal. apply Z.eqb_eq, Hd, in_seq. lia.
Qed.

(** X13.  The warning colour of line 225 is the palette colour dimmed to
    three tenths, each value rounded down, although 0.3 is not a binary64
    value: for LED values from 0 to 255 the list comprehension raises
    nothing, and the warning sets the device to exactly these values and
    sends nothing else. *)
Theorem warning_colour_is_three_tenths (r g b : Z) :
  0 <= r <= 255 -> 0 <= g <= 255 -> 0 <= b <= 255 ->
  scaled [r; g; b] = inr [3 * r / 10; 3 * g / 10; 3 * b / 10]
  /\ forall serial move st,
       controller_colours st !! get_serial move = Some [r; g; b] ->
       react Warning serial move st
       = Done tt (emit [EvSetLeds (get_serial move)
                          (3 * r / 10) (3 * g / 10) (3 * b / 10)] st).
Proof.
  intros Hr Hg Hb.
  assert (Hscaled : scaled [r; g; b]
                    = inr [3 * r / 10; 3 * g / 10; 3 * b / 10]).
  { cbn [scaled]. rewrite (dim_led r Hr), (dim_led g Hg), (dim_led b Hb).
    reflexivity. }
  split; [exact Hscaled|].
  intros serial move st Hcolour. cbn [react].
  unfold bind, palette_colour. rewrite Hcolour, Hscaled. reflexivity.
Qed.

Lemma warning_colour_is_three_tenths_witness :
  scaled [255; 128; 7] = inr [76; 38; 2].
Proof.
  apply (proj1 (warning_colour_is_three_tenths 255 128 7
                  ltac:(lia) ltac:(lia) ltac:(lia))).
Defined.

(** ** The colours of the palette *)

Lemma palette_leds_checked :
  forallb palette_leds (seq 0 (S palette_bound)) = true.
Proof.
  apply forallb_forall. intros n Hn. apply in_seq in Hn.
  unfold palette_leds.
  destruct (fast_palette_range n ltac:(lia)) as (range & -> & _ & Hleds).
  exact Hleds.
Qed.

Lemma palette_leds_range n :
  (n <= palette_bound)%nat ->
  exists range,
    rgb_range (hsv_range n (Z.of_nat n) (NInt 1) (NInt 1)) = inr range
    /\ length range = n
    /\ Forall (fun colour => leds_ok colour = true) range.
Proof.
  intros Hn.
  pose proof (proj1 (forallb_forall palette_leds (seq 0 (S palette_bound)))
                palette_leds_checked n) as Hcheck.
  unfold palette_leds in Hcheck.
  destruct (rgb_range (hsv_range n (Z.of_nat n) (NInt 1) (NInt 1)))
    as [e|range] eqn:Hrange.
  - discriminate Hcheck. apply in_seq. lia.
  - exists range. split; [reflexivity|].
    destruct (rgb_range_lookup _ _ Hrange) as [Hlen _]. split.
    + rewrite Hlen. unfold hsv_range.
      rewrite length_fmap, length_seq. reflexivity.
    + apply Forall_forall. intros colour Hin.
      assert (Hall : forallb leds_ok range = true)
        by (apply Hcheck, in_seq; lia).
      rewrite forallb_forall in Hall. apply Hall.
      apply list_elem_of_In. exact Hin.
Qed.

Lemma leds_ok_spec colour :
  leds_ok colour = true ->
  exists r g b,
    colour = [r; g; b]
    /\ 0 <= r <= 255 /\ 0 <= g <= 255 /\ 0 <= b <= 255
    /\ 255 ∈ colour /\ 0 ∈ colour.
Proof.
  destruct colour as [|r [|g [|b [|]]]]; try discriminate.
  unfold leds_ok. cbn [forallb existsb].
  intros [[Hrange H255]%andb_prop H0]%andb_prop.
  rewrite !andb_true_iff in Hrange.
  destruct Hrange as ((Hr1 & Hr2) & (Hg1 & Hg2) & (Hb1 & Hb2) & _).
  apply Z.leb_le in Hr1, Hr2, Hg1, Hg2, Hb1, Hb2.
  exists r, g, b. split; [reflexivity|]. repeat split; try assumption.
  - rewrite !orb_true_iff, !Z.eqb_eq in H255. rewrite !elem_of_cons.
    destruct H255 as [H|[H|[H|H]]]; auto; discriminate.
  - rewrite !orb_true_iff, !Z.eqb_eq in H0. rewrite !elem_of_cons.
    destruct H0 as [H|[H|[H|H]]]; auto; discriminate.
Qed.

Lemma dict_of_elem {V} (l : list (string * V)) key value :
  dict_of l !! key = Some value -> (key, value) ∈ l.
Proof.
  unfold dict_of.
  assert (Hgen : forall acc : gmap string V,
            foldl (fun d kv => <[kv.1 := kv.2]> d) acc l !! key = Some value ->
            (key, value) ∈ l \/ acc !! key = Some value).
  { induction l as [|[k v] l IH]; intros acc; cbn [foldl]; [auto|].
    intros Hfound. destruct (IH _ Hfound) as [Hin|Hacc].
    - left. apply list_elem_of_further, Hin.
    - cbn [fst snd] in Hacc. destruct (decide (k = key)) as [->|Hne].
      + rewrite lookup_insert_eq in Hacc. injection Hacc as ->.
        left. apply list_elem_of_here.
      + rewrite lookup_insert_ne in Hacc by exact Hne. right. exact Hacc. }
  intros Hfound. destruct (Hgen ∅ Hfound) as [Hin|Hacc]; [exact Hin|].
  rewrite lookup_empty in Hacc. discriminate.
Qed.

Lemma regenerate_runs st :
  (length (moves st) <= palette_bound)%nat ->
  exists range,
    rgb_range (hsv_range (length (moves st)) (Z.of_nat (length (moves st)))
       (NInt 1) (NInt 1))
    = inr range
    /\ length range = length (moves st)
    /\ Forall (fun colour => leds_ok colour = true) range
    /\ regenerate_colours st
       = Done tt
           (set_controller_colours
              (fun _ => dict_of (zip (get_serial <$> moves st) range))
              (set_colour_range (fun _ => range)
                 (set_HSV (fun _ => hsv_range (length (moves st))
                                      (Z.of_nat (length (moves st)))
       (NInt 1) (NInt 1))
                    st))).
Proof.
  intros Hn.
  destruct (palette_leds_range _ Hn) as (range & Hrange & Hlen & Hok).
  exists range. split; [exact Hrange|]. split; [exact Hlen|].
  split; [exact Hok|]. apply regenerate_palette. exact Hrange.
Qed.

(** X14.  For a roster of up to 1020 devices [regenerate_colours] raises
    nothing, and every colour it puts into the palette is a fully
    saturated LED colour taken from the colour range: three values from 0
    to 255, one of them 255 and one of them 0.  The palette has a colour
    for exactly the serials of the roster, also when a serial is listed
    more than once. *)
Theorem palette_colours_are_led_values (st : State) :
  (length (moves st) <= palette_bound)%nat ->
  exists st',
    regenerate_colours st = Done tt st'
    /\ length (colour_range st') = length (moves st)
    /\ dom (controller_colours st') = list_to_set (get_serial <$> moves st)
    /\ forall serial colour,
         controller_colours st' !! serial = Some colour ->
         colour ∈ colour_range st'
         /\ exists r g b,
              colour = [r; g; b]
              /\ 0 <= r <= 255 /\ 0 <= g <= 255 /\ 0 <= b <= 255
              /\ 255 ∈ colour /\ 0 ∈ colour.
Proof.
  intros Hn. destruct (regenerate_runs st Hn) as (range & _ & Hlen & Hok & ->).
  eexists. split; [reflexivity|].
  cbn [colour_range controller_colours set_controller_colours
       set_colour_range].
  split; [exact Hlen|]. split.
  - rewrite dict_of_dom, fst_zip; [reflexivity|].
    rewrite length_fmap, Hlen. lia.
  - intros serial colour Hcolour. apply dict_of_elem in Hcolour.
    apply elem_of_zip_r in Hcolour. split; [exact Hcolour|].
    apply leds_ok_spec. rewrite Forall_forall in Hok. apply Hok, Hcolour.
Qed.

Lemma palette_colours_are_led_values_witness :
  exists st',
    regenerate_colours (playing [pad "A"; pad "B"; pad "C"] []) = Done tt st'
    /\ length (colour_range st') = 3%nat.
Proof.
  destruct (palette_colours_are_led_values
              (playing [pad "A"; pad "B"; pad "C"] []))
    as (st' & Hrun & Hlen & _).
  - vm_compute. lia.
  - exists st'. split; [exact Hrun|exact Hlen].
Defined.

Lemma dict_of_last {V} (keys : list string) : forall (values : list V)
    (acc : gmap string V) (i : nat) key,
  keys !! i = Some key ->
  (forall j, (i < j)%nat -> keys !! j <> Some key) ->
  length keys = length values ->
  foldl (fun d kv => <[kv.1 := kv.2]> d) acc (zip keys values) !! key
  = values !! i.
Proof.
  induction keys as [|k keys IH]; intros [|v values] acc i key Hi Hlast Hlen;
    try discriminate.
  cbn [zip zip_with foldl fst snd]. destruct i as [|i].
  - injection Hi as ->. rewrite dict_of_other.
    + apply lookup_insert_eq.
    + rewrite fst_zip by (cbn in Hlen; lia). intros Hin.
      apply list_elem_of_lookup in Hin as [j Hj].
      apply (Hlast (S j)); [lia|exact Hj].
  - change ((v :: values) !! S i) with (values !! i).
    apply IH; [exact Hi| |cbn in Hlen; lia].
    intros j Hj. apply (Hlast (S j)). lia.
Qed.

(** X15.  The palette is keyed by serial, and a later roster entry replaces
    an earlier one with the same serial (line 43): a device gets the
    colour of the last roster index that lists its serial, which is the
    colour of the hue [i/n] for this index [i] and the roster size [n]. *)
Theorem palette_last_index_wins (st : State) (i : nat) (move : PSMove) :
  (length (moves st) <= palette_bound)%nat ->
  moves st !! i = Some move ->
  (forall j other, (i < j)%nat -> moves st !! j = Some other ->
                   get_serial other <> get_serial move) ->
  exists st' colour,
    regenerate_colours st = Done tt st'
    /\ controller_colours st' !! get_serial move = Some colour
    /\ colour_range st' !! i = Some colour
    /\ rgb_of_hsv (hue (Z.of_nat i) (Z.of_nat (length (moves st))),
                   NInt 1, NInt 1) = inr colour.
Proof.
  intros Hn Hi Hlast.
  destruct (regenerate_runs st Hn) as (range & Hrange & Hlen & _ & ->).
  destruct (range !! i) as [colour|] eqn:Hcolour.
  - eexists _, colour. split; [reflexivity|].
    cbn [colour_range controller_colours set_controller_colours
         set_colour_range].
    split; [|split; [exact Hcolour|]].
    + unfold dict_of. rewrite (dict_of_last _ range ∅ i (get_serial move)).
      * exact Hcolour.
      * rewrite list_lookup_fmap, Hi. reflexivity.
      * intros j Hj. rewrite list_lookup_fmap.
        destruct (moves st !! j) as [other|] eqn:Hother; [|discriminate].
        cbn. intros [= Heq]. exact (Hlast j other Hj Hother Heq).
      * rewrite length_fmap. congruence.
    + destruct (rgb_range_lookup _ _ Hrange) as [_ Hall].
      destruct (Hall i colour Hcolour) as (c & Hc & Hrgb).
      unfold hsv_range in Hc. rewrite list_lookup_fmap in Hc.
      destruct (seq 0 (length (moves st)) !! i) as [x|] eqn:Hx;
        [|discriminate].
      apply lookup_seq in Hx as [-> _]. cbn in Hc. injection Hc as <-.
      exact Hrgb.
  - apply lookup_ge_None in Hcolour. apply lookup_lt_Some in Hi. lia.
Qed.

Lemma palette_last_index_wins_witness :
  exists st',
    regenerate_colours (playing [pad "A"; pad "B"; pad "A"] []) = Done tt st'
    /\ controller_colours st' !! "A" = colour_range st' !! 2%nat.
Proof.
  destruct (palette_last_index_wins (playing [pad "A"; pad "B"; pad "A"] [])
              2 (pad "A"))
    as (st' & colour & Hrun & Hpalette & Hrange & _).
  - vm_compute. lia.
  - reflexivity.
  - intros [|[|[|j]]] other Hj Hother; try lia. inversion Hother.
  - exists st'. split; [exact Hrun|]. rewrite Hrange. exact Hpalette.
Defined.

Lemma bind_bind {A B} (c1 : M unit) (c2 : M A) (k : A -> M B) st :
  bind c1 (fun _ => bind c2 k) st = bind (bind c1 (fun _ => c2)) k st.
Proof. unfold bind. destruct (c1 st); reflexivity. Qed.

Section RoundStart.

Variable dict_items : gmap string PSMove -> list (string * PSMove).

Hypothesis items_listed : forall d, dict_items d ≡ₚ map_to_list d.

(** X16.  When the roster has at most 1020 devices and the device of every
    contestant is on the roster, the round start raises nothing: it
    prints the start message, makes the palette, drives the contestants
    through the five phases, sets each contestant to its own palette
    colour (an LED triple with values from 0 to 255), and leaves the
    round running with the same contestants and no motion baseline. *)
Theorem round_start_succeeds (st : State) (c1 c2 c3 c4 c5 : list float)
    (n1 n2 n3 n4 n5 : nat) :
  (length (moves st) <= palette_bound)%nat ->
  (forall key move, controllers_alive st !! key = Some move ->
                    get_serial move ∈ get_serial <$> moves st) ->
  elapses 0.5 (clock st) c1 n1 -> elapses 0.3 c1 c2 n2 ->
  elapses 0.75 c2 c3 n3 -> elapses 0.75 c3 c4 n4 -> elapses 0.75 c4 c5 n5 ->
  exists st',
    round_start dict_items st = Done tt st'
    /\ out st'
       = out st
         ++ EvPrint "GAME START"
            :: intro_trace (dict_values dict_items (controllers_alive st))
                 n1 n2 n3 n4 n5
            ++ flat_map (fun item : string * PSMove =>
                 led_events item.2
                   (default [] (controller_colours st' !! get_serial item.2)))
                 (dict_items (controllers_alive st))
    /\ (forall key move,
          controllers_alive st !! key = Some move ->
          exists r g b,
            controller_colours st' !! get_serial move = Some [r; g; b]
            /\ 0 <= r <= 255 /\ 0 <= g <= 255 /\ 0 <= b <= 255)
    /\ controllers_alive st' = controllers_alive st
    /\ move_last_values st' = ∅
    /\ running st' = true
    /\ clock st' = c5.
Proof using items_listed.
  intros Hn Hroster H1 H2 H3 H4 H5.
  destruct (regenerate_runs (emit [EvPrint "GAME START"] st) Hn)
    as (range & _ & Hlen & Hok & Hregen).
  cbn [moves emit set_out] in Hlen, Hregen.
  set (st2 := set_controller_colours
                (fun _ => dict_of (zip (get_serial <$> moves st) range))
                (set_colour_range (fun _ => range)
                   (set_HSV (fun _ => hsv_range (length (moves st))
                                        (Z.of_nat (length (moves st)))
       (NInt 1) (NInt 1))
                      (emit [EvPrint "GAME START"] st)))) in *.
  assert (Hcolour : forall move,
            get_serial move ∈ get_serial <$> moves st ->
            exists r g b,
              controller_colours st2 !! get_serial move = Some [r; g; b]
              /\ 0 <= r <= 255 /\ 0 <= g <= 255 /\ 0 <= b <= 255).
  { intros move Hin.
    assert (Hdom : get_serial move ∈ dom (controller_colours st2)).
    { unfold st2. cbn [controller_colours set_controller_colours].
      rewrite dict_of_dom, fst_zip by (rewrite length_fmap, Hlen; lia).
      apply elem_of_list_to_set. exact Hin. }
    apply elem_of_dom in Hdom as [colour Hfound]. rewrite Hfound.
    unfold st2 in Hfound. cbn [controller_colours set_controller_colours]
      in Hfound.
    apply dict_of_elem, elem_of_zip_r in Hfound.
    rewrite Forall_forall in Hok.
    destruct (leds_ok_spec colour (Hok colour Hfound))
      as (r & g & b & -> & Hr & Hg & Hb & _).
    exists r, g, b. auto. }
  assert (Hitems : forall item,
            item ∈ dict_items (controllers_alive st2) ->
            exists r g b,
              controller_colours st2 !! get_serial item.2 = Some [r; g; b]).
  { intros [key move] Hin.
    apply (items_lookup dict_items items_listed) in Hin.
    destruct (Hcolour move (Hroster key move Hin)) as (r & g & b & Hc & _).
    exists r, g, b. exact Hc. }
  pose proof (intro_then_colours dict_items st2 c1 c2 c3 c4 c5 n1 n2 n3 n4 n5
                H1 H2 H3 H4 H5 Hitems) as Hintro.
  unfold round_start. unfold bind at 1, exec at 1. unfold bind at 1.
  rewrite Hregen. rewrite bind_bind. unfold bind at 1. rewrite Hintro.
  unfold bind, exec. eexists. split; [reflexivity|].
  cbn [out controllers_alive move_last_values running clock
       controller_colours set_running set_move_last_values set_clock emit
       set_out].
  split.
  { unfold st2.
    cbn [out controllers_alive controller_colours set_controller_colours
         set_colour_range set_HSV emit set_out].
    rewrite <- app_assoc. reflexivity. }
  split.
  { intros key move Hkm. apply Hcolour. exact (Hroster key move Hkm). }
  repeat split.
Qed.

End RoundStart.

Lemma round_start_succeeds_witness :
  exists st0 st',
    lobby (initial clock_five_phases env_both_join) = Done tt st0
    /\ round_start map_to_list st0 = Done tt st'
    /\ running st' = true.
Proof.
  assert (Hlobby : exists st0,
            lobby (initial clock_five_phases env_both_join) = Done tt st0
            /\ moves st0 = [pad "A"; pad "B"]
            /\ controllers_alive st0 = {["A" := pad "A"; "B" := pad "B"]}
            /\ clock st0 = clock_five_phases).
  { eexists. split; [vm_compute; reflexivity|]. repeat split. }
  destruct Hlobby as (st0 & Hlobby & Hmoves & Halive & Hclock).
  destruct (round_start_succeeds map_to_list (fun d => Permutation_refl _)
              st0 [1; 1.1; 1.4; 2; 2.1; 3; 3; 3.1; 4; 4; 4.1; 5]%float
              [2; 2.1; 3; 3; 3.1; 4; 4; 4.1; 5]%float
              [3; 3.1; 4; 4; 4.1; 5]%float
              [4; 4.1; 5]%float [] 1 1 1 1 1)
    as (st' & Hrun & _ & _ & _ & _ & Hon & _).
  - rewrite Hmoves. vm_compute. lia.
  - intros key move. rewrite Halive, Hmoves.
    intros [[<- <-]|[_ [<- <-]%lookup_singleton_Some]]%lookup_insert_Some.
    + apply list_elem_of_here.
    + apply list_elem_of_further, list_elem_of_here.
  - rewrite Hclock. exists 0%float, [0.1]%float, 0.6%float.
    split; [reflexivity|]. split; [reflexivity|].
    split; [repeat constructor|reflexivity].
  - exists 1%float, [1.1]%float, 1.4%float.
    split; [reflexivity|]. split; [reflexivity|].
    split; [repeat constructor|reflexivity].
  - exists 2%float, [2.1]%float, 3%float.
    split; [reflexivity|]. split; [reflexivity|].
    split; [repeat constructor|reflexivity].
  - exists 3%float, [3.1]%float, 4%float.
    split; [reflexivity|]. split; [reflexivity|].
    split; [repeat constructor|reflexivity].
  - exists 4%float, [4.1]%float, 5%float.
    split; [reflexivity|]. split; [reflexivity|].
    split; [repeat constructor|reflexivity].
  - exists st0, st'. auto.
Defined.

(** ** The failure counters *)

(** X17.  The failure counters are kept per serial: polling one device
    leaves the counter of every other serial as it is and issues no
    disconnect for it.  A successful poll starts the count again: after
    it, up to 1000 failed polls in a row issue no disconnect, whatever
    the counter was before. *)
Theorem poll_failures_are_per_device (ok : bool) (move : PSMove)
    (st : State) :
  (forall other,
     other <> get_serial move ->
     failures (poll_failures (poll_move ok move st).2) other
     = failures (poll_failures st) other
     /\ count (is_disconnect other) (out (poll_move ok move st).2)
        = count (is_disconnect other) (out st))
  /\ (forall n,
        (n <= 1000)%nat ->
        count (is_disconnect (get_serial move))
          (out (failed_polls n move (poll_move true move st).2))
        = count (is_disconnect (get_serial move)) (out st)).
Proof.
  split.
  - intros other Hne. destruct ok.
    + rewrite poll_move_ok. cbn [snd poll_failures out set_poll_failures emit
        set_out]. unfold failures. rewrite lookup_insert_ne by congruence.
      rewrite count_app. cbn. split; [reflexivity|lia].
    + destruct (poll_move_failed move st) as (_ & -> & ->).
      unfold failures at 1. rewrite lookup_insert_ne by congruence.
      split; [reflexivity|]. rewrite count_app.
      assert (Hother : String.eqb (get_serial move) other = false)
        by (apply String.eqb_neq; congruence).
      destruct (1000 <? _); cbn [count is_disconnect]; rewrite ?Hother; lia.
  - intros n Hn.
    rewrite (failed_polls_disconnects n move (poll_move true move st).2 0).
    + rewrite poll_move_ok. cbn [snd out set_poll_failures emit set_out].
      rewrite count_app. cbn [count is_disconnect].
      replace (Z.max 0 (0 + Z.of_nat n - 1000)) with 0 by lia. cbn. lia.
    + rewrite poll_move_ok. cbn [snd poll_failures set_poll_failures].
      unfold failures. rewrite lookup_insert_eq. reflexivity.
    + lia.
Qed.

Lemma poll_failures_are_per_device_witness :
  count (is_disconnect "A")
    (out (failed_polls 1000 (pad "A")
            (poll_move true (pad "A")
               (failed_polls 1001 (pad "A") (initial [] []))).2))
  = count (is_disconnect "A")
      (out (failed_polls 1001 (pad "A") (initial [] []))).
Proof.
  apply (proj2 (poll_failures_are_per_device true (pad "A")
                  (failed_polls 1001 (pad "A") (initial [] [])))).
  lia.
Defined.

(** ** The end of a round *)

Lemma round_kept_refl st : round_kept st st.
Proof. repeat split. Qed.

Lemma round_kept_trans st1 st2 st3 :
  round_kept st1 st2 -> round_kept st2 st3 -> round_kept st1 st3.
Proof.
  intros (H1 & H2 & H3 & H4) (K1 & K2 & K3 & K4). repeat split; congruence.
Qed.

Section RoundEnd.

Variable dict_items : gmap string PSMove -> list (string * PSMove).

Hypothesis items_listed : forall d, dict_items d ≡ₚ map_to_list d.

Lemma colours_done (items : list (string * PSMove)) : forall st st',
  for_each (fun item : string * PSMove =>
              colour <- palette_colour item.2 ;; set_leds_star item.2 colour)
    items st = Done tt st' ->
  round_kept st st'
  /\ forall item, item ∈ items ->
       is_Some (controller_colours st !! get_serial item.2).
Proof using Type.
  induction items as [|item items IH]; intros st st'; cbn [for_each].
  - intros Hrun. inversion Hrun. subst. split; [apply round_kept_refl|].
    intros item Hin. inversion Hin.
  - intros Hrun. apply bind_done in Hrun as ([] & st1 & Hhead & Hrun).
    apply bind_done in Hhead as (colour & st0 & Hcolour & Hset).
    unfold palette_colour in Hcolour.
    destruct (controller_colours st !! get_serial item.2) as [c|] eqn:Hc;
      [|discriminate].
    inversion Hcolour. subst st0 c. clear Hcolour.
    assert (Hkept : round_kept st st1).
    { destruct colour as [|r [|g [|b [|]]]]; cbn [set_leds_star] in Hset;
        try discriminate.
      inversion Hset. repeat split. }
    destruct (IH _ _ Hrun) as [Hkept' Hall].
    split; [exact (round_kept_trans _ _ _ Hkept Hkept')|].
    intros item' [->|Hin]%elem_of_cons.
    + rewrite Hc. eexists. reflexivity.
    + destruct Hkept as (_ & _ & <- & _). apply Hall, Hin.
Qed.

Lemma items_none d : dict_items d = [] -> d = ∅.
Proof using items_listed.
  intros Hnil. apply map_to_list_empty_iff, Permutation_nil_r.
  rewrite <- (items_listed d), Hnil. reflexivity.
Qed.

Lemma round_start_roster st st' :
  round_start dict_items st = Done tt st' ->
  controllers_alive st <> ∅ ->
  moves st' <> [] /\ running st' = true
  /\ controllers_alive st' = controllers_alive st.
Proof using items_listed.
  intros Hstart Hsome.
  destruct (round_start_state dict_items st st' Hstart)
    as (Halive & Hmoves & _ & Hon).
  split; [|split; [exact Hon|exact Halive]].
  rewrite Hmoves. intros Hempty. apply Hsome. clear Hsome.
  unfold round_start in Hstart.
  apply bind_done in Hstart as ([] & st1 & H1 & Hstart).
  inversion H1. subst st1. clear H1.
  apply bind_done in Hstart as ([] & st2 & H2 & Hstart).
  apply bind_done in Hstart as ([] & st3 & H3 & Hstart).
  apply bind_done in Hstart as ([] & st4 & H4 & _).
  assert (Hpalette : controller_colours st2 = ∅).
  { unfold regenerate_colours in H2. cbv zeta in H2.
    destruct (rgb_range _); [discriminate|]. inversion H2.
    cbn [controller_colours set_controller_colours moves set_colour_range
         set_HSV emit set_out].
    rewrite Hempty. reflexivity. }
  assert (Hsame2 : same_roster (emit [EvPrint "GAME START"] st) st2).
  { revert H2. apply preserves_regenerate_colours;
      first [exact same_roster_trans
            | intros f s; exact (same_roster_refl s)]. }
  assert (Hsame3 : same_roster st2 st3).
  { revert H3. apply preserves_intro;
      first [exact same_roster_refl | exact same_roster_trans
            | intros f s; exact (same_roster_refl s)
            | intros es s _; exact (same_roster_refl s)]. }
  pose proof (keeps_intro dict_items _ _ _ H3) as Hpalette3.
  unfold individual_colours in H4.
  apply bind_done in H4 as (items & st5 & Hitems & H4).
  inversion Hitems. subst st5 items. clear Hitems.
  destruct (colours_done _ _ _ H4) as [_ Hall].
  destruct Hsame2 as [Ha2 _]. destruct Hsame3 as [Ha3 _].
  cbn [controllers_alive emit set_out] in Ha2.
  rewrite <- Ha2, <- Ha3. apply items_none.
  destruct (dict_items (controllers_alive st3)) as [|item items];
    [reflexivity|exfalso].
  destruct (Hall item (list_elem_of_here _ _)) as [colour Hcolour].
  rewrite Hpalette3, Hpalette, lookup_empty in Hcolour. discriminate.
Qed.

Lemma win_outcome serial st st' :
  win dict_items serial st = Done tt st' ->
  moves st' = moves st /\ running st' = false /\ controllers_alive st' = ∅.
Proof using Type.
  intros Hwin. split; [|split; [exact (win_stops dict_items _ _ _ Hwin)|]].
  - revert Hwin.
    apply (preserves_win (fun s s' => moves s' = moves s)); try reflexivity.
    intros s1 s2 s3 H1 H2. congruence.
  - unfold win in Hwin.
    apply bind_done in Hwin as ([] & st1 & _ & Hwin).
    apply bind_done in Hwin as ([] & st2 & _ & Hwin).
    apply bind_done in Hwin as (hsv & st3 & _ & Hwin).
    destruct (rgb_range hsv); [discriminate|].
    apply bind_done in Hwin as ([] & st4 & _ & Hwin).
    apply bind_done in Hwin as (items & st5 & _ & Hwin).
    destruct items as [|[key move] more]; [discriminate|].
    apply bind_done in Hwin as (now & st6 & _ & Hwin).
    apply bind_done in Hwin as (roster & st7 & _ & Hwin).
    apply bind_done in Hwin as ([] & st8 & _ & Hwin).
    apply bind_done in Hwin as ([] & st9 & _ & Hwin).
    unfold bind, exec in Hwin. inversion Hwin. reflexivity.
Qed.

Lemma round_for_outcome tk items : forall st st',
  round_for dict_items tk items st = Done tt st' ->
  moves st' = moves st
  /\ (running st' = running st
      \/ (running st' = false /\ controllers_alive st' = ∅)).
Proof using Type.
  induction items as [|[serial move] later IH]; intros st st';
    cbn [round_for].
  - intros Hrun. inversion Hrun. auto.
  - destruct (Nat.eqb _ 1).
    + intros Hwin. apply win_outcome in Hwin as (Hm & Hoff & Hnone). auto.
    + intros Hrun. apply bind_done in Hrun as ([] & st1 & Hupdate & Hrun).
      destruct (IH _ _ Hrun) as [Hm Hout].
      rewrite (update_move_running _ _ _ _ _ Hupdate) in Hout.
      split; [|exact Hout]. rewrite Hm. revert Hupdate.
      apply (preserves_update_move (fun s s' => moves s' = moves s));
        try reflexivity.
      intros s1 s2 s3 H1 H2. congruence.
Qed.

Lemma round_while_ends env : forall st st',
  running st = true ->
  moves st <> [] ->
  round_while dict_items env st = Done tt st' ->
  controllers_alive st' = ∅ /\ running st' = false.
Proof using items_listed.
  induction env as [|tk later IH]; intros st st' Hon Hroster;
    cbn [round_while]; rewrite Hon; [discriminate|].
  destruct (round_pass _ _ _) as [[] st2| |] eqn:Hpass; try discriminate.
  unfold round_pass in Hpass.
  apply bind_done in Hpass as (items & st0 & Hitems & Hpass).
  inversion Hitems. subst st0 items. clear Hitems.
  apply bind_done in Hpass as ([] & st1 & Hfor & Hrec).
  destruct (round_for_outcome _ _ _ _ Hfor) as [Hmoves Hout].
  cbn [moves running set_ticks] in Hmoves, Hout.
  destruct Hout as [Hon1|[Hoff Hnone]].
  - rewrite Hon in Hon1.
    destruct (decide (length (connected_after tk) = length (moves st1)))
      as [Hsame|Hchanged].
    + rewrite (reconcile_same dict_items tk st1 Hon1 Hsame) in Hrec.
      assert (Hsome : Nat.eqb (length (moves st1)) 0 = false).
      { rewrite Hmoves. destruct (moves st); [congruence|reflexivity]. }
      rewrite Hsome in Hrec. inversion Hrec. subst st2.
      apply IH; [exact Hon1|congruence].
    + rewrite (reconcile_changed dict_items items_listed tk st1 Hon1 Hchanged)
        in Hrec.
      cbv zeta in Hrec. inversion Hrec as [Hst2]. clear Hrec.
      destruct (connected_after tk) as [|device devices] eqn:Hdev.
      * cbn [length Nat.eqb] in Hst2. subst st2.
        rewrite round_while_stopped by reflexivity.
        intros Hrun. inversion Hrun.
        cbn [controllers_alive running set_running set_controllers_alive
             set_moves].
        split; [|reflexivity]. apply map_empty_filter.
        intros key move _ Hin. cbn in Hin. inversion Hin.
      * cbn [length Nat.eqb] in Hst2. subst st2.
        apply IH; [exact Hon1|discriminate].
  - rewrite (reconcile_stopped dict_items tk st1 Hoff) in Hrec.
    inversion Hrec. subst st2.
    rewrite (round_while_stopped dict_items later st1 Hoff).
    intros Hrun. inversion Hrun. subst st'. auto.
Qed.

(** X18.  Every round that ends leaves the contestant set empty and
    [running] false, whether it ends by the win sequence or because no
    device is connected any more: a round started by the lobby has at
    least one contestant and, since every contestant got a palette
    colour, a roster that is not empty, and the roster becomes empty only
    in the reconciliation that also removes every contestant.  So the
    next lobby starts with no joined device. *)
Theorem finished_round_leaves_no_contestant (st st' : State) :
  (controllers_alive st <> ∅ ->
   round dict_items st = Done tt st' ->
   controllers_alive st' = ∅ /\ running st' = false)
  /\ (game dict_items st = Done tt st' ->
      controllers_alive st' = ∅ /\ running st' = false).
Proof using items_listed.
  assert (Hround : forall st0,
            controllers_alive st0 <> ∅ ->
            round dict_items st0 = Done tt st' ->
            controllers_alive st' = ∅ /\ running st' = false).
  { intros st0 Hsome Hrun. unfold round in Hrun.
    apply bind_done in Hrun as ([] & st1 & Hstart & Hrun).
    apply bind_done in Hrun as (env & st2 & Henv & Hrun).
    inversion Henv. subst st2 env. clear Henv.
    destruct (round_start_roster _ _ Hstart Hsome) as (Hroster & Hon & _).
    exact (round_while_ends _ _ _ Hon Hroster Hrun). }
  split; [apply Hround|].
  intros Hgame. unfold game in Hgame.
  apply bind_done in Hgame as ([] & st0 & Hlobby & Hrun).
  apply (Hround st0); [|exact Hrun].
  unfold lobby in Hlobby. cbv zeta in Hlobby.
  apply lobby_while_exit in Hlobby as [Hexit _].
  intros Hnone. unfold lobby_exit in Hexit. cbv zeta in Hexit.
  rewrite Hnone, map_size_empty in Hexit. cbn in Hexit.
  rewrite andb_false_r in Hexit. discriminate.
Qed.

End RoundEnd.

Lemma finished_round_leaves_no_contestant_witness :
  exists st',
    game map_to_list (initial clock_solo env_solo) = Done tt st'
    /\ controllers_alive st' = ∅.
Proof.
  assert (Hrun : exists st',
            game map_to_list (initial clock_solo env_solo) = Done tt st')
    by (eexists; vm_compute; reflexivity).
  destruct Hrun as [st' Hrun]. exists st'. split; [exact Hrun|].
  apply (proj2 (finished_round_leaves_no_contestant map_to_list
                  (fun d => Permutation_refl _)
                  (initial clock_solo env_solo) st') Hrun).
Defined.

(** ** [sleep_controllers] *)



(** ** Fully saturated colours *)

(** X20.  For saturation 1 and value 1, the integers the palette passes,
    [hsv_to_rgb] returns for every hue for which it returns at all a
    list of three numbers with one channel at the integer 255 and one at
    the integer 0: [p] and [v*255] do not depend on the hue. *)
Theorem saturated_colour_has_full_and_dark_channel (h : float)
    (l : list num) :
  hsv_to_rgb h (NInt 1) (NInt 1) = Value l ->
  NInt 255 ∈ l /\ NInt 0 ∈ l /\ length l = 3%nat.
Proof.
  unfold hsv_to_rgb. cbn [num_is_zero float_of_num times_255].
  change (1 =? 0) with false. cbv iota zeta.
  destruct (py_int (h * 6)%float) as [e|i]; [discriminate|].
  change (py_int (255 * (py_float 1 * (1 - py_float 1)))%float)
    with (@inr exn Z 0).
  cbv iota.
  destruct (py_int _) as [e|q]; [discriminate|].
  destruct (py_int _) as [e|t]; [discriminate|].
  change (1 * 255) with 255.
  repeat match goal with
         | |- context [if ?c then _ else _] => destruct c
         end;
    intros Hl; inversion Hl; subst l;
    (split; [|split; [|reflexivity]]); rewrite !elem_of_cons; auto.
Qed.

Lemma saturated_colour_has_full_and_dark_channel_witness :
  NInt 255 ∈ [NInt 255; NInt 0; NInt 0].
Proof.
  apply (saturated_colour_has_full_and_dark_channel 0
           [NInt 255; NInt 0; NInt 0]).
  vm_compute. reflexivity.
Defined.
